(** * The circuit pool manager of [src/core/tor_manager.py]

    A shallow embedding of [CircuitState], [Circuit] and [TorManager], and
    the properties of circuit acquisition, cleanup, rotation and session
    binding.

    Modelling conventions.
    - Python [int] is [Z].  Timestamps ([time.time()], a float number of
      seconds) are [Z] too: only subtraction and comparison are applied to
      them, over a clock of fixed resolution.
    - [self.circuits] is a Python [dict]: an association list in insertion
      order whose keys stay unique ([dict_set] overwrites in place).
    - A [Circuit] object is shared between the registry and the caller that
      received it; every object lives in the registry under its [id], so a
      mutation of the object is an update of the registry entry, and a
      returned circuit is the value of the entry at the time of the return.
    - The outside world is an [Environment] of three oracles, each
      consulted in call order: the wall clock [time_time], the control
      channel [new_circuit] (one reply per [_create_circuit]) and
      [random_choice].  [World] counts the calls made so far. *)

From Stdlib Require Import ZArith List Sorted String Ascii Bool Arith Lia.
Import ListNotations.
Local Open Scope Z_scope.

(** ** Python containers *)

Definition dict (V : Type) : Type := list (string * V).

(** [d.get(k)] / [d[k]] ([None] stands for the [KeyError] of [d[k]]). *)
Fixpoint dict_get {V : Type} (d : dict V) (k : string) : option V :=
  match d with
  | [] => None
  | (k', v) :: r => if String.eqb k' k then Some v else dict_get r k
  end.

(** [d[k] = v]: overwrite in place, or append a new key. *)
Fixpoint dict_set {V : Type} (d : dict V) (k : string) (v : V) : dict V :=
  match d with
  | [] => [(k, v)]
  | (k', v') :: r =>
      if String.eqb k' k then (k', v) :: r else (k', v') :: dict_set r k v
  end.

Definition dict_keys {V : Type} (d : dict V) : list string := map fst d.

(** [x in l] *)
Fixpoint list_in (x : string) (l : list string) : bool :=
  match l with
  | [] => false
  | y :: r => if String.eqb y x then true else list_in x r
  end.

(** [l.remove(x)]: drops the first occurrence.  The source guards every
    call with [x in l], so the [ValueError] case is never taken. *)
Fixpoint list_remove (x : string) (l : list string) : list string :=
  match l with
  | [] => []
  | y :: r => if String.eqb y x then r else y :: list_remove x r
  end.

(** Truthiness of an [Optional[str]]: [None] and the empty string are falsy. *)
Definition truthy (s : string) : bool := negb (String.eqb s EmptyString).

(** ** Exceptions *)

Inductive exn : Type :=
| KeyError (key : string)
| RuntimeError (msg : string).

Inductive outcome (A : Type) : Type :=
| Return (a : A)
| Raise (e : exn).
Arguments Return {A} a.
Arguments Raise {A} e.

(** ** Data model *)

Inductive CircuitState : Type := FRESH | ACTIVE | DEGRADED | DEAD.

Definition CircuitState_eqb (a b : CircuitState) : bool :=
  match a, b with
  | FRESH, FRESH | ACTIVE, ACTIVE | DEGRADED, DEGRADED | DEAD, DEAD => true
  | _, _ => false
  end.

Record Circuit : Type := mkCircuit {
  id : string;
  state : CircuitState;
  created_at : Z;
  request_count : Z;
  last_used : option Z;
  entry_node : option string;
  exit_node : option string
}.

Definition set_state (c : Circuit) (s : CircuitState) : Circuit :=
  mkCircuit (id c) s (created_at c) (request_count c) (last_used c)
            (entry_node c) (exit_node c).

Definition set_request_count (c : Circuit) (n : Z) : Circuit :=
  mkCircuit (id c) (state c) (created_at c) n (last_used c)
            (entry_node c) (exit_node c).

Definition set_last_used (c : Circuit) (t : Z) : Circuit :=
  mkCircuit (id c) (state c) (created_at c) (request_count c) (Some t)
            (entry_node c) (exit_node c).

(** [Circuit.is_healthy], with [now] the reading of [time.time()] taken by
    the [age] property. *)
Definition is_healthy (now : Z) (c : Circuit) : bool :=
  if CircuitState_eqb (state c) DEAD then false
  else if now - created_at c >? 600 then false
  else if request_count c >? 100 then false
  else true.

Record Session : Type := mkSession {
  proxy_port : Z;
  user_agent : string
}.

Record TorManager : Type := mkTorManager {
  socks_port : Z;
  control_port : Z;
  max_circuits : Z;
  circuit_lifetime : Z;
  circuits : dict Circuit;
  active_circuits : list string;
  session_cache : dict Session
}.

(** [TorManager.__init__] *)
Definition TorManager_init (socks control maxc lifetime : Z) : TorManager :=
  mkTorManager socks control maxc lifetime [] [] [].

(** [create_tor_manager] reads [circuit_count] and
    [circuit_lifetime_minutes] of the [tor] section. *)
Definition create_tor_manager
  (socks control circuit_count circuit_lifetime_minutes : Z) : TorManager :=
  TorManager_init socks control circuit_count (circuit_lifetime_minutes * 60).

Definition with_circuits (m : TorManager) (d : dict Circuit) : TorManager :=
  mkTorManager (socks_port m) (control_port m) (max_circuits m)
               (circuit_lifetime m) d (active_circuits m) (session_cache m).

Definition with_active (m : TorManager) (l : list string) : TorManager :=
  mkTorManager (socks_port m) (control_port m) (max_circuits m)
               (circuit_lifetime m) (circuits m) l (session_cache m).

Definition with_sessions (m : TorManager) (s : dict Session) : TorManager :=
  mkTorManager (socks_port m) (control_port m) (max_circuits m)
               (circuit_lifetime m) (circuits m) (active_circuits m) s.

(** ** The outside world *)

(** A reply of the control channel to [new_circuit] followed by
    [get_circuit]: the id and the relay path, or a [stem.ControllerError]. *)
Inductive ctl_reply : Type :=
| CtlOk (cid : string) (path : list string)
| CtlError.

Record World : Type := mkWorld {
  ticks : nat;
  ctl_calls : nat;
  rnd_calls : nat
}.

Definition tick (w : World) : World :=
  mkWorld (S (ticks w)) (ctl_calls w) (rnd_calls w).

Definition ctl_next (w : World) : World :=
  mkWorld (ticks w) (S (ctl_calls w)) (rnd_calls w).

Definition rnd_next (w : World) : World :=
  mkWorld (ticks w) (ctl_calls w) (S (rnd_calls w)).

Definition user_agents : list string :=
  [ "Mozilla/5.0 (Windows NT 10.0; Win64; x64) AppleWebKit/537.36 (KHTML, like Gecko) Chrome/119.0.0.0 Safari/537.36"%string;
    "Mozilla/5.0 (Macintosh; Intel Mac OS X 10_15_7) AppleWebKit/605.1.15 (KHTML, like Gecko) Version/17.1 Safari/605.1.15"%string;
    "Mozilla/5.0 (X11; Linux x86_64; rv:109.0) Gecko/20100101 Firefox/119.0"%string ].

Record Stats : Type := mkStats {
  total_circuits : Z;
  stats_active_circuits : Z;
  healthy_circuits : Z;
  sessions_cached : Z
}.

(** What [get_browser] hands to the Firefox driver: the preferences set
    on the options, the [--headless] argument and the log path of the
    service. *)
Record Browser : Type := mkBrowser {
  browser_proxy_type : Z;
  browser_socks_host : string;
  browser_socks_port : Z;
  browser_remote_dns : bool;
  browser_javascript : bool;
  browser_log_driver : string;
  browser_user_agent : string;
  browser_headless : bool;
  browser_log_path : string
}.

(** What the launch of the driver ([FirefoxService(...)] and
    [webdriver.Firefox(...)]) answers: the driver, or the exception that
    the launch raised. *)
Inductive launch_reply : Type :=
| DriverStarted
| DriverError (msg : string).

(** How a call of [get_browser] ends: with the driver running on the
    configuration it was given, with an exception of the pool, or with
    the exception of the launch. *)
Inductive browser_outcome : Type :=
| BrowserReturn (b : Browser)
| BrowserRaise (e : exn)
| BrowserLaunchRaise (msg : string).

(** The operations a worker can apply to a started manager.  [get_browser]
    changes the pool exactly as [get_circuit(False)] does, [get_stats]
    only reads it, and [stop] ends its life. *)
Inductive Op : Type :=
| OpGetCircuit (require_fresh : bool)
| OpCleanup
| OpMarkDead (circuit_id : string)
| OpRotateAll
| OpGetSession (circuit : option Circuit).

(** The environment of a manager: the collaborators it calls. *)
Class Environment : Type := {
  (** [time_time n] is the [n]-th reading of [time.time()]. *)
  time_time : nat -> Z;
  (** [new_circuit n] is the control channel's [n]-th reply. *)
  new_circuit : nat -> ctl_reply;
  (** [random_choice n] is the index drawn by the [n]-th [random.choice]. *)
  random_choice : nat -> nat
}.

Section Manager.

Context {E : Environment}.

Definition now (w : World) : Z := time_time (ticks w).

(** [circuit.is_healthy] as the manager evaluates it: the clock is read
    (by [age]) only when the state is not [DEAD]. *)
Definition is_healthy_io (c : Circuit) (w : World) : bool * World :=
  if CircuitState_eqb (state c) DEAD then (false, w)
  else (is_healthy (now w) c, tick w).

(** [TorManager._create_circuit] *)
Definition _create_circuit (m : TorManager) (w : World)
  : option string * TorManager * World :=
  match new_circuit (ctl_calls w) with
  | CtlOk cid path =>
      let w1 := ctl_next w in
      let c := mkCircuit cid FRESH (now w1) 0 None
                         (hd_error path) (hd_error (rev path)) in
      (Some cid,
       with_active (with_circuits m (dict_set (circuits m) cid c))
                   (active_circuits m ++ [cid]),
       tick w1)
  | CtlError => (None, m, ctl_next w)
  end.

(** The loop of [_initialize_circuits], [n] iterations. *)
Fixpoint create_many (n : nat) (m : TorManager) (w : World)
  : TorManager * World :=
  match n with
  | O => (m, w)
  | S k => let '(_, m1, w1) := _create_circuit m w in create_many k m1 w1
  end.

(** [TorManager._initialize_circuits]: [range(min(3, max_circuits))]. *)
Definition _initialize_circuits (m : TorManager) (w : World)
  : TorManager * World :=
  create_many (Z.to_nat (Z.min 3 (max_circuits m))) m w.

(** [TorManager.start], once the control connection is established. *)
Definition start (m : TorManager) (w : World) : TorManager * World :=
  _initialize_circuits m w.

(** First loop of [_cleanup_circuits], over [list(self.circuits.items())]:
    the entries are updated in place and the ids collected in
    [dead_circuits]. *)
Fixpoint cleanup_loop (lifetime : Z) (items : dict Circuit) (w : World)
  : dict Circuit * list string * World :=
  match items with
  | [] => ([], [], w)
  | (k, c) :: rest =>
      if CircuitState_eqb (state c) DEAD then
        let '(rest', dead, w') := cleanup_loop lifetime rest w in
        ((k, c) :: rest', k :: dead, w')
      else if now w - created_at c >? lifetime then
        let '(rest', dead, w') := cleanup_loop lifetime rest (tick w) in
        ((k, set_state c DEAD) :: rest', k :: dead, w')
      else if request_count c >? 100 then
        let '(rest', dead, w') := cleanup_loop lifetime rest (tick w) in
        ((k, set_state c DEGRADED) :: rest', dead, w')
      else
        let '(rest', dead, w') := cleanup_loop lifetime rest (tick w) in
        ((k, c) :: rest', dead, w')
  end.

(** Second loop of [_cleanup_circuits]. *)
Definition remove_dead (dead active : list string) : list string :=
  fold_left (fun act cid => if list_in cid act then list_remove cid act
                            else act) dead active.

(** [TorManager._cleanup_circuits] ([current_time] is read and unused). *)
Definition _cleanup_circuits (m : TorManager) (w : World)
  : TorManager * World :=
  let '(regs, dead, w1) :=
    cleanup_loop (circuit_lifetime m) (circuits m) (tick w) in
  (with_active (with_circuits m regs)
               (remove_dead dead (active_circuits m)), w1).

(** The scan of [get_circuit] over [self.active_circuits]. *)
Fixpoint find_healthy (require_fresh : bool) (ids : list string)
  (m : TorManager) (w : World)
  : outcome (option Circuit) * TorManager * World :=
  match ids with
  | [] => (Return None, m, w)
  | cid :: rest =>
      match dict_get (circuits m) cid with
      | None => (Raise (KeyError cid), m, w)
      | Some c =>
          let '(healthy, w1) := is_healthy_io c w in
          if healthy then
            if require_fresh && (request_count c >? 0) then
              find_healthy require_fresh rest m w1
            else
              let c' := set_state
                          (set_last_used
                             (set_request_count c (request_count c + 1))
                             (now w1))
                          ACTIVE in
              (Return (Some c'),
               with_circuits m (dict_set (circuits m) cid c'), tick w1)
          else find_healthy require_fresh rest m w1
      end
  end.

(** "Create new circuit if none available" of [get_circuit]. *)
Definition create_new (m : TorManager) (w : World)
  : outcome (option Circuit) * TorManager * World :=
  if Z.of_nat (List.length (active_circuits m)) <? max_circuits m then
    let '(r, m1, w1) := _create_circuit m w in
    match r with
    | Some cid =>
        if truthy cid then
          match dict_get (circuits m1) cid with
          | None => (Raise (KeyError cid), m1, w1)
          | Some c =>
              let c' := set_last_used (set_request_count c 1) (now w1) in
              (Return (Some c'),
               with_circuits m1 (dict_set (circuits m1) cid c'), tick w1)
          end
        else (Return None, m1, w1)
    | None => (Return None, m1, w1)
    end
  else (Return None, m, w).

(** The key of the recycling [min]: [self.circuits[cid].last_used or 0]
    (a [last_used] of [0.0] is falsy and gives [0] as well). *)
Definition last_used_key (m : TorManager) (cid : string) : option Z :=
  match dict_get (circuits m) cid with
  | None => None
  | Some c => Some (match last_used c with Some t => t | None => 0 end)
  end.

(** The same key read on a circuit: [circuit.last_used or 0]. *)
Definition last_used_or_0 (c : Circuit) : Z :=
  match last_used c with Some t => t | None => 0 end.

(** Python's [min(iterable, key=...)]: the first minimal element. *)
Fixpoint min_from (key : string -> option Z) (best : string) (kbest : Z)
  (l : list string) : outcome string :=
  match l with
  | [] => Return best
  | x :: r =>
      match key x with
      | None => Raise (KeyError x)
      | Some kx =>
          if kx <? kbest then min_from key x kx r
          else min_from key best kbest r
      end
  end.

(** "Recycle oldest circuit" of [get_circuit], and its final [return None]. *)
Definition recycle_oldest (m : TorManager) (w : World)
  : outcome (option Circuit) * TorManager * World :=
  match active_circuits m with
  | [] => (Return None, m, w)
  | first :: rest =>
      match last_used_key m first with
      | None => (Raise (KeyError first), m, w)
      | Some k0 =>
          match min_from (last_used_key m) first k0 rest with
          | Raise e => (Raise e, m, w)
          | Return oldest_id =>
              match dict_get (circuits m) oldest_id with
              | None => (Raise (KeyError oldest_id), m, w)
              | Some c =>
                  let c' := set_last_used
                              (set_request_count c (request_count c + 1))
                              (now w) in
                  (Return (Some c'),
                   with_circuits m (dict_set (circuits m) oldest_id c'),
                   tick w)
              end
          end
      end
  end.

(** [TorManager.get_circuit] *)
Definition get_circuit (require_fresh : bool) (m : TorManager) (w : World)
  : outcome (option Circuit) * TorManager * World :=
  let '(m1, w1) := _cleanup_circuits m w in
  match find_healthy require_fresh (active_circuits m1) m1 w1 with
  | (Return None, m2, w2) =>
      match create_new m2 w2 with
      | (Return None, m3, w3) => recycle_oldest m3 w3
      | r => r
      end
  | r => r
  end.

(** [TorManager.mark_circuit_dead] *)
Definition mark_circuit_dead (circuit_id : string) (m : TorManager)
  : TorManager :=
  match dict_get (circuits m) circuit_id with
  | Some c =>
      let m1 := with_circuits m
                  (dict_set (circuits m) circuit_id (set_state c DEAD)) in
      if list_in circuit_id (active_circuits m1)
      then with_active m1 (list_remove circuit_id (active_circuits m1))
      else m1
  | None => m
  end.

(** [TorManager.rotate_all_circuits] *)
Definition rotate_all_circuits (m : TorManager) (w : World)
  : TorManager * World :=
  let m1 := fold_left (fun acc cid => mark_circuit_dead cid acc)
                      (dict_keys (circuits m)) m in
  _initialize_circuits (with_sessions m1 []) w.

(** [sum(1 for c in self.circuits.values() if c.is_healthy)] *)
Fixpoint count_healthy (items : dict Circuit) (w : World) : Z * World :=
  match items with
  | [] => (0, w)
  | (_, c) :: rest =>
      let '(h, w1) := is_healthy_io c w in
      let '(n, w2) := count_healthy rest w1 in
      ((if h then 1 else 0) + n, w2)
  end.

(** [TorManager.get_stats] *)
Definition get_stats (m : TorManager) (w : World) : Stats * World :=
  let '(h, w1) := count_healthy (circuits m) w in
  (mkStats (Z.of_nat (List.length (circuits m)))
           (Z.of_nat (List.length (active_circuits m)))
           h
           (Z.of_nat (List.length (session_cache m))), w1).

(** [TorManager._get_random_user_agent] *)
Definition _get_random_user_agent (w : World) : string * World :=
  (nth (Nat.modulo (random_choice (rnd_calls w)) 3) user_agents
       EmptyString, rnd_next w).

(** The part of [get_http_session] that binds a session to a circuit id. *)
Definition bind_session (cid : string) (m : TorManager) (w : World)
  : Session * TorManager * World :=
  match dict_get (session_cache m) cid with
  | Some s => (s, m, w)
  | None =>
      let '(ua, w1) := _get_random_user_agent w in
      let s := mkSession (socks_port m) ua in
      (s, with_sessions m (dict_set (session_cache m) cid s), w1)
  end.

(** [TorManager.get_http_session], up to the [yield]; the second
    component is the circuit the call acquired itself, if any. *)
Definition get_http_session (circuit : option Circuit) (m : TorManager)
  (w : World) : outcome Session * option Circuit * TorManager * World :=
  match circuit with
  | Some c =>
      let '(s, m1, w1) := bind_session (id c) m w in
      (Return s, None, m1, w1)
  | None =>
      match get_circuit false m w with
      | (Raise e, m1, w1) => (Raise e, None, m1, w1)
      | (Return None, m1, w1) =>
          (Raise (RuntimeError "No available circuits"), None, m1, w1)
      | (Return (Some c), m1, w1) =>
          let '(s, m2, w2) := bind_session (id c) m1 w1 in
          (Return s, Some c, m2, w2)
      end
  end.

(** One operation; the first component lists the circuits handed out. *)
Definition step (o : Op) (m : TorManager) (w : World)
  : list Circuit * TorManager * World :=
  match o with
  | OpGetCircuit rf =>
      match get_circuit rf m w with
      | (Return (Some c), m1, w1) => ([c], m1, w1)
      | (_, m1, w1) => ([], m1, w1)
      end
  | OpCleanup => let '(m1, w1) := _cleanup_circuits m w in ([], m1, w1)
  | OpMarkDead cid => ([], mark_circuit_dead cid m, w)
  | OpRotateAll => let '(m1, w1) := rotate_all_circuits m w in ([], m1, w1)
  | OpGetSession c =>
      match get_http_session c m w with
      | (_, Some c', m1, w1) => ([c'], m1, w1)
      | (_, None, m1, w1) => ([], m1, w1)
      end
  end.

Fixpoint run (ops : list Op) (m : TorManager) (w : World)
  : list Circuit * TorManager * World :=
  match ops with
  | [] => ([], m, w)
  | o :: rest =>
      let '(out1, m1, w1) := step o m w in
      let '(out2, m2, w2) := run rest m1 w1 in
      (out1 ++ out2, m2, w2)
  end.

(** Pool states reachable from a started manager. *)
Inductive reachable : TorManager -> World -> Prop :=
| reach_start : forall socks control maxc lifetime w m' w',
    start (TorManager_init socks control maxc lifetime) w = (m', w') ->
    reachable m' w'
| reach_step : forall o m w out m' w',
    reachable m w -> step o m w = (out, m', w') -> reachable m' w'.

(** The options and the service that [get_browser] builds. *)
Definition firefox_config (socks : Z) (ua : string) : Browser :=
  mkBrowser 1 "127.0.0.1" socks true true "off" ua true "/dev/null".

(** The last two statements of [get_browser]: the launch of the driver. *)
Definition launch_driver (launch : launch_reply) (b : Browser)
  : browser_outcome :=
  match launch with
  | DriverStarted => BrowserReturn b
  | DriverError msg => BrowserLaunchRaise msg
  end.

(** [TorManager.get_browser]; [launch] is the answer of the driver launch
    this call performs, if it gets that far, and the second component is
    the circuit the call acquired itself, if any.  The circuit is used
    for nothing but the check that one is available. *)
Definition get_browser (launch : launch_reply) (circuit : option Circuit)
  (m : TorManager) (w : World)
  : browser_outcome * option Circuit * TorManager * World :=
  match circuit with
  | Some _ =>
      let '(ua, w1) := _get_random_user_agent w in
      (launch_driver launch (firefox_config (socks_port m) ua), None, m, w1)
  | None =>
      match get_circuit false m w with
      | (Raise e, m1, w1) => (BrowserRaise e, None, m1, w1)
      | (Return None, m1, w1) =>
          (BrowserRaise (RuntimeError "No available circuits"), None, m1, w1)
      | (Return (Some c), m1, w1) =>
          let '(ua, w2) := _get_random_user_agent w1 in
          (launch_driver launch (firefox_config (socks_port m1) ua),
           Some c, m1, w2)
      end
  end.

End Manager.

(** ** Invariants of the pool *)

(** Position of a state on the path [FRESH -> ACTIVE -> DEGRADED -> DEAD]. *)
Definition rank (s : CircuitState) : nat :=
  match s with FRESH => 0 | ACTIVE => 1 | DEGRADED => 2 | DEAD => 3 end%nat.

Section Invariants.

Context {E : Environment}.

(** The control channel never issues the same circuit id twice. *)
Definition unique_ids : Prop :=
  forall i j cid p q,
    new_circuit i = CtlOk cid p -> new_circuit j = CtlOk cid q -> i = j.

(** The wall clock does not run backwards, and reads after the epoch. *)
Definition clock_monotone : Prop :=
  forall i j, (i <= j)%nat -> time_time i <= time_time j.

Definition clock_positive : Prop := forall i, 0 < time_time i.

(** [cid] was issued by one of the first [n] replies of the channel. *)
Definition issued (n : nat) (cid : string) : Prop :=
  exists i path, (i < n)%nat /\ new_circuit i = CtlOk cid path.

(** What holds of the registry entry [c] stored under [cid]. *)
Definition circ_ok (w : World) (cid : string) (c : Circuit) : Prop :=
  id c = cid /\
  (state c = DEGRADED -> 100 < request_count c) /\
  issued (ctl_calls w) cid.

Record wf (m : TorManager) (w : World) : Prop := mk_wf {
  wf_nodup : NoDup (active_circuits m);
  wf_active : forall cid, In cid (active_circuits m) ->
                          dict_get (circuits m) cid <> None;
  wf_reg : forall cid c, dict_get (circuits m) cid = Some c -> circ_ok w cid c
}.

Definition size_ok (m : TorManager) : Prop :=
  Z.of_nat (List.length (active_circuits m)) <= Z.max 0 (max_circuits m).

(** Every active id names a registered circuit that is not [DEAD]. *)
Definition all_alive (m : TorManager) : Prop :=
  forall cid, In cid (active_circuits m) ->
    exists c, dict_get (circuits m) cid = Some c /\ state c <> DEAD.

(** Every circuit of [m] is still registered in [m'], no earlier on the
    path of states. *)
Definition reg_le (m m' : TorManager) : Prop :=
  forall cid c, dict_get (circuits m) cid = Some c ->
    exists c', dict_get (circuits m') cid = Some c' /\
               id c' = id c /\ created_at c' = created_at c /\
               (rank (state c) <= rank (state c'))%nat.

(** The configuration is never written after [__init__]. *)
Definition same_config (m m' : TorManager) : Prop :=
  socks_port m' = socks_port m /\ control_port m' = control_port m /\
  max_circuits m' = max_circuits m /\ circuit_lifetime m' = circuit_lifetime m.

(** The counters of the world only grow. *)
Definition world_le (w w' : World) : Prop :=
  (ticks w <= ticks w')%nat /\ (ctl_calls w <= ctl_calls w')%nat /\
  (rnd_calls w <= rnd_calls w')%nat.

(** [created_at] of the circuit registered under [cid]. *)
Definition created_of (m : TorManager) (cid : string) : Z :=
  match dict_get (circuits m) cid with
  | Some c => created_at c
  | None => 0
  end.

(** Timing invariant: the active list is in order of creation time,
    nothing was created in the future, and uses are stamped after the
    epoch. *)
Record wf_time (m : TorManager) (w : World) : Prop := mk_wf_time {
  wt_sorted : StronglySorted
                (fun a b => created_of m a <= created_of m b)
                (active_circuits m);
  wt_created : forall cid c, dict_get (circuits m) cid = Some c ->
                             created_at c <= now w;
  wt_used : forall cid c t, dict_get (circuits m) cid = Some c ->
                            last_used c = Some t -> 0 < t
}.

(** One transition of the manager keeps the registry well formed, moves
    no circuit backwards and leaves the configuration alone. *)
Record step_ok (m : TorManager) (w : World) (m' : TorManager) (w' : World)
  : Prop := mk_step_ok {
  so_wf : wf m' w';
  so_le : reg_le m m';
  so_cfg : same_config m m';
  so_world : world_le w w'
}.

(** Updating a registered circuit in place. *)
Definition touch (m : TorManager) (cid : string) (c' : Circuit) : TorManager :=
  with_circuits m (dict_set (circuits m) cid c').

(** What the first loop of [_cleanup_circuits] does to one circuit. *)
Definition cleanup_rel (c c' : Circuit) : Prop :=
  id c' = id c /\ created_at c' = created_at c /\
  request_count c' = request_count c /\ last_used c' = last_used c /\
  (rank (state c) <= rank (state c'))%nat /\
  (state c' = DEGRADED -> state c = DEGRADED \/ 100 < request_count c).

(** How the timestamps of the registry may change in one transition:
    [created_at] never changes, and [last_used] is only stamped anew. *)
Definition time_rel (m m' : TorManager) : Prop :=
  forall k,
    match dict_get (circuits m) k, dict_get (circuits m') k with
    | Some c, Some c' =>
        created_at c' = created_at c /\
        (last_used c' = last_used c \/
         exists t, last_used c' = Some t /\ 0 < t)
    | None, None => True
    | _, _ => False
    end.

End Invariants.

(** "Least recent first" on [last_used], an absent value being the oldest. *)
Definition older_eq (a b : option Z) : Prop :=
  match a, b with
  | None, _ => True
  | Some _, None => False
  | Some x, Some y => x <= y
  end.

(** ** Further invariants *)

(** How a registered circuit may differ between two moments: its identity
    and its path are kept, [request_count] does not decrease, and
    [last_used], once set, stays set. *)
Definition evolve (c c' : Circuit) : Prop :=
  id c' = id c /\ created_at c' = created_at c /\
  entry_node c' = entry_node c /\ exit_node c' = exit_node c /\
  request_count c <= request_count c' /\
  (last_used c <> None -> last_used c' <> None).

Definition grow (m m' : TorManager) : Prop :=
  forall k c, dict_get (circuits m) k = Some c ->
    exists c', dict_get (circuits m') k = Some c' /\ evolve c c'.

(** The registry of [m'] lists the ids of [m] first, in the same order. *)
Definition keys_prefix (m m' : TorManager) : Prop :=
  exists l, dict_keys (circuits m') = dict_keys (circuits m) ++ l.

(** A circuit was never allocated exactly when it carries no [last_used]. *)
Definition used_ok (c : Circuit) : Prop :=
  0 <= request_count c /\ (last_used c = None <-> request_count c = 0).

(** The active list holds exactly the ids of the registered circuits that
    are not [DEAD]. *)
Definition live_listed (m : TorManager) : Prop :=
  forall cid, In cid (active_circuits m) <->
    exists c, dict_get (circuits m) cid = Some c /\ state c <> DEAD.

Record reg_inv (m : TorManager) : Prop := mk_reg_inv {
  ri_keys : NoDup (dict_keys (circuits m));
  ri_used : forall k c, dict_get (circuits m) k = Some c -> used_ok c;
  ri_live : live_listed m
}.

(** What one transition does to the registry beyond [step_ok]. *)
Definition more_ok (m m' : TorManager) : Prop :=
  grow m m' /\ keys_prefix m m' /\ (reg_inv m -> reg_inv m').

(** Every cached session goes through the configured SOCKS port and
    carries a user agent of the pool. *)
Definition sessions_ok (m : TorManager) : Prop :=
  forall cid s, dict_get (session_cache m) cid = Some s ->
    proxy_port s = socks_port m /\ In (user_agent s) user_agents.

(** The registry entries that are not [DEAD]. *)
Definition live_entry (e : string * Circuit) : bool :=
  negb (CircuitState_eqb (state (snd e)) DEAD).

(** A circuit that was never handed out. *)
Definition unused (c : Circuit) : Prop :=
  state c = FRESH /\ request_count c = 0 /\ last_used c = None.

(** ** A concrete environment for the scenarios *)

(** Circuit ids [1], [11], [111], ... *)
Fixpoint unary (n : nat) : string :=
  match n with
  | O => "1"%string
  | S k => String "1"%char (unary k)
  end.

(** A channel that always succeeds with a new id, a clock standing at
    [1000], and a generator that always draws the first user agent. *)
Definition calm : Environment :=
  {| time_time := fun _ => 1000;
     new_circuit := fun n => CtlOk (unary n) [];
     random_choice := fun _ => 0%nat |}.

(** A channel that refuses every creation. *)
Definition stormy : Environment :=
  {| time_time := fun _ => 1000;
     new_circuit := fun _ => CtlError;
     random_choice := fun _ => 0%nat |}.

(** The first three readings of the clock are [1000], the later ones
    [1400]: a pool bootstrapped at [1000] and looked at 400 s later. *)
Definition aging : Environment :=
  {| time_time := fun n => if (n <? 3)%nat then 1000 else 1400;
     new_circuit := fun n => CtlOk (unary n) [];
     random_choice := fun _ => 0%nat |}.

(** As [aging], the later readings being [1601]: 601 s after the
    bootstrap. *)
Definition leaping : Environment :=
  {| time_time := fun n => if (n <? 3)%nat then 1000 else 1601;
     new_circuit := fun n => CtlOk (unary n) [];
     random_choice := fun _ => 0%nat |}.

(** A channel that grants three circuits and refuses the later ones. *)
Definition fading : Environment :=
  {| time_time := fun _ => 1000;
     new_circuit := fun n => if (n <? 3)%nat then CtlOk (unary n) []
                             else CtlError;
     random_choice := fun _ => 0%nat |}.

(** A clock that advances by one second at every reading. *)
Definition ticking : Environment :=
  {| time_time := fun n => 1000 + Z.of_nat n;
     new_circuit := fun n => CtlOk (unary n) [];
     random_choice := fun _ => 0%nat |}.

(** A wall clock that is set back: the first reading is [2000], the later
    ones [1000]. *)
Definition rewinding : Environment :=
  {| time_time := fun n => if (n <? 1)%nat then 2000 else 1000;
     new_circuit := fun n => CtlOk (unary n) [];
     random_choice := fun _ => 0%nat |}.

Definition w_init : World := mkWorld 0 0 0.

(** The pool, started with [max_circuits = maxc] and
    [circuit_lifetime = lifetime], after the operations [ops]. *)
Definition after (E : Environment) (maxc lifetime : Z) (ops : list Op)
  : list Circuit * TorManager * World :=
  let '(m, w) := start (TorManager_init 9050 9051 maxc lifetime) w_init in
  run ops m w.

Definition handed (X : list Circuit * TorManager * World) : list Circuit :=
  fst (fst X).

Definition pool_of (X : list Circuit * TorManager * World) : TorManager :=
  snd (fst X).

Definition world_of (X : list Circuit * TorManager * World) : World :=
  snd X.

(** ** Containers *)

Lemma list_in_In (x : string) (l : list string) :
  list_in x l = true <-> In x l.
Proof.
  induction l as [|y r IH]; simpl.
  - split; [discriminate | tauto].
  - destruct (String.eqb_spec y x) as [->|Hne].
    + split; auto.
    + rewrite IH. split; [auto | intros [H|H]; [contradiction | exact H]].
Qed.

Lemma list_remove_incl (x y : string) (l : list string) :
  In y (list_remove x l) -> In y l.
Proof.
  induction l as [|z r IH]; simpl; [tauto|].
  destruct (String.eqb z x); simpl; intuition.
Qed.

Lemma list_remove_keeps (x y : string) (l : list string) :
  y <> x -> In y l -> In y (list_remove x l).
Proof.
  intros Hne. induction l as [|z r IH]; simpl; [tauto|].
  destruct (String.eqb_spec z x) as [->|Hzx]; simpl.
  - intros [H|H]; [congruence | exact H].
  - intros [H|H]; [left; exact H | right; auto].
Qed.

Lemma list_remove_NoDup (x : string) (l : list string) :
  NoDup l -> NoDup (list_remove x l).
Proof.
  induction 1 as [|z r Hz Hr IH]; simpl; [constructor|].
  destruct (String.eqb z x); [exact Hr|].
  constructor; [|exact IH].
  intros Hin. apply Hz. eapply list_remove_incl; eauto.
Qed.

Lemma list_remove_gone (x : string) (l : list string) :
  NoDup l -> ~ In x (list_remove x l).
Proof.
  induction 1 as [|z r Hz Hr IH]; simpl; [tauto|].
  destruct (String.eqb_spec z x) as [->|Hzx]; [exact Hz|].
  simpl. intros [H|H]; [congruence | auto].
Qed.

Lemma list_remove_length (x : string) (l : list string) :
  (List.length (list_remove x l) <= List.length l)%nat.
Proof.
  induction l as [|z r IH]; simpl; [lia|].
  destruct (String.eqb z x); simpl; lia.
Qed.

Lemma list_remove_sorted (R : string -> string -> Prop) (x : string)
  (l : list string) :
  StronglySorted R l -> StronglySorted R (list_remove x l).
Proof.
  induction 1 as [|z r Hr IH Hz]; simpl; [constructor|].
  destruct (String.eqb z x); [exact Hr|].
  constructor; [exact IH|].
  rewrite Forall_forall in *. intros y Hy. apply Hz.
  eapply list_remove_incl; eauto.
Qed.

Lemma dict_get_set_same {V : Type} (d : dict V) (k : string) (v : V) :
  dict_get (dict_set d k v) k = Some v.
Proof.
  induction d as [|[k' v'] r IH]; simpl.
  - now rewrite String.eqb_refl.
  - destruct (String.eqb k' k) eqn:Hk; simpl; rewrite Hk; auto.
Qed.

Lemma dict_get_set_other {V : Type} (d : dict V) (k k' : string) (v : V) :
  k <> k' -> dict_get (dict_set d k v) k' = dict_get d k'.
Proof.
  intros Hne. induction d as [|[k0 v0] r IH]; simpl.
  - destruct (String.eqb_spec k k'); [contradiction | reflexivity].
  - destruct (String.eqb_spec k0 k) as [->|Hk0]; simpl.
    + destruct (String.eqb_spec k k'); [contradiction | reflexivity].
    + destruct (String.eqb k0 k'); auto.
Qed.

Lemma dict_get_set {V : Type} (d : dict V) (k k' : string) (v : V) :
  dict_get (dict_set d k v) k' =
  if String.eqb k k' then Some v else dict_get d k'.
Proof.
  destruct (String.eqb_spec k k') as [->|Hne].
  - apply dict_get_set_same.
  - now apply dict_get_set_other.
Qed.

Lemma dict_get_keys {V : Type} (d : dict V) (k : string) :
  dict_get d k <> None <-> In k (dict_keys d).
Proof.
  induction d as [|[k' v'] r IH]; simpl.
  - split; [congruence | tauto].
  - destruct (String.eqb_spec k' k) as [->|Hne].
    + split; [auto | discriminate].
    + rewrite IH. split; [auto | intros [H|H]; [contradiction | exact H]].
Qed.

(** ** Preservation of the invariants *)

Section Properties.

Context {E : Environment}.

Lemma world_le_refl (w : World) : world_le w w.
Proof. unfold world_le; lia. Qed.

Lemma world_le_trans (w1 w2 w3 : World) :
  world_le w1 w2 -> world_le w2 w3 -> world_le w1 w3.
Proof. unfold world_le; lia. Qed.

Lemma world_le_tick (w : World) : world_le w (tick w).
Proof. unfold world_le; simpl; lia. Qed.

Lemma world_le_ctl (w : World) : world_le w (ctl_next w).
Proof. unfold world_le; simpl; lia. Qed.

Lemma reg_le_refl (m : TorManager) : reg_le m m.
Proof. intros cid c H. exists c. auto. Qed.

Lemma reg_le_trans (m1 m2 m3 : TorManager) :
  reg_le m1 m2 -> reg_le m2 m3 -> reg_le m1 m3.
Proof.
  intros H12 H23 cid c Hc.
  destruct (H12 _ _ Hc) as (c2 & Hc2 & Hid2 & Hcr2 & Hr2).
  destruct (H23 _ _ Hc2) as (c3 & Hc3 & Hid3 & Hcr3 & Hr3).
  exists c3. repeat split; try congruence. lia.
Qed.

Lemma same_config_refl (m : TorManager) : same_config m m.
Proof. unfold same_config; auto. Qed.

Lemma same_config_trans (m1 m2 m3 : TorManager) :
  same_config m1 m2 -> same_config m2 m3 -> same_config m1 m3.
Proof. unfold same_config; intuition congruence. Qed.

Lemma issued_mono (n n' : nat) (cid : string) :
  (n <= n')%nat -> issued n cid -> issued n' cid.
Proof.
  intros Hn (i & p & Hi & Hp). exists i, p. split; [lia | exact Hp].
Qed.

Lemma wf_world (m : TorManager) (w w' : World) :
  world_le w w' -> wf m w -> wf m w'.
Proof.
  intros (_ & Hc & _) [Hnd Hact Hreg].
  constructor; auto.
  intros cid c Hget. destruct (Hreg _ _ Hget) as (Hid & Hdeg & Hiss).
  repeat split; auto. eapply issued_mono; eauto.
Qed.

Lemma step_ok_refl (m : TorManager) (w : World) : wf m w -> step_ok m w m w.
Proof.
  intros H. constructor;
    auto using reg_le_refl, same_config_refl, world_le_refl.
Qed.

Lemma step_ok_world (m : TorManager) (w w' : World) :
  wf m w -> world_le w w' -> step_ok m w m w'.
Proof.
  intros H Hw. constructor;
    eauto using reg_le_refl, same_config_refl, wf_world.
Qed.

Lemma step_ok_trans (m1 m2 m3 : TorManager) (w1 w2 w3 : World) :
  step_ok m1 w1 m2 w2 -> step_ok m2 w2 m3 w3 -> step_ok m1 w1 m3 w3.
Proof.
  intros [_ L1 C1 W1] [F2 L2 C2 W2]. constructor;
    eauto using reg_le_trans, same_config_trans, world_le_trans.
Qed.

(** *** Updating a registered circuit in place *)

Lemma touch_step_ok (m : TorManager) (w : World) (cid : string)
  (c c' : Circuit) :
  wf m w ->
  dict_get (circuits m) cid = Some c ->
  id c' = id c ->
  created_at c' = created_at c ->
  (rank (state c) <= rank (state c'))%nat ->
  (state c' = DEGRADED -> 100 < request_count c') ->
  step_ok m w (touch m cid c') w.
Proof.
  intros [Hnd Hact Hreg] Hget Hid Hcr Hrk Hdeg.
  constructor.
  - constructor; simpl; auto.
    + intros k Hk. rewrite dict_get_set.
      destruct (String.eqb cid k); [discriminate | auto].
    + intros k c0. rewrite dict_get_set.
      destruct (String.eqb_spec cid k) as [->|Hne]; [|apply Hreg].
      intros [= <-]. destruct (Hreg _ _ Hget) as (Hi & _ & Hiss).
      repeat split; [congruence | exact Hdeg | exact Hiss].
  - intros k c0 Hk. simpl. rewrite dict_get_set.
    destruct (String.eqb_spec cid k) as [->|Hne].
    + exists c'. rewrite Hget in Hk. injection Hk as <-. auto.
    + exists c0. auto.
  - unfold same_config; simpl; auto.
  - apply world_le_refl.
Qed.

Lemma touch_all_alive (m : TorManager) (cid : string) (c' : Circuit) :
  all_alive m -> state c' <> DEAD -> all_alive (touch m cid c').
Proof.
  intros Hal Hs k Hk. simpl. rewrite dict_get_set.
  destruct (String.eqb cid k); [exists c'; auto | apply Hal, Hk].
Qed.

Lemma touch_get (m : TorManager) (cid : string) (c' : Circuit) :
  dict_get (circuits (touch m cid c')) cid = Some c'.
Proof. apply dict_get_set_same. Qed.

(** *** Creation *)

Lemma fresh_reply (m : TorManager) (w : World) (cid : string)
  (path : list string) :
  unique_ids -> wf m w ->
  new_circuit (ctl_calls w) = CtlOk cid path ->
  dict_get (circuits m) cid = None.
Proof.
  intros Huniq [_ _ Hreg] Hnew.
  destruct (dict_get (circuits m) cid) as [c|] eqn:Hget; [|reflexivity].
  destruct (Hreg _ _ Hget) as (_ & _ & i & p & Hi & Hp).
  specialize (Huniq _ _ _ _ _ Hp Hnew). lia.
Qed.

Lemma create_circuit_cases (m : TorManager) (w : World) (r : option string)
  (m' : TorManager) (w' : World) :
  _create_circuit m w = (r, m', w') ->
  (r = None /\ m' = m /\ w' = ctl_next w /\
   new_circuit (ctl_calls w) = CtlError) \/
  (exists cid path,
     r = Some cid /\ new_circuit (ctl_calls w) = CtlOk cid path /\
     m' = with_active
            (with_circuits m
               (dict_set (circuits m) cid
                  (mkCircuit cid FRESH (now w) 0 None
                     (hd_error path) (hd_error (rev path)))))
            (active_circuits m ++ [cid]) /\
     w' = tick (ctl_next w)).
Proof.
  unfold _create_circuit.
  destruct (new_circuit (ctl_calls w)) as [cid path|] eqn:Hnew;
    intros [= <- <- <-].
  - right. exists cid, path. auto.
  - left. auto.
Qed.

Lemma create_circuit_ok (m : TorManager) (w : World) (r : option string)
  (m' : TorManager) (w' : World) :
  unique_ids -> wf m w ->
  _create_circuit m w = (r, m', w') ->
  step_ok m w m' w' /\
  (all_alive m -> all_alive m') /\
  session_cache m' = session_cache m /\
  match r with
  | None => m' = m
  | Some cid =>
      active_circuits m' = active_circuits m ++ [cid] /\
      dict_get (circuits m) cid = None /\
      exists c, dict_get (circuits m') cid = Some c /\ state c = FRESH /\
                request_count c = 0 /\ id c = cid /\ created_at c = now w /\
                last_used c = None
  end.
Proof.
  intros Huniq Hwf Hcreate.
  destruct (create_circuit_cases _ _ _ _ _ Hcreate)
    as [(-> & -> & -> & _) | (cid & path & -> & Hnew & -> & ->)].
  - split; [apply step_ok_world; auto using world_le_ctl|].
    split; [auto|]. split; reflexivity.
  - pose proof (fresh_reply _ _ _ _ Huniq Hwf Hnew) as Hfresh.
    destruct Hwf as [Hnd Hact Hreg].
    assert (Hnot : ~ In cid (active_circuits m)).
    { intros Hin. now apply Hact in Hin. }
    split; [|split; [|split; [|split; [|split]]]]; simpl; auto.
    + constructor.
      * constructor; simpl.
        -- apply NoDup_app; [exact Hnd | repeat constructor; simpl; tauto |].
           intros x Hx [<-|[]]. contradiction.
        -- intros k Hk. rewrite dict_get_set.
           destruct (String.eqb cid k) eqn:Hk'; [discriminate|].
           apply in_app_or in Hk. destruct Hk as [Hk|[<-|[]]]; auto.
           now rewrite String.eqb_refl in Hk'.
        -- intros k c. rewrite dict_get_set.
           destruct (String.eqb_spec cid k) as [->|Hne].
           ++ intros [= <-]. split; [reflexivity|]. split; [discriminate|].
              exists (ctl_calls w), path. simpl. split; [lia | exact Hnew].
           ++ intros Hget. destruct (Hreg _ _ Hget) as (Hi & Hd & Hiss).
              split; [exact Hi|]. split; [exact Hd|].
              eapply issued_mono; [|exact Hiss]. simpl. lia.
      * intros k c Hget. simpl. rewrite dict_get_set.
        destruct (String.eqb_spec cid k) as [->|Hne]; [congruence|].
        exists c. auto.
      * unfold same_config; simpl; auto.
      * unfold world_le; simpl; lia.
    + intros Hal k Hk. simpl in *. rewrite dict_get_set.
      destruct (String.eqb_spec cid k) as [->|Hne].
      * eexists; split; [reflexivity | simpl; discriminate].
      * apply in_app_or in Hk.
        destruct Hk as [Hk|[<-|[]]]; [auto | congruence].
    + rewrite dict_get_set_same. eexists; split; [reflexivity|]. simpl. auto.
Qed.

(** *** Cleanup *)

Lemma CircuitState_eqb_eq (a b : CircuitState) :
  CircuitState_eqb a b = true <-> a = b.
Proof. destruct a, b; simpl; split; congruence. Qed.

Lemma not_dead_iff (s : CircuitState) :
  CircuitState_eqb s DEAD = false <-> s <> DEAD.
Proof. destruct s; simpl; split; congruence. Qed.

Lemma rank_dead (s : CircuitState) : (rank DEAD <= rank s)%nat -> s = DEAD.
Proof. destruct s; simpl; auto; lia. Qed.

Lemma rank_le_dead (s : CircuitState) : (rank s <= rank DEAD)%nat.
Proof. destruct s; simpl; lia. Qed.

Lemma cleanup_rel_refl (c : Circuit) : cleanup_rel c c.
Proof. unfold cleanup_rel. intuition. Qed.

Lemma cleanup_loop_world (lt : Z) (d : dict Circuit) :
  forall w d' dead w',
    cleanup_loop lt d w = (d', dead, w') ->
    world_le w w' /\ ctl_calls w' = ctl_calls w.
Proof.
  induction d as [|[k0 c0] rest IH]; intros w d' dead w' Hloop;
    simpl in Hloop.
  - injection Hloop as <- <- <-. split; [apply world_le_refl | reflexivity].
  - destruct (CircuitState_eqb (state c0) DEAD);
      [| destruct (now w - created_at c0 >? lt);
         [| destruct (request_count c0 >? 100)]];
      match type of Hloop with
      | context [cleanup_loop lt rest ?w1] =>
          destruct (cleanup_loop lt rest w1) as [[rest' dead'] w''] eqn:Hrec
      end;
      injection Hloop as <- <- <-;
      destruct (IH _ _ _ _ Hrec) as ((? & ? & ?) & ?);
      unfold world_le in *; simpl in *; split; lia.
Qed.

Lemma cleanup_loop_get (lt : Z) (d : dict Circuit) :
  forall w d' dead w',
    cleanup_loop lt d w = (d', dead, w') ->
    forall k,
      match dict_get d k with
      | None => dict_get d' k = None
      | Some c =>
          exists c', dict_get d' k = Some c' /\ cleanup_rel c c' /\
                     (state c' = DEAD -> In k dead)
      end.
Proof.
  induction d as [|[k0 c0] rest IH]; intros w d' dead w' Hloop k;
    simpl in Hloop.
  - injection Hloop as <- <- <-. reflexivity.
  - assert (Hkeep : forall rest' dead' dead'' c0',
               match dict_get rest k with
               | None => dict_get rest' k = None
               | Some c =>
                   exists c', dict_get rest' k = Some c' /\ cleanup_rel c c' /\
                              (state c' = DEAD -> In k dead')
               end ->
               incl dead' dead'' ->
               cleanup_rel c0 c0' ->
               (state c0' = DEAD -> In k0 dead'') ->
               match dict_get ((k0, c0) :: rest) k with
               | None => dict_get ((k0, c0') :: rest') k = None
               | Some c =>
                   exists c', dict_get ((k0, c0') :: rest') k = Some c' /\
                              cleanup_rel c c' /\
                              (state c' = DEAD -> In k dead'')
               end).
    { intros rest' dead' dead'' c0' Hrest Hincl Hrel Hin. simpl.
      destruct (String.eqb_spec k0 k) as [->|Hne].
      - exists c0'. auto.
      - destruct (dict_get rest k); [|exact Hrest].
        destruct Hrest as (c' & H1 & H2 & H3). exists c'. auto. }
    destruct (CircuitState_eqb (state c0) DEAD) eqn:Hdead;
      [| destruct (now w - created_at c0 >? lt) eqn:Hage;
         [| destruct (request_count c0 >? 100) eqn:Hcnt]];
      match type of Hloop with
      | context [cleanup_loop lt rest ?w1] =>
          destruct (cleanup_loop lt rest w1) as [[rest' dead'] w''] eqn:Hrec
      end;
      injection Hloop as <- <- <-;
      specialize (IH _ _ _ _ Hrec k).
    + eapply Hkeep; eauto using cleanup_rel_refl, incl_tl, incl_refl.
      simpl; auto.
    + eapply Hkeep; eauto using incl_tl, incl_refl; [|simpl; auto].
      unfold cleanup_rel; simpl. repeat split; auto using rank_le_dead.
      discriminate.
    + eapply Hkeep; eauto using incl_refl; [|simpl; discriminate].
      apply not_dead_iff in Hdead.
      unfold cleanup_rel; simpl. repeat split; auto.
      * destruct (state c0); simpl; try lia. contradiction.
      * intros _. right. lia.
    + eapply Hkeep; eauto using cleanup_rel_refl, incl_refl.
      apply not_dead_iff in Hdead. intros; contradiction.
Qed.

Lemma remove_dead_incl (dead : list string) :
  forall act x, In x (remove_dead dead act) -> In x act.
Proof.
  unfold remove_dead.
  induction dead as [|d ds IH]; intros act x; simpl; [auto|].
  intros Hin. apply IH in Hin.
  destruct (list_in d act); [eapply list_remove_incl; eauto | exact Hin].
Qed.

Lemma remove_dead_NoDup (dead : list string) :
  forall act, NoDup act -> NoDup (remove_dead dead act).
Proof.
  unfold remove_dead.
  induction dead as [|d ds IH]; intros act Hnd; simpl; [auto|].
  apply IH. destruct (list_in d act); auto using list_remove_NoDup.
Qed.

Lemma remove_dead_gone (dead : list string) :
  forall act x, NoDup act -> In x dead -> ~ In x (remove_dead dead act).
Proof.
  unfold remove_dead.
  induction dead as [|d ds IH]; intros act x Hnd; simpl; [tauto|].
  intros [->|Hin].
  - intros Hx. apply (remove_dead_incl ds) in Hx. revert Hx.
    destruct (list_in x act) eqn:Hmem.
    + now apply list_remove_gone.
    + intros Hx. apply list_in_In in Hx. congruence.
  - apply IH; [|exact Hin].
    destruct (list_in d act); auto using list_remove_NoDup.
Qed.

Lemma remove_dead_length (dead : list string) :
  forall act, (List.length (remove_dead dead act) <= List.length act)%nat.
Proof.
  unfold remove_dead.
  induction dead as [|d ds IH]; intros act; simpl; [lia|].
  destruct (list_in d act); [|apply IH].
  etransitivity; [apply IH | apply list_remove_length].
Qed.

Lemma remove_dead_sorted (R : string -> string -> Prop) (dead : list string) :
  forall act, StronglySorted R act -> StronglySorted R (remove_dead dead act).
Proof.
  unfold remove_dead.
  induction dead as [|d ds IH]; intros act Hs; simpl; [auto|].
  apply IH. destruct (list_in d act); auto using list_remove_sorted.
Qed.

Lemma remove_dead_nil (dead : list string) : remove_dead dead [] = [].
Proof.
  unfold remove_dead. induction dead as [|d ds IH]; simpl; auto.
Qed.

Lemma cleanup_ok (m : TorManager) (w : World) (m' : TorManager) (w' : World) :
  wf m w ->
  _cleanup_circuits m w = (m', w') ->
  step_ok m w m' w' /\ all_alive m' /\
  (List.length (active_circuits m') <= List.length (active_circuits m))%nat /\
  (forall x, In x (active_circuits m') -> In x (active_circuits m)) /\
  session_cache m' = session_cache m.
Proof.
  intros Hwf. unfold _cleanup_circuits.
  destruct (cleanup_loop (circuit_lifetime m) (circuits m) (tick w))
    as [[regs dead] w1] eqn:Hloop.
  intros [= <- <-].
  pose proof (cleanup_loop_get _ _ _ _ _ _ Hloop) as Hget.
  destruct (cleanup_loop_world _ _ _ _ _ _ Hloop) as (Hw & Hctl).
  assert (Hww : world_le w w1).
  { eapply world_le_trans; [apply world_le_tick | exact Hw]. }
  destruct Hwf as [Hnd Hact Hreg].
  split; [|split; [|split; [|split]]]; simpl.
  - constructor.
    + constructor; simpl.
      * now apply remove_dead_NoDup.
      * intros k Hk. apply remove_dead_incl in Hk. apply Hact in Hk.
        specialize (Hget k). destruct (dict_get (circuits m) k); [|congruence].
        destruct Hget as (c' & -> & _). discriminate.
      * intros k c' Hk. specialize (Hget k).
        destruct (dict_get (circuits m) k) as [c|] eqn:Hc; [|congruence].
        destruct Hget as (c2 & Hc2 & (Hid & _ & Hcnt & _ & _ & Hdeg) & _).
        rewrite Hk in Hc2. injection Hc2 as <-.
        destruct (Hreg _ _ Hc) as (Hi & Hd & Hiss).
        split; [congruence|]. split.
        -- intros Hs. rewrite Hcnt. destruct (Hdeg Hs); auto.
        -- eapply issued_mono; [|exact Hiss]. destruct Hww as (_ & ? & _); lia.
    + intros k c Hc. simpl. specialize (Hget k). rewrite Hc in Hget.
      destruct Hget as (c' & Hc' & (Hid & Hcr & _ & _ & Hrk & _) & _).
      exists c'. auto.
    + unfold same_config; simpl; auto.
    + exact Hww.
  - intros k Hk. simpl in *.
    assert (Hin : In k (active_circuits m)) by (eapply remove_dead_incl; eauto).
    specialize (Hget k). apply Hact in Hin.
    destruct (dict_get (circuits m) k) as [c|]; [|congruence].
    destruct Hget as (c' & Hc' & _ & Hd). exists c'. split; [exact Hc'|].
    intros Hs. exact (remove_dead_gone _ _ _ Hnd (Hd Hs) Hk).
  - apply remove_dead_length.
  - intros x. apply remove_dead_incl.
  - reflexivity.
Qed.

(** *** The health predicate *)

Lemma is_healthy_true (t : Z) (c : Circuit) :
  is_healthy t c = true <->
  state c <> DEAD /\ t - created_at c <= 600 /\ request_count c <= 100.
Proof.
  unfold is_healthy.
  destruct (CircuitState_eqb (state c) DEAD) eqn:Hd.
  - apply CircuitState_eqb_eq in Hd. split; [discriminate | tauto].
  - apply not_dead_iff in Hd.
    destruct (Z.gtb_spec (t - created_at c) 600);
      destruct (Z.gtb_spec (request_count c) 100);
      split; try discriminate; try (intros (_ & ? & ?); lia); auto.
Qed.

(** *** The scan for a healthy circuit *)

Lemma find_healthy_cases (rf : bool) (ids : list string) (m : TorManager) :
  forall w r m' w',
    find_healthy rf ids m w = (r, m', w') ->
    world_le w w' /\
    ((r = Return None /\ m' = m) \/
     (exists k, r = Raise (KeyError k) /\ m' = m /\ In k ids /\
                dict_get (circuits m) k = None) \/
     (exists cid c w1,
        In cid ids /\ dict_get (circuits m) cid = Some c /\
        state c <> DEAD /\ request_count c <= 100 /\
        (rf = true -> request_count c <= 0) /\
        world_le w w1 /\ w' = tick w1 /\
        r = Return (Some (set_state
                            (set_last_used
                               (set_request_count c (request_count c + 1))
                               (now w1)) ACTIVE)) /\
        m' = touch m cid
               (set_state
                  (set_last_used
                     (set_request_count c (request_count c + 1))
                     (now w1)) ACTIVE))).
Proof.
  induction ids as [|cid rest IH]; intros w r m' w' Hfind; simpl in Hfind.
  - injection Hfind as <- <- <-. split; [apply world_le_refl | auto].
  - assert (Hskip : forall w1, world_le w w1 ->
              find_healthy rf rest m w1 = (r, m', w') ->
              world_le w w' /\
              ((r = Return None /\ m' = m) \/
               (exists k, r = Raise (KeyError k) /\ m' = m /\
                          In k (cid :: rest) /\
                          dict_get (circuits m) k = None) \/
               (exists cid0 c w2,
                  In cid0 (cid :: rest) /\
                  dict_get (circuits m) cid0 = Some c /\
                  state c <> DEAD /\ request_count c <= 100 /\
                  (rf = true -> request_count c <= 0) /\
                  world_le w w2 /\ w' = tick w2 /\
                  r = Return (Some (set_state
                            (set_last_used
                               (set_request_count c (request_count c + 1))
                               (now w2)) ACTIVE)) /\
                  m' = touch m cid0
                         (set_state
                            (set_last_used
                               (set_request_count c (request_count c + 1))
                               (now w2)) ACTIVE)))).
    { intros w1 Hw1 Hrec. destruct (IH _ _ _ _ Hrec) as (Hw & Hcases).
      split; [eapply world_le_trans; eauto|].
      destruct Hcases as [H | [(k & H1 & H2 & H3 & H4)
                              | (c0 & c & w2 & H1 & H2 & H3 & H4 & H5 & H6 & H7)]].
      - left; exact H.
      - right; left. exists k. simpl; auto.
      - right; right. exists c0, c, w2. simpl.
        repeat split; try tauto; unfold world_le in *; lia. }
    destruct (dict_get (circuits m) cid) as [c|] eqn:Hget.
    + unfold is_healthy_io in Hfind.
      destruct (CircuitState_eqb (state c) DEAD) eqn:Hdead.
      * apply (Hskip w); auto using world_le_refl.
      * destruct (is_healthy (now w) c) eqn:Hh.
        -- destruct (rf && (request_count c >? 0)) eqn:Hrf.
           ++ apply (Hskip (tick w)); auto using world_le_tick.
           ++ injection Hfind as <- <- <-.
              apply is_healthy_true in Hh. destruct Hh as (Hs & _ & Hc).
              split.
              { eapply world_le_trans; apply world_le_tick. }
              right; right. exists cid, c, (tick w). simpl.
              repeat split; auto; try (simpl; lia).
              intros ->. simpl in Hrf. lia.
        -- apply (Hskip (tick w)); auto using world_le_tick.
    + injection Hfind as <- <- <-. split; [apply world_le_refl|].
      right; left. exists cid. simpl; auto.
Qed.

Lemma step_ok_weaken (m m' : TorManager) (w w1 w' : World) :
  step_ok m w m' w1 -> world_le w1 w' -> step_ok m w m' w'.
Proof.
  intros [F L C W] Hw. constructor;
    eauto using wf_world, world_le_trans.
Qed.

Lemma find_healthy_ok (rf : bool) (m : TorManager) (w : World)
  (r : outcome (option Circuit)) (m' : TorManager) (w' : World) :
  wf m w ->
  find_healthy rf (active_circuits m) m w = (r, m', w') ->
  step_ok m w m' w' /\
  active_circuits m' = active_circuits m /\
  session_cache m' = session_cache m /\
  (all_alive m -> all_alive m') /\
  match r with
  | Return None => m' = m
  | Return (Some c) =>
      state c = ACTIVE /\ dict_get (circuits m') (id c) = Some c /\
      In (id c) (active_circuits m')
  | Raise _ => False
  end.
Proof.
  intros Hwf Hfind.
  destruct (find_healthy_cases _ _ _ _ _ _ _ Hfind) as (Hw & Hcases).
  destruct Hcases as [(-> & ->) | [(k & -> & -> & Hin & Hnone)
    | (cid & c & w1 & Hin & Hget & Hs & Hc & _ & Hw1 & -> & -> & ->)]].
  - split; [apply step_ok_world; auto|]. auto.
  - exfalso. destruct Hwf as [_ Hact _]. now apply Hact in Hin.
  - pose proof (wf_reg _ _ Hwf _ _ Hget) as (Hid & Hdeg & _).
    split; [|split; [|split; [|split]]]; auto.
    + eapply step_ok_weaken; [|exact Hw].
      eapply touch_step_ok; eauto; simpl; try discriminate.
      destruct (state c); simpl; try lia; [|contradiction].
      specialize (Hdeg eq_refl). lia.
    + intros Hal. apply touch_all_alive; auto. simpl. discriminate.
    + simpl. split; [reflexivity|]. rewrite Hid.
      split; [apply dict_get_set_same | exact Hin].
Qed.

(** *** Creating on demand *)

Lemma create_new_ok (m : TorManager) (w : World)
  (r : outcome (option Circuit)) (m' : TorManager) (w' : World) :
  unique_ids -> wf m w -> size_ok m ->
  create_new m w = (r, m', w') ->
  step_ok m w m' w' /\ size_ok m' /\
  session_cache m' = session_cache m /\
  (all_alive m -> all_alive m') /\
  match r with
  | Return None => True
  | Return (Some c) =>
      state c = FRESH /\ request_count c = 1 /\
      dict_get (circuits m') (id c) = Some c /\
      In (id c) (active_circuits m')
  | Raise _ => False
  end.
Proof.
  intros Huniq Hwf Hsize. unfold create_new.
  destruct (Z.ltb_spec (Z.of_nat (List.length (active_circuits m)))
                       (max_circuits m)) as [Hlt|Hge].
  2:{ intros [= <- <- <-]. split; [apply step_ok_refl; auto|]. auto. }
  destruct (_create_circuit m w) as [[r1 m1] w1] eqn:Hcreate.
  destruct (create_circuit_ok _ _ _ _ _ Huniq Hwf Hcreate)
    as (Hstep & Halive & Hsess & Hres).
  assert (Hsize1 : size_ok m1).
  { unfold size_ok in *. destruct Hstep as [_ _ (_ & _ & Hmax & _) _].
    rewrite Hmax. destruct r1 as [cid|].
    - destruct Hres as (-> & _). rewrite length_app. simpl. lia.
    - subst m1. lia. }
  destruct r1 as [cid|].
  2:{ intros [= <- <- <-]. auto. }
  destruct Hres as (Hact & Hfresh & c & Hget & Hst & Hcnt & Hid & _).
  destruct (truthy cid).
  2:{ intros [= <- <- <-]. auto. }
  rewrite Hget. intros [= <- <- <-].
  split; [|split; [|split; [|split]]]; auto.
  - eapply step_ok_trans; [exact Hstep|].
    eapply step_ok_weaken; [|apply world_le_tick].
    eapply touch_step_ok; eauto using so_wf; simpl; auto.
    rewrite Hst. discriminate.
  - intros Hal. apply touch_all_alive; auto. simpl. rewrite Hst. discriminate.
  - simpl. rewrite Hid. split; [exact Hst|]. split; [reflexivity|].
    split; [apply dict_get_set_same|].
    rewrite Hact. apply in_or_app. right. simpl. auto.
Qed.

(** *** Recycling *)

Lemma min_from_In (key : string -> option Z) (l : list string) :
  forall best kbest r,
    min_from key best kbest l = Return r -> In r (best :: l).
Proof.
  induction l as [|x l IH]; intros best kbest r; simpl.
  - intros [= <-]. auto.
  - destruct (key x) as [kx|]; [|discriminate].
    destruct (kx <? kbest); intros H; apply IH in H; simpl in *; tauto.
Qed.

Lemma min_from_raise (key : string -> option Z) (l : list string) :
  forall best kbest e,
    min_from key best kbest l = Raise e ->
    exists x, In x l /\ key x = None.
Proof.
  induction l as [|x l IH]; intros best kbest e; simpl.
  - discriminate.
  - destruct (key x) as [kx|] eqn:Hk.
    + destruct (kx <? kbest); intros H; apply IH in H;
        destruct H as (y & ? & ?); exists y; auto.
    + intros _. exists x. auto.
Qed.

Lemma recycle_ok (m : TorManager) (w : World)
  (r : outcome (option Circuit)) (m' : TorManager) (w' : World) :
  wf m w ->
  recycle_oldest m w = (r, m', w') ->
  step_ok m w m' w' /\
  active_circuits m' = active_circuits m /\
  session_cache m' = session_cache m /\
  (all_alive m ->
   all_alive m' /\
   match r with
   | Return (Some c) => state c <> DEAD
   | _ => True
   end) /\
  match r with
  | Return None => active_circuits m = [] /\ m' = m
  | Return (Some c) =>
      dict_get (circuits m') (id c) = Some c /\ In (id c) (active_circuits m')
  | Raise _ => False
  end.
Proof.
  intros Hwf. unfold recycle_oldest.
  destruct (active_circuits m) as [|first rest] eqn:Hact.
  { intros [= <- <- <-]. split; [apply step_ok_refl; auto|]. auto. }
  assert (Hkey : forall x, In x (first :: rest) -> last_used_key m x <> None).
  { intros x Hx. unfold last_used_key. rewrite <- Hact in Hx.
    apply (wf_active _ _ Hwf) in Hx.
    destruct (dict_get (circuits m) x); [discriminate | congruence]. }
  destruct (last_used_key m first) as [k0|] eqn:Hk0.
  2:{ exfalso. apply (Hkey first); simpl; auto. }
  destruct (min_from (last_used_key m) first k0 rest) as [oldest|e] eqn:Hmin.
  2:{ exfalso. apply min_from_raise in Hmin. destruct Hmin as (x & Hx & Hn).
      apply (Hkey x); simpl; auto. }
  apply min_from_In in Hmin.
  pose proof (Hkey _ Hmin) as Hold. unfold last_used_key in Hold.
  destruct (dict_get (circuits m) oldest) as [c|] eqn:Hget; [|congruence].
  intros [= <- <- <-].
  pose proof (wf_reg _ _ Hwf _ _ Hget) as (Hid & Hdeg & _).
  split; [|split; [|split; [|split]]]; auto.
  - eapply step_ok_weaken; [|apply world_le_tick].
    eapply touch_step_ok; eauto; simpl; auto.
    intros Hs. specialize (Hdeg Hs). lia.
  - intros Hal.
    assert (Hs : state c <> DEAD).
    { unfold all_alive in Hal. rewrite Hact in Hal.
      destruct (Hal _ Hmin) as (c0 & Hc0 & Hs). congruence. }
    split; [|exact Hs]. apply touch_all_alive; auto.
  - simpl. rewrite Hid. split; [apply dict_get_set_same|].
    rewrite Hact. exact Hmin.
Qed.

(** *** Acquisition *)

Lemma size_ok_shrink (m m' : TorManager) :
  same_config m m' ->
  (List.length (active_circuits m') <= List.length (active_circuits m))%nat ->
  size_ok m -> size_ok m'.
Proof.
  unfold size_ok. intros (_ & _ & -> & _) Hlen Hs. lia.
Qed.

Lemma get_circuit_ok (rf : bool) (m : TorManager) (w : World)
  (r : outcome (option Circuit)) (m' : TorManager) (w' : World) :
  unique_ids -> wf m w -> size_ok m ->
  get_circuit rf m w = (r, m', w') ->
  step_ok m w m' w' /\ size_ok m' /\
  session_cache m' = session_cache m /\ all_alive m' /\
  match r with
  | Return (Some c) =>
      state c <> DEAD /\ dict_get (circuits m') (id c) = Some c /\
      In (id c) (active_circuits m')
  | Return None => active_circuits m' = []
  | Raise _ => False
  end.
Proof.
  intros Huniq Hwf Hsize. unfold get_circuit.
  destruct (_cleanup_circuits m w) as [m1 w1] eqn:Hclean.
  destruct (cleanup_ok _ _ _ _ Hwf Hclean)
    as (Hstep1 & Halive1 & Hlen1 & _ & Hsess1).
  assert (Hsize1 : size_ok m1)
    by (eapply size_ok_shrink; eauto using so_cfg).
  destruct (find_healthy rf (active_circuits m1) m1 w1)
    as [[r2 m2] w2] eqn:Hfind.
  destruct (find_healthy_ok _ _ _ _ _ _ (so_wf _ _ _ _ Hstep1) Hfind)
    as (Hstep2 & Hact2 & Hsess2 & Halive2 & Hres2).
  assert (Hsize2 : size_ok m2).
  { eapply size_ok_shrink; [eapply so_cfg; eauto | | exact Hsize1].
    rewrite Hact2. lia. }
  pose proof (step_ok_trans _ _ _ _ _ _ Hstep1 Hstep2) as Hstep12.
  destruct r2 as [[c|]|e]; [| |contradiction].
  { intros [= <- <- <-]. destruct Hres2 as (Hs & Hg & Hin).
    split; [exact Hstep12|]. split; [exact Hsize2|].
    split; [congruence|]. split; [auto|].
    split; [rewrite Hs; discriminate | auto]. }
  destruct (create_new m2 w2) as [[r3 m3] w3] eqn:Hnew.
  destruct (create_new_ok _ _ _ _ _ Huniq (so_wf _ _ _ _ Hstep2) Hsize2 Hnew)
    as (Hstep3 & Hsize3 & Hsess3 & Halive3 & Hres3).
  pose proof (step_ok_trans _ _ _ _ _ _ Hstep12 Hstep3) as Hstep123.
  destruct r3 as [[c|]|e]; [| |contradiction].
  { intros [= <- <- <-]. destruct Hres3 as (Hs & _ & Hg & Hin).
    split; [exact Hstep123|]. split; [exact Hsize3|].
    split; [congruence|]. split; [auto|].
    split; [rewrite Hs; discriminate | auto]. }
  intros Hrec.
  destruct (recycle_ok _ _ _ _ _ (so_wf _ _ _ _ Hstep3) Hrec)
    as (Hstep4 & Hact4 & Hsess4 & Halive4 & Hres4).
  destruct (Halive4 (Halive3 (Halive2 Halive1))) as (Hal & Hnd).
  split; [eapply step_ok_trans; eauto|].
  split.
  { eapply size_ok_shrink; [eapply so_cfg; eauto | | exact Hsize3].
    rewrite Hact4. lia. }
  split; [congruence|]. split; [exact Hal|].
  destruct r as [[c|]|e]; auto.
  destruct Hres4 as (Hnil & ->). exact Hnil.
Qed.

(** *** Marking dead and rotating *)

Lemma mark_dead_ok (cid : string) (m : TorManager) (w : World) :
  wf m w ->
  step_ok m w (mark_circuit_dead cid m) w /\
  session_cache (mark_circuit_dead cid m) = session_cache m /\
  (forall x, In x (active_circuits (mark_circuit_dead cid m)) ->
             In x (active_circuits m) /\ x <> cid) /\
  (forall x, In x (active_circuits m) -> x <> cid ->
             In x (active_circuits (mark_circuit_dead cid m))) /\
  (List.length (active_circuits (mark_circuit_dead cid m))
   <= List.length (active_circuits m))%nat /\
  (forall c, dict_get (circuits m) cid = Some c ->
             dict_get (circuits (mark_circuit_dead cid m)) cid
             = Some (set_state c DEAD)) /\
  (dict_get (circuits m) cid = None -> mark_circuit_dead cid m = m).
Proof.
  intros Hwf. unfold mark_circuit_dead.
  destruct (dict_get (circuits m) cid) as [c|] eqn:Hget.
  2:{ split; [apply step_ok_refl; auto|]. repeat split; auto;
        [|discriminate].
      intros ->. apply (wf_active _ _ Hwf) in H. congruence. }
  assert (Hstep : step_ok m w (touch m cid (set_state c DEAD)) w).
  { eapply touch_step_ok; eauto; simpl; auto using rank_le_dead.
    discriminate. }
  fold (touch m cid (set_state c DEAD)).
  destruct (list_in cid (active_circuits (touch m cid (set_state c DEAD))))
    eqn:Hmem; simpl in Hmem.
  - split; [|split; [|split; [|split; [|split; [|split]]]]]; simpl; auto.
    + destruct Hstep as [[Hnd Hact Hreg] Hle Hcfg Hw].
      constructor; auto. constructor; simpl in *; auto.
      * now apply list_remove_NoDup.
      * intros k Hk. apply Hact. eapply list_remove_incl; eauto.
    + intros x Hx. split; [eapply list_remove_incl; eauto|].
      intros ->. revert Hx. apply list_remove_gone. apply (wf_nodup _ _ Hwf).
    + intros x Hx Hne. now apply list_remove_keeps.
    + apply list_remove_length.
    + intros c0 [= <-]. apply dict_get_set_same.
    + discriminate.
  - split; [exact Hstep|]. simpl.
    split; [|split; [|split; [|split; [|split]]]]; auto.
    + intros x Hx. split; [exact Hx|]. intros ->.
      apply list_in_In in Hx. congruence.
    + intros c0 [= <-]. apply dict_get_set_same.
    + discriminate.
Qed.

Lemma mark_all_ok (ks : list string) :
  forall m w,
    wf m w ->
    let m' := fold_left (fun acc cid => mark_circuit_dead cid acc) ks m in
    step_ok m w m' w /\
    session_cache m' = session_cache m /\
    (forall x, In x (active_circuits m') ->
               In x (active_circuits m) /\ ~ In x ks) /\
    (forall k c', In k ks -> dict_get (circuits m') k = Some c' ->
                  state c' = DEAD).
Proof.
  induction ks as [|k ks IH]; intros m w Hwf; simpl.
  - split; [apply step_ok_refl; auto|]. repeat split; auto. tauto.
  - destruct (mark_dead_ok k m w Hwf)
      as (Hstep & Hsess & Hsub & _ & _ & Hdead & Hnone).
    destruct (IH _ _ (so_wf _ _ _ _ Hstep)) as (Hstep' & Hsess' & Hsub' & Hd').
    split; [eapply step_ok_trans; eauto|].
    split; [rewrite Hsess'; exact Hsess|]. split.
    + intros x Hx. destruct (Hsub' _ Hx) as (Hx1 & Hx2).
      destruct (Hsub _ Hx1) as (Hx3 & Hx4). split; [exact Hx3|].
      intros [->|Hin]; auto.
    + intros k0 c' [<-|Hin] Hget; [|eauto].
      destruct (dict_get (circuits m) k) as [c|] eqn:Hk.
      * specialize (Hdead _ eq_refl).
        destruct (so_le _ _ _ _ Hstep' _ _ Hdead) as (c2 & Hc2 & _ & _ & Hrk).
        rewrite Hget in Hc2. injection Hc2 as <-.
        now apply rank_dead.
      * exfalso. rewrite (Hnone eq_refl) in Hget.
        assert (Hnone' :
          dict_get (circuits (fold_left
            (fun acc cid => mark_circuit_dead cid acc) ks m)) k <> None)
          by (rewrite Hget; discriminate).
        clear - Hnone' Hk.
        revert m Hk Hnone'. induction ks as [|k1 ks IH']; intros m Hk; simpl.
        -- congruence.
        -- apply IH'. unfold mark_circuit_dead.
           destruct (dict_get (circuits m) k1) as [c1|] eqn:Hk1; [|exact Hk].
           destruct (list_in k1 _); simpl; rewrite dict_get_set;
             (destruct (String.eqb_spec k1 k) as [->|Hne]; [congruence|exact Hk]).
Qed.

(** *** Bootstrapping the initial circuits *)

Lemma create_circuit_ctl (m : TorManager) (w : World) (r : option string)
  (m' : TorManager) (w' : World) :
  _create_circuit m w = (r, m', w') -> ctl_calls w' = S (ctl_calls w).
Proof.
  intros H. destruct (create_circuit_cases _ _ _ _ _ H)
    as [(_ & _ & -> & _) | (cid & path & _ & _ & _ & ->)]; reflexivity.
Qed.

Lemma create_many_ok (n : nat) :
  forall m w m' w',
    unique_ids -> wf m w ->
    create_many n m w = (m', w') ->
    step_ok m w m' w' /\
    session_cache m' = session_cache m /\
    (all_alive m -> all_alive m') /\
    (List.length (active_circuits m')
     <= List.length (active_circuits m) + n)%nat /\
    ((forall i, (i < n)%nat ->
        exists cid path, new_circuit (ctl_calls w + i) = CtlOk cid path) ->
     List.length (active_circuits m')
     = (List.length (active_circuits m) + n)%nat).
Proof.
  induction n as [|n IH]; intros m w m' w' Huniq Hwf; simpl.
  - intros [= <- <-]. split; [apply step_ok_refl; auto|].
    repeat split; auto; lia.
  - destruct (_create_circuit m w) as [[r m1] w1] eqn:Hcreate.
    intros Hmany.
    destruct (create_circuit_ok _ _ _ _ _ Huniq Hwf Hcreate)
      as (Hstep1 & Hal1 & Hsess1 & Hres1).
    pose proof (create_circuit_ctl _ _ _ _ _ Hcreate) as Hctl.
    destruct (IH _ _ _ _ Huniq (so_wf _ _ _ _ Hstep1) Hmany)
      as (Hstep2 & Hsess2 & Hal2 & Hlen2 & Hall2).
    assert (Hlen1 : (List.length (active_circuits m1)
                     <= S (List.length (active_circuits m)))%nat).
    { destruct r as [cid|].
      - destruct Hres1 as (-> & _). rewrite length_app. simpl. lia.
      - subst m1. lia. }
    split; [eapply step_ok_trans; eauto|].
    split; [rewrite Hsess2; exact Hsess1|].
    split; [auto|]. split; [lia|].
    intros Hsucc.
    rewrite Hall2.
    + destruct (Hsucc 0%nat ltac:(lia)) as (cid & path & Hnew).
      rewrite Nat.add_0_r in Hnew.
      destruct (create_circuit_cases _ _ _ _ _ Hcreate)
        as [(_ & _ & _ & Herr) | (cid' & path' & -> & _ & _ & _)];
        [congruence|].
      destruct Hres1 as (-> & _). rewrite length_app. simpl. lia.
    + intros i Hi. destruct (Hsucc (S i) ltac:(lia)) as (cid & path & Hnew).
      exists cid, path. rewrite Hctl.
      replace (S (ctl_calls w) + i)%nat with (ctl_calls w + S i)%nat by lia.
      exact Hnew.
Qed.

Lemma initial_size (maxc : Z) (n : nat) :
  (n <= 0 + Z.to_nat (Z.min 3 maxc))%nat ->
  Z.of_nat n <= Z.max 0 maxc.
Proof. lia. Qed.

Lemma start_ok (socks control maxc lifetime : Z) (w : World)
  (m' : TorManager) (w' : World) :
  unique_ids ->
  start (TorManager_init socks control maxc lifetime) w = (m', w') ->
  wf m' w' /\ size_ok m' /\ all_alive m' /\ max_circuits m' = maxc.
Proof.
  intros Huniq Hstart. unfold start, _initialize_circuits in Hstart.
  assert (Hwf0 : wf (TorManager_init socks control maxc lifetime) w).
  { constructor; simpl; [constructor | tauto | discriminate]. }
  destruct (create_many_ok _ _ _ _ _ Huniq Hwf0 Hstart)
    as (Hstep & _ & Hal & Hlen & _).
  destruct Hstep as [Hwf _ (_ & _ & Hmax & _) _]. simpl in *.
  split; [exact Hwf|]. split.
  - unfold size_ok. rewrite Hmax. now apply initial_size.
  - split; [|exact Hmax]. apply Hal. intros cid [].
Qed.

Lemma rotate_ok (m : TorManager) (w : World) (m' : TorManager) (w' : World) :
  unique_ids -> wf m w ->
  rotate_all_circuits m w = (m', w') ->
  step_ok m w m' w' /\ size_ok m' /\ session_cache m' = [] /\
  (forall cid c, dict_get (circuits m) cid = Some c ->
     exists c', dict_get (circuits m') cid = Some c' /\ state c' = DEAD) /\
  ((forall i, (i < Z.to_nat (Z.min 3 (max_circuits m)))%nat ->
      exists cid path, new_circuit (ctl_calls w + i) = CtlOk cid path) ->
   List.length (active_circuits m') = Z.to_nat (Z.min 3 (max_circuits m))).
Proof.
  intros Huniq Hwf. unfold rotate_all_circuits, _initialize_circuits.
  destruct (mark_all_ok (dict_keys (circuits m)) m w Hwf)
    as (Hstep1 & Hsess1 & Hsub1 & Hdead1).
  set (m1 := fold_left (fun acc cid => mark_circuit_dead cid acc)
                       (dict_keys (circuits m)) m) in *.
  assert (Hnil : active_circuits m1 = []).
  { destruct (active_circuits m1) as [|x l] eqn:Hact; [reflexivity|].
    destruct (Hsub1 x) as (Hx & Hnk); [simpl; auto|].
    exfalso. apply Hnk. apply dict_get_keys. now apply (wf_active _ _ Hwf). }
  assert (Hstep1' : step_ok m w (with_sessions m1 []) w).
  { destruct Hstep1 as [[Hnd Ha Hr] Hle Hcfg Hw].
    constructor; auto. constructor; auto. }
  simpl. intros Hmany.
  change (max_circuits m1) with (max_circuits (with_sessions m1 [])) in Hmany.
  assert (Hmax : max_circuits (with_sessions m1 []) = max_circuits m).
  { apply Hstep1'. }
  rewrite Hmax in Hmany.
  destruct (create_many_ok _ _ _ _ _ Huniq (so_wf _ _ _ _ Hstep1') Hmany)
    as (Hstep2 & Hsess2 & _ & Hlen2 & Hall2).
  simpl in Hlen2, Hall2, Hsess2. rewrite Hnil in Hlen2, Hall2.
  pose proof (step_ok_trans _ _ _ _ _ _ Hstep1' Hstep2) as Hstep.
  split; [exact Hstep|]. split.
  - unfold size_ok. destruct Hstep as [_ _ (_ & _ & -> & _) _].
    now apply initial_size.
  - split; [exact Hsess2|]. split; [|exact Hall2].
    intros cid c Hget.
    destruct (so_le _ _ _ _ Hstep1 _ _ Hget) as (c1 & Hc1 & _).
    assert (Hd1 : state c1 = DEAD).
    { apply (Hdead1 cid); [|exact Hc1]. apply dict_get_keys. congruence. }
    destruct (so_le _ _ _ _ Hstep2 cid c1 Hc1) as (c2 & Hc2 & _ & _ & Hrk).
    exists c2. split; [exact Hc2|]. rewrite Hd1 in Hrk. now apply rank_dead.
Qed.

(** *** Session binding *)

Lemma bind_session_ok (cid : string) (m : TorManager) (w : World)
  (s : Session) (m' : TorManager) (w' : World) :
  bind_session cid m w = (s, m', w') ->
  circuits m' = circuits m /\ active_circuits m' = active_circuits m /\
  same_config m m' /\ world_le w w' /\
  dict_get (session_cache m') cid = Some s.
Proof.
  unfold bind_session.
  destruct (dict_get (session_cache m) cid) as [s0|] eqn:Hs.
  - intros [= <- <- <-].
    repeat split; auto using world_le_refl; try apply same_config_refl.
  - unfold _get_random_user_agent. intros [= <- <- <-]. simpl.
    repeat split; auto; try (unfold world_le; simpl; lia).
    apply dict_get_set_same.
Qed.

Lemma step_ok_same_registry (m m' : TorManager) (w w' : World) :
  wf m w ->
  circuits m' = circuits m -> active_circuits m' = active_circuits m ->
  same_config m m' -> world_le w w' ->
  step_ok m w m' w'.
Proof.
  intros Hwf Hc Ha Hcfg Hw.
  apply (wf_world _ _ _ Hw) in Hwf. destruct Hwf as [Hnd Hact Hreg].
  constructor; auto.
  - constructor; rewrite ?Hc, ?Ha; auto.
  - intros k c Hk. exists c. rewrite Hc. auto.
Qed.

(** *** Every operation keeps the pool well formed *)

Lemma get_http_session_ok (circuit : option Circuit) (m : TorManager)
  (w : World) (r : outcome Session) (acq : option Circuit)
  (m' : TorManager) (w' : World) :
  unique_ids -> wf m w -> size_ok m ->
  get_http_session circuit m w = (r, acq, m', w') ->
  step_ok m w m' w' /\ size_ok m' /\
  match acq with
  | Some c => state c <> DEAD /\ dict_get (circuits m') (id c) = Some c
  | None => True
  end.
Proof.
  intros Huniq Hwf Hsize. unfold get_http_session.
  destruct circuit as [c|].
  - destruct (bind_session (id c) m w) as [[s m1] w1] eqn:Hbind.
    intros [= <- <- <- <-].
    destruct (bind_session_ok _ _ _ _ _ _ Hbind) as (Hc & Ha & Hcfg & Hw & _).
    split; [now apply step_ok_same_registry|]. split; [|exact I].
    eapply size_ok_shrink; eauto. rewrite Ha. lia.
  - destruct (get_circuit false m w) as [[r1 m1] w1] eqn:Hget.
    destruct (get_circuit_ok _ _ _ _ _ _ Huniq Hwf Hsize Hget)
      as (Hstep & Hsize1 & _ & _ & Hres).
    destruct r1 as [[c|]|e]; [| |contradiction].
    + destruct (bind_session (id c) m1 w1) as [[s m2] w2] eqn:Hbind.
      intros [= <- <- <- <-].
      destruct (bind_session_ok _ _ _ _ _ _ Hbind) as (Hc & Ha & Hcfg & Hw & _).
      split.
      { eapply step_ok_trans; [exact Hstep|].
        apply step_ok_same_registry; eauto using so_wf. }
      split.
      { eapply size_ok_shrink; eauto. rewrite Ha. lia. }
      rewrite Hc. destruct Hres as (Hs & Hg & _). auto.
    + intros [= <- <- <- <-]. auto.
Qed.

Lemma step_inv (o : Op) (m : TorManager) (w : World) (out : list Circuit)
  (m' : TorManager) (w' : World) :
  unique_ids -> wf m w -> size_ok m ->
  step o m w = (out, m', w') ->
  step_ok m w m' w' /\ size_ok m' /\
  forall c, In c out ->
    state c <> DEAD /\ dict_get (circuits m') (id c) = Some c.
Proof.
  intros Huniq Hwf Hsize. destruct o as [rf| |cid| |circuit]; simpl.
  - destruct (get_circuit rf m w) as [[r m1] w1] eqn:Hget.
    destruct (get_circuit_ok _ _ _ _ _ _ Huniq Hwf Hsize Hget)
      as (Hstep & Hsize1 & _ & _ & Hres).
    destruct r as [[c|]|e]; intros [= <- <- <-];
      (split; [exact Hstep|]); (split; [exact Hsize1|]);
      simpl; try tauto.
    intros c0 [<-|[]]. tauto.
  - destruct (_cleanup_circuits m w) as [m1 w1] eqn:Hclean.
    intros [= <- <- <-].
    destruct (cleanup_ok _ _ _ _ Hwf Hclean) as (Hstep & _ & Hlen & _).
    split; [exact Hstep|]. split; [|simpl; tauto].
    eapply size_ok_shrink; eauto using so_cfg.
  - intros [= <- <- <-].
    destruct (mark_dead_ok cid m w Hwf) as (Hstep & _ & _ & _ & Hlen & _).
    split; [exact Hstep|]. split; [|simpl; tauto].
    eapply size_ok_shrink; eauto using so_cfg.
  - destruct (rotate_all_circuits m w) as [m1 w1] eqn:Hrot.
    intros [= <- <- <-].
    destruct (rotate_ok _ _ _ _ Huniq Hwf Hrot) as (Hstep & Hsize1 & _).
    split; [exact Hstep|]. split; [exact Hsize1 | simpl; tauto].
  - destruct (get_http_session circuit m w) as [[[r acq] m1] w1] eqn:Hsess.
    destruct (get_http_session_ok _ _ _ _ _ _ _ Huniq Hwf Hsize Hsess)
      as (Hstep & Hsize1 & Hacq).
    destruct acq as [c|]; intros [= <- <- <-];
      (split; [exact Hstep|]); (split; [exact Hsize1|]);
      simpl; try tauto.
    intros c0 [<-|[]]. exact Hacq.
Qed.

Lemma reachable_inv (m : TorManager) (w : World) :
  unique_ids -> reachable m w -> wf m w /\ size_ok m.
Proof.
  intros Huniq. induction 1 as [socks control maxc lifetime w m' w' Hstart
                               | o m w out m' w' Hreach [Hwf Hsize] Hstep].
  - destruct (start_ok _ _ _ _ _ _ _ Huniq Hstart) as (Hwf & Hsize & _).
    auto.
  - destruct (step_inv _ _ _ _ _ _ Huniq Hwf Hsize Hstep) as (Hs & Hsz & _).
    split; [apply Hs | exact Hsz].
Qed.

Lemma run_inv (ops : list Op) :
  forall m w outs m' w',
    unique_ids -> wf m w -> size_ok m ->
    run ops m w = (outs, m', w') ->
    step_ok m w m' w' /\ size_ok m' /\
    forall cid c, dict_get (circuits m) cid = Some c -> state c = DEAD ->
      forall r, In r outs -> id r <> cid.
Proof.
  induction ops as [|o ops IH]; intros m w outs m' w' Huniq Hwf Hsize; simpl.
  - intros [= <- <- <-]. split; [apply step_ok_refl; auto|].
    split; [exact Hsize|]. intros ? ? ? ? ? [].
  - destruct (step o m w) as [[out1 m1] w1] eqn:Hstep.
    destruct (run ops m1 w1) as [[out2 m2] w2] eqn:Hrun.
    intros [= <- <- <-].
    destruct (step_inv _ _ _ _ _ _ Huniq Hwf Hsize Hstep)
      as (Hs1 & Hsz1 & Hout1).
    destruct (IH _ _ _ _ _ Huniq (so_wf _ _ _ _ Hs1) Hsz1 Hrun)
      as (Hs2 & Hsz2 & Hout2).
    split; [eapply step_ok_trans; eauto|]. split; [exact Hsz2|].
    intros cid c Hget Hdead r Hin.
    destruct (so_le _ _ _ _ Hs1 _ _ Hget) as (c1 & Hc1 & _ & _ & Hrk).
    rewrite Hdead in Hrk. apply rank_dead in Hrk.
    apply in_app_or in Hin. destruct Hin as [Hin|Hin].
    + destruct (Hout1 _ Hin) as (Halive & Hreg). intros Heq.
      rewrite Heq in Hreg. congruence.
    + eapply Hout2; eauto.
Qed.

(** ** Acquisition never hands out a dead circuit *)

(** C1.  In every reachable pool state, a circuit returned by
    [get_circuit] — by the healthy scan, by creation or by recycling — is
    not [DEAD]; it is the registry entry stored under its id. *)
Theorem get_circuit_never_dead (rf : bool) (m : TorManager) (w : World)
  (c : Circuit) (m' : TorManager) (w' : World) :
  unique_ids -> reachable m w ->
  get_circuit rf m w = (Return (Some c), m', w') ->
  state c <> DEAD /\ dict_get (circuits m') (id c) = Some c.
Proof.
  intros Huniq Hreach Hget.
  destruct (reachable_inv _ _ Huniq Hreach) as (Hwf & Hsize).
  destruct (get_circuit_ok _ _ _ _ _ _ Huniq Hwf Hsize Hget)
    as (_ & _ & _ & _ & Hs & Hg & _).
  auto.
Qed.

(** On a reachable pool [get_circuit] raises nothing. *)
Lemma get_circuit_no_raise (rf : bool) (m : TorManager) (w : World)
  (e : exn) (m' : TorManager) (w' : World) :
  unique_ids -> reachable m w ->
  get_circuit rf m w <> (Raise e, m', w').
Proof.
  intros Huniq Hreach Hget.
  destruct (reachable_inv _ _ Huniq Hreach) as (Hwf & Hsize).
  now destruct (get_circuit_ok _ _ _ _ _ _ Huniq Hwf Hsize Hget)
    as (_ & _ & _ & _ & Hfalse).
Qed.

(** ** States only move forward, and [DEAD] is terminal *)

(** C3.  Along every sequence of operations from a reachable state, a
    registered circuit stays registered and its state does not move back
    on [FRESH -> ACTIVE -> DEGRADED -> DEAD]; a circuit that is [DEAD]
    stays [DEAD] and is never handed out again. *)
Theorem state_forward_dead_terminal (ops : list Op) (m : TorManager)
  (w : World) (outs : list Circuit) (m' : TorManager) (w' : World)
  (cid : string) (c : Circuit) :
  unique_ids -> reachable m w ->
  run ops m w = (outs, m', w') ->
  dict_get (circuits m) cid = Some c ->
  exists c',
    dict_get (circuits m') cid = Some c' /\
    (rank (state c) <= rank (state c'))%nat /\
    (state c = DEAD ->
     state c' = DEAD /\ forall r, In r outs -> id r <> cid).
Proof.
  intros Huniq Hreach Hrun Hget.
  destruct (reachable_inv _ _ Huniq Hreach) as (Hwf & Hsize).
  destruct (run_inv _ _ _ _ _ _ Huniq Hwf Hsize Hrun) as (Hstep & _ & Hout).
  destruct (so_le _ _ _ _ Hstep _ _ Hget) as (c' & Hc' & _ & _ & Hrk).
  exists c'. split; [exact Hc'|]. split; [exact Hrk|].
  intros Hdead. split; [|eauto].
  rewrite Hdead in Hrk. now apply rank_dead.
Qed.

(** ** The size of the active list *)

(** C4, as the code has it.  In every reachable pool state the active list
    holds at most [max(0, max_circuits)] ids: at most [max_circuits]
    whenever that bound is not negative. *)
Theorem active_list_bounded (m : TorManager) (w : World) :
  unique_ids -> reachable m w ->
  Z.of_nat (List.length (active_circuits m)) <= Z.max 0 (max_circuits m) /\
  (0 <= max_circuits m ->
   Z.of_nat (List.length (active_circuits m)) <= max_circuits m).
Proof.
  intros Huniq Hreach.
  destruct (reachable_inv _ _ Huniq Hreach) as (_ & Hsize).
  unfold size_ok in Hsize. split; lia.
Qed.

(** ** Exhaustion *)

Lemma remove_dead_empty (m : TorManager) (w : World) (m1 : TorManager)
  (w1 : World) :
  _cleanup_circuits m w = (m1, w1) ->
  active_circuits m = [] -> active_circuits m1 = [].
Proof.
  unfold _cleanup_circuits.
  destruct (cleanup_loop _ _ _) as [[regs dead] w2].
  intros [= <- <-] Hnil. simpl. rewrite Hnil. apply remove_dead_nil.
Qed.


(** [None] is returned only by an exhausted pool. *)
Lemma none_only_when_exhausted (rf : bool) (m : TorManager) (w : World)
  (m' : TorManager) (w' : World) :
  unique_ids -> reachable m w ->
  get_circuit rf m w = (Return None, m', w') ->
  active_circuits m' = [].
Proof.
  intros Huniq Hreach Hget.
  destruct (reachable_inv _ _ Huniq Hreach) as (Hwf & Hsize).
  now destruct (get_circuit_ok _ _ _ _ _ _ Huniq Hwf Hsize Hget)
    as (_ & _ & _ & _ & Hnil).
Qed.

(** ** Rotation *)

Lemma get_stats_active (m : TorManager) (w : World) :
  stats_active_circuits (fst (get_stats m w))
  = Z.of_nat (List.length (active_circuits m)).
Proof.
  unfold get_stats. destruct (count_healthy (circuits m) w). reflexivity.
Qed.

(** C6, as the code has it.  After [rotate_all_circuits], when the control
    channel grants every creation, no session is cached any more, every
    circuit known before is [DEAD], and the statistics report
    [max(0, min(3, max_circuits))] active circuits. *)
Theorem rotate_all_resets_pool (m : TorManager) (w : World)
  (m' : TorManager) (w' : World) :
  unique_ids -> reachable m w ->
  rotate_all_circuits m w = (m', w') ->
  (forall i, (i < Z.to_nat (Z.min 3 (max_circuits m)))%nat ->
     exists cid path, new_circuit (ctl_calls w + i) = CtlOk cid path) ->
  (forall cid, dict_get (session_cache m') cid = None) /\
  (forall cid c, dict_get (circuits m) cid = Some c ->
     exists c', dict_get (circuits m') cid = Some c' /\ state c' = DEAD) /\
  stats_active_circuits (fst (get_stats m' w'))
  = Z.max 0 (Z.min 3 (max_circuits m)).
Proof.
  intros Huniq Hreach Hrot Hsucc.
  destruct (reachable_inv _ _ Huniq Hreach) as (Hwf & _).
  destruct (rotate_ok _ _ _ _ Huniq Hwf Hrot)
    as (_ & _ & Hsess & Hdead & Hlen).
  split; [intros cid; rewrite Hsess; reflexivity|].
  split; [exact Hdead|].
  rewrite get_stats_active, (Hlen Hsucc). lia.
Qed.

(** ** Session bindings *)

Lemma mark_dead_sessions (cid : string) (m : TorManager) :
  session_cache (mark_circuit_dead cid m) = session_cache m.
Proof.
  unfold mark_circuit_dead.
  destruct (dict_get (circuits m) cid); [|reflexivity].
  simpl. destruct (list_in cid (active_circuits m)); reflexivity.
Qed.

Lemma create_many_sessions (n : nat) :
  forall m w m' w',
    create_many n m w = (m', w') -> session_cache m' = session_cache m.
Proof.
  induction n as [|n IH]; intros m w m' w'; simpl.
  - now intros [= <- <-].
  - destruct (_create_circuit m w) as [[r m1] w1] eqn:Hcreate.
    intros Hmany. rewrite (IH _ _ _ _ Hmany).
    unfold _create_circuit in Hcreate.
    destruct (new_circuit (ctl_calls w)); injection Hcreate as <- <- <-;
      reflexivity.
Qed.

(** C7, as the code has it.  [mark_circuit_dead] leaves the session cache
    as it is, and the next [get_http_session] for that circuit returns the
    session that was cached, keeping it cached; only
    [rotate_all_circuits] empties the cache. *)
Theorem dead_circuit_keeps_session (c : Circuit) (s : Session)
  (m : TorManager) (w : World) :
  dict_get (session_cache m) (id c) = Some s ->
  session_cache (mark_circuit_dead (id c) m) = session_cache m /\
  get_http_session (Some c) (mark_circuit_dead (id c) m) w
  = (Return s, None, mark_circuit_dead (id c) m, w) /\
  (forall m' w', rotate_all_circuits m w = (m', w') ->
                 session_cache m' = []).
Proof.
  intros Hs. split; [apply mark_dead_sessions|]. split.
  - unfold get_http_session, bind_session.
    rewrite mark_dead_sessions, Hs. reflexivity.
  - intros m' w' Hrot. unfold rotate_all_circuits, _initialize_circuits in Hrot.
    apply create_many_sessions in Hrot. exact Hrot.
Qed.

(** ** Timestamps *)

Lemma sorted_ext (R R' : string -> string -> Prop) (l : list string) :
  (forall a b, R a b -> R' a b) -> StronglySorted R l -> StronglySorted R' l.
Proof.
  intros Himp. induction 1 as [|x l Hl IH Hx]; constructor; auto.
  eapply Forall_impl; [|exact Hx]. auto.
Qed.

Lemma sorted_ext_in (R R' : string -> string -> Prop) (l : list string) :
  (forall a b, In a l -> In b l -> R a b -> R' a b) ->
  StronglySorted R l -> StronglySorted R' l.
Proof.
  intros Himp Hs. induction Hs as [|x l Hl IH Hx]; constructor.
  - apply IH. intros a b Ha Hb. apply Himp; simpl; auto.
  - rewrite Forall_forall in *. intros y Hy.
    apply Himp; simpl; auto.
Qed.

Lemma sorted_snoc (R : string -> string -> Prop) (l : list string)
  (x : string) :
  StronglySorted R l -> (forall a, In a l -> R a x) ->
  StronglySorted R (l ++ [x]).
Proof.
  induction 1 as [|y l Hl IH Hy]; intros Hx; simpl.
  - repeat constructor.
  - constructor.
    + apply IH. intros a Ha. apply Hx. simpl; auto.
    + apply Forall_app. split; [exact Hy|].
      constructor; [|constructor]. apply Hx. simpl; auto.
Qed.

Lemma sorted_after (R : string -> string -> Prop) (pre : list string) :
  forall x post,
    StronglySorted R (pre ++ x :: post) -> forall y, In y post -> R x y.
Proof.
  induction pre as [|p pre IH]; intros x post Hs y Hy; simpl in Hs.
  - apply StronglySorted_inv in Hs. destruct Hs as (_ & Hall).
    rewrite Forall_forall in Hall. auto.
  - apply StronglySorted_inv in Hs. destruct Hs as (Hs & _). eauto.
Qed.

Lemma now_mono (w w' : World) :
  clock_monotone -> world_le w w' -> now w <= now w'.
Proof. intros Hmono (Ht & _). apply Hmono, Ht. Qed.

Lemma wf_time_world (m : TorManager) (w w' : World) :
  clock_monotone -> world_le w w' -> wf_time m w -> wf_time m w'.
Proof.
  intros Hmono Hw [Hs Hc Hu]. constructor; auto.
  intros cid c Hget. specialize (Hc _ _ Hget).
  pose proof (now_mono _ _ Hmono Hw). lia.
Qed.

Lemma time_rel_created (m m' : TorManager) :
  time_rel m m' -> forall a, created_of m' a = created_of m a.
Proof.
  intros Hrel a. specialize (Hrel a). unfold created_of.
  destruct (dict_get (circuits m) a), (dict_get (circuits m') a);
    tauto.
Qed.

Lemma wf_time_transfer (m m' : TorManager) (w : World) :
  wf_time m w -> time_rel m m' ->
  (forall R, StronglySorted R (active_circuits m) ->
             StronglySorted R (active_circuits m')) ->
  wf_time m' w.
Proof.
  intros [Hs Hc Hu] Hrel Hact.
  pose proof (time_rel_created _ _ Hrel) as Hcr.
  constructor.
  - apply Hact in Hs. eapply sorted_ext; [|exact Hs].
    intros a b. simpl. rewrite !Hcr. auto.
  - intros cid c' Hget. specialize (Hrel cid). rewrite Hget in Hrel.
    destruct (dict_get (circuits m) cid) as [c|] eqn:Hc0; [|contradiction].
    destruct Hrel as (-> & _). eauto.
  - intros cid c' t Hget Hlu. specialize (Hrel cid). rewrite Hget in Hrel.
    destruct (dict_get (circuits m) cid) as [c|] eqn:Hc0; [|contradiction].
    destruct Hrel as (_ & [Hsame | (t' & Ht' & Hpos)]).
    + rewrite Hsame in Hlu. eauto.
    + congruence.
Qed.

Lemma time_rel_refl (m : TorManager) : time_rel m m.
Proof.
  intros k. destruct (dict_get (circuits m) k); auto.
Qed.

Lemma touch_time_rel (m : TorManager) (cid : string) (c c' : Circuit) :
  dict_get (circuits m) cid = Some c ->
  created_at c' = created_at c ->
  (last_used c' = last_used c \/ exists t, last_used c' = Some t /\ 0 < t) ->
  time_rel m (touch m cid c').
Proof.
  intros Hget Hcr Hlu k. simpl. rewrite dict_get_set.
  destruct (String.eqb_spec cid k) as [->|Hne].
  - rewrite Hget. auto.
  - destruct (dict_get (circuits m) k); auto.
Qed.

Lemma touch_time (m : TorManager) (w : World) (cid : string)
  (c c' : Circuit) :
  wf_time m w ->
  dict_get (circuits m) cid = Some c ->
  created_at c' = created_at c ->
  (last_used c' = last_used c \/ exists t, last_used c' = Some t /\ 0 < t) ->
  wf_time (touch m cid c') w.
Proof.
  intros Hwt Hget Hcr Hlu.
  eapply wf_time_transfer; eauto using touch_time_rel.
Qed.

Lemma cleanup_time (m : TorManager) (w : World) (m' : TorManager)
  (w' : World) :
  clock_monotone -> wf_time m w ->
  _cleanup_circuits m w = (m', w') -> wf_time m' w'.
Proof.
  intros Hmono Hwt. unfold _cleanup_circuits.
  destruct (cleanup_loop (circuit_lifetime m) (circuits m) (tick w))
    as [[regs dead] w1] eqn:Hloop.
  intros [= <- <-].
  pose proof (cleanup_loop_get _ _ _ _ _ _ Hloop) as Hget.
  destruct (cleanup_loop_world _ _ _ _ _ _ Hloop) as (Hw & _).
  eapply wf_time_world;
    [exact Hmono | eapply world_le_trans; [apply world_le_tick | exact Hw] |].
  eapply wf_time_transfer; [exact Hwt | |].
  - intros k. simpl. specialize (Hget k).
    destruct (dict_get (circuits m) k) as [c|].
    + destruct Hget as (c' & -> & (_ & Hcr & _ & Hlu & _) & _). auto.
    + rewrite Hget. exact I.
  - intros R. simpl. apply remove_dead_sorted.
Qed.

Lemma find_healthy_time (rf : bool) (m : TorManager) (w : World)
  (r : outcome (option Circuit)) (m' : TorManager) (w' : World) :
  clock_monotone -> clock_positive -> wf_time m w ->
  find_healthy rf (active_circuits m) m w = (r, m', w') ->
  wf_time m' w'.
Proof.
  intros Hmono Hpos Hwt Hfind.
  destruct (find_healthy_cases _ _ _ _ _ _ _ Hfind) as (Hw & Hcases).
  eapply wf_time_world; [exact Hmono | exact Hw |].
  destruct Hcases as [(_ & ->) | [(k & _ & -> & _)
    | (cid & c & w1 & _ & Hget & _ & _ & _ & _ & _ & _ & ->)]]; auto.
  eapply touch_time; eauto. right. simpl. eexists. split; [reflexivity|].
  apply Hpos.
Qed.

Lemma create_circuit_time (m : TorManager) (w : World) (r : option string)
  (m' : TorManager) (w' : World) :
  unique_ids -> clock_monotone -> wf m w -> wf_time m w ->
  _create_circuit m w = (r, m', w') -> wf_time m' w'.
Proof.
  intros Huniq Hmono Hwf Hwt Hcreate.
  destruct (create_circuit_cases _ _ _ _ _ Hcreate)
    as [(_ & -> & -> & _) | (cid & path & _ & Hnew & -> & ->)].
  - eapply wf_time_world; eauto using world_le_ctl.
  - pose proof (fresh_reply _ _ _ _ Huniq Hwf Hnew) as Hfresh.
    assert (Hw : world_le w (tick (ctl_next w)))
      by (unfold world_le; simpl; lia).
    pose proof (now_mono _ _ Hmono Hw) as Hnow.
    destruct Hwt as [Hs Hc Hu].
    assert (Hold : forall a, a <> cid ->
              created_of
                (with_active
                   (with_circuits m
                      (dict_set (circuits m) cid
                         (mkCircuit cid FRESH (now w) 0 None
                            (hd_error path) (hd_error (rev path)))))
                   (active_circuits m ++ [cid])) a = created_of m a).
    { intros a Ha. unfold created_of. simpl.
      rewrite dict_get_set_other; auto. }
    assert (Hin : forall a, In a (active_circuits m) -> a <> cid).
    { intros a Ha ->. apply (wf_active _ _ Hwf) in Ha. congruence. }
    constructor; simpl.
    + apply sorted_snoc.
      * eapply sorted_ext_in; [|exact Hs].
        intros a b Ha Hb. simpl. rewrite !Hold; auto.
      * intros a Ha. rewrite (Hold a (Hin a Ha)).
        unfold created_of at 2. simpl. rewrite dict_get_set_same. simpl.
        unfold created_of. pose proof (wf_active _ _ Hwf _ Ha) as Hreg.
        destruct (dict_get (circuits m) a) as [c|] eqn:Hget; [|congruence].
        eauto.
    + intros k c. rewrite dict_get_set.
      destruct (String.eqb_spec cid k) as [->|Hne].
      * intros [= <-]. simpl. exact Hnow.
      * intros Hget. specialize (Hc _ _ Hget). lia.
    + intros k c t. rewrite dict_get_set.
      destruct (String.eqb_spec cid k) as [->|Hne].
      * intros [= <-]. simpl. discriminate.
      * eauto.
Qed.

Lemma min_from_spec (key : string -> option Z) (l : list string) :
  forall best kbest r,
    key best = Some kbest ->
    min_from key best kbest l = Return r ->
    exists kr pre post,
      key r = Some kr /\ kr <= kbest /\
      best :: l = pre ++ r :: post /\
      (forall x, In x pre -> exists kx, key x = Some kx /\ kr < kx) /\
      (forall x, In x post -> exists kx, key x = Some kx /\ kr <= kx).
Proof.
  induction l as [|x l IH]; intros best kbest r Hbest; simpl.
  - intros [= <-]. exists kbest, [], []. simpl.
    repeat split; auto; try lia; intros ? [].
  - destruct (key x) as [kx|] eqn:Hkx; [|discriminate].
    destruct (Z.ltb_spec kx kbest) as [Hlt|Hge]; intros Hmin.
    + destruct (IH _ _ _ Hkx Hmin)
        as (kr & pre & post & Hkr & Hle & Hsplit & Hpre & Hpost).
      exists kr, (best :: pre), post. rewrite Hsplit. simpl.
      repeat split; auto; try lia.
      intros y [<-|Hy]; [exists kbest; split; [auto | lia] | auto].
    + destruct (IH _ _ _ Hbest Hmin)
        as (kr & pre & post & Hkr & Hle & Hsplit & Hpre & Hpost).
      destruct pre as [|p pre]; simpl in Hsplit;
        [injection Hsplit as <- <- | injection Hsplit as <- ->].
      * exists kr, [], (x :: l). simpl. repeat split; auto.
        intros y [<-|Hy]; [|auto].
        exists kx. split; [auto|]. rewrite Hbest in Hkr.
        injection Hkr as <-. lia.
      * exists kr, (best :: x :: pre), post. simpl. repeat split; auto.
        intros y [<-|[<-|Hy]].
        -- apply Hpre. simpl; auto.
        -- exists kx. split; [auto|].
           destruct (Hpre best) as (kb & Hkb & Hlt); [simpl; auto|].
           rewrite Hbest in Hkb. injection Hkb as <-. lia.
        -- apply Hpre. simpl; auto.
Qed.

Lemma recycle_cases (m : TorManager) (w : World)
  (r : outcome (option Circuit)) (m' : TorManager) (w' : World) :
  wf m w -> active_circuits m <> [] ->
  recycle_oldest m w = (r, m', w') ->
  exists pre oldest post c kr,
    active_circuits m = pre ++ oldest :: post /\
    dict_get (circuits m) oldest = Some c /\
    last_used_key m oldest = Some kr /\
    (forall x, In x pre ->
       exists kx, last_used_key m x = Some kx /\ kr < kx) /\
    (forall x, In x post ->
       exists kx, last_used_key m x = Some kx /\ kr <= kx) /\
    r = Return (Some (set_last_used
                        (set_request_count c (request_count c + 1))
                        (now w))) /\
    m' = touch m oldest
           (set_last_used (set_request_count c (request_count c + 1))
                          (now w)) /\
    w' = tick w.
Proof.
  intros Hwf Hne. unfold recycle_oldest.
  destruct (active_circuits m) as [|first rest] eqn:Hact; [congruence|].
  assert (Hkey : forall x, In x (first :: rest) -> last_used_key m x <> None).
  { intros x Hx. unfold last_used_key. rewrite <- Hact in Hx.
    apply (wf_active _ _ Hwf) in Hx.
    destruct (dict_get (circuits m) x); [discriminate | congruence]. }
  destruct (last_used_key m first) as [k0|] eqn:Hk0.
  2:{ exfalso. apply (Hkey first); simpl; auto. }
  destruct (min_from (last_used_key m) first k0 rest) as [oldest|e] eqn:Hmin.
  2:{ exfalso. apply min_from_raise in Hmin. destruct Hmin as (x & Hx & Hn).
      apply (Hkey x); simpl; auto. }
  destruct (min_from_spec _ _ _ _ _ Hk0 Hmin)
    as (kr & pre & post & Hkr & _ & Hsplit & Hpre & Hpost).
  assert (Hold : dict_get (circuits m) oldest <> None).
  { unfold last_used_key in Hkr.
    destruct (dict_get (circuits m) oldest); [discriminate | congruence]. }
  destruct (dict_get (circuits m) oldest) as [c|] eqn:Hget; [|congruence].
  intros [= <- <- <-].
  exists pre, oldest, post, c, kr. repeat split; auto.
Qed.

Lemma create_new_time (m : TorManager) (w : World)
  (r : outcome (option Circuit)) (m' : TorManager) (w' : World) :
  unique_ids -> clock_monotone -> clock_positive ->
  wf m w -> wf_time m w ->
  create_new m w = (r, m', w') -> wf_time m' w'.
Proof.
  intros Huniq Hmono Hpos Hwf Hwt. unfold create_new.
  destruct (Z.of_nat (List.length (active_circuits m)) <? max_circuits m).
  2:{ now intros [= <- <- <-]. }
  destruct (_create_circuit m w) as [[r1 m1] w1] eqn:Hcreate.
  pose proof (create_circuit_time _ _ _ _ _ Huniq Hmono Hwf Hwt Hcreate)
    as Hwt1.
  destruct r1 as [cid|]; [|now intros [= <- <- <-]].
  destruct (truthy cid); [|now intros [= <- <- <-]].
  destruct (dict_get (circuits m1) cid) as [c|] eqn:Hget;
    intros [= <- <- <-]; [|exact Hwt1].
  eapply wf_time_world; [exact Hmono | apply world_le_tick |].
  eapply touch_time; eauto. right. simpl. eexists. split; [reflexivity|].
  apply Hpos.
Qed.

Lemma recycle_time (m : TorManager) (w : World)
  (r : outcome (option Circuit)) (m' : TorManager) (w' : World) :
  clock_monotone -> clock_positive -> wf m w -> wf_time m w ->
  recycle_oldest m w = (r, m', w') -> wf_time m' w'.
Proof.
  intros Hmono Hpos Hwf Hwt Hrec.
  destruct (active_circuits m) as [|x l] eqn:Hact.
  - unfold recycle_oldest in Hrec. rewrite Hact in Hrec.
    now injection Hrec as <- <- <-.
  - destruct (recycle_cases _ _ _ _ _ Hwf ltac:(congruence) Hrec)
      as (pre & oldest & post & c & kr & _ & Hget & _ & _ & _ & _ & -> & ->).
    eapply wf_time_world; [exact Hmono | apply world_le_tick |].
    eapply touch_time; eauto. right. simpl. eexists. split; [reflexivity|].
    apply Hpos.
Qed.

Lemma get_circuit_time (rf : bool) (m : TorManager) (w : World)
  (r : outcome (option Circuit)) (m' : TorManager) (w' : World) :
  unique_ids -> clock_monotone -> clock_positive ->
  wf m w -> size_ok m -> wf_time m w ->
  get_circuit rf m w = (r, m', w') -> wf_time m' w'.
Proof.
  intros Huniq Hmono Hpos Hwf Hsize Hwt. unfold get_circuit.
  destruct (_cleanup_circuits m w) as [m1 w1] eqn:Hclean.
  destruct (cleanup_ok _ _ _ _ Hwf Hclean) as (Hstep1 & _ & Hlen1 & _).
  pose proof (cleanup_time _ _ _ _ Hmono Hwt Hclean) as Hwt1.
  assert (Hsize1 : size_ok m1)
    by (eapply size_ok_shrink; eauto using so_cfg).
  destruct (find_healthy rf (active_circuits m1) m1 w1)
    as [[r2 m2] w2] eqn:Hfind.
  destruct (find_healthy_ok _ _ _ _ _ _ (so_wf _ _ _ _ Hstep1) Hfind)
    as (Hstep2 & Hact2 & _ & _ & Hres2).
  pose proof (find_healthy_time _ _ _ _ _ _ Hmono Hpos Hwt1 Hfind) as Hwt2.
  assert (Hsize2 : size_ok m2).
  { eapply size_ok_shrink; [eapply so_cfg; eauto | | exact Hsize1].
    rewrite Hact2. lia. }
  destruct r2 as [[c|]|e]; try (now intros [= <- <- <-]).
  destruct (create_new m2 w2) as [[r3 m3] w3] eqn:Hnew.
  destruct (create_new_ok _ _ _ _ _ Huniq (so_wf _ _ _ _ Hstep2) Hsize2 Hnew)
    as (Hstep3 & _).
  pose proof (create_new_time _ _ _ _ _ Huniq Hmono Hpos
                (so_wf _ _ _ _ Hstep2) Hwt2 Hnew) as Hwt3.
  destruct r3 as [[c|]|e]; try (now intros [= <- <- <-]).
  intros Hrec.
  exact (recycle_time _ _ _ _ _ Hmono Hpos (so_wf _ _ _ _ Hstep3) Hwt3 Hrec).
Qed.

Lemma mark_dead_time (cid : string) (m : TorManager) (w : World) :
  wf_time m w -> wf_time (mark_circuit_dead cid m) w.
Proof.
  intros Hwt. unfold mark_circuit_dead.
  destruct (dict_get (circuits m) cid) as [c|] eqn:Hget; [|exact Hwt].
  fold (touch m cid (set_state c DEAD)).
  assert (Hrel : time_rel m (touch m cid (set_state c DEAD)))
    by (eapply touch_time_rel; eauto).
  destruct (list_in cid (active_circuits (touch m cid (set_state c DEAD)))).
  - eapply wf_time_transfer; [exact Hwt | exact Hrel |].
    intros R. simpl. apply list_remove_sorted.
  - eapply wf_time_transfer; [exact Hwt | exact Hrel | auto].
Qed.

Lemma mark_all_time (ks : list string) :
  forall m w,
    wf_time m w ->
    wf_time (fold_left (fun acc cid => mark_circuit_dead cid acc) ks m) w.
Proof.
  induction ks as [|k ks IH]; intros m w Hwt; simpl; auto.
  apply IH. now apply mark_dead_time.
Qed.

Lemma create_many_time (n : nat) :
  forall m w m' w',
    unique_ids -> clock_monotone -> wf m w -> wf_time m w ->
    create_many n m w = (m', w') -> wf_time m' w'.
Proof.
  induction n as [|n IH]; intros m w m' w' Huniq Hmono Hwf Hwt; simpl.
  - now intros [= <- <-].
  - destruct (_create_circuit m w) as [[r m1] w1] eqn:Hcreate.
    destruct (create_circuit_ok _ _ _ _ _ Huniq Hwf Hcreate) as (Hstep & _).
    pose proof (create_circuit_time _ _ _ _ _ Huniq Hmono Hwf Hwt Hcreate).
    apply IH; auto. apply Hstep.
Qed.

Lemma rotate_time (m : TorManager) (w : World) (m' : TorManager)
  (w' : World) :
  unique_ids -> clock_monotone -> wf m w -> wf_time m w ->
  rotate_all_circuits m w = (m', w') -> wf_time m' w'.
Proof.
  intros Huniq Hmono Hwf Hwt. unfold rotate_all_circuits, _initialize_circuits.
  destruct (mark_all_ok (dict_keys (circuits m)) m w Hwf) as (Hstep1 & _).
  pose proof (mark_all_time (dict_keys (circuits m)) m w Hwt) as Hwt1.
  set (m1 := fold_left (fun acc cid => mark_circuit_dead cid acc)
                       (dict_keys (circuits m)) m) in *.
  intros Hmany.
  eapply (create_many_time _ (with_sessions m1 [])); eauto.
  - destruct Hstep1 as [[Hnd Ha Hr] _ _ _]. constructor; auto.
  - destruct Hwt1 as [Hs Hc Hu]. constructor; auto.
Qed.

Lemma same_registry_time (m m' : TorManager) (w w' : World) :
  clock_monotone -> wf_time m w ->
  circuits m' = circuits m -> active_circuits m' = active_circuits m ->
  world_le w w' -> wf_time m' w'.
Proof.
  intros Hmono Hwt Hc Ha Hw.
  apply (wf_time_world _ _ _ Hmono Hw) in Hwt.
  destruct Hwt as [Hs Hcr Hu].
  constructor; rewrite ?Hc, ?Ha; auto.
  eapply sorted_ext; [|exact Hs]. intros a b. unfold created_of.
  now rewrite Hc.
Qed.

Lemma step_time (o : Op) (m : TorManager) (w : World) (out : list Circuit)
  (m' : TorManager) (w' : World) :
  unique_ids -> clock_monotone -> clock_positive ->
  wf m w -> size_ok m -> wf_time m w ->
  step o m w = (out, m', w') -> wf_time m' w'.
Proof.
  intros Huniq Hmono Hpos Hwf Hsize Hwt.
  destruct o as [rf| |cid| |circuit]; simpl.
  - destruct (get_circuit rf m w) as [[r m1] w1] eqn:Hget.
    pose proof (get_circuit_time _ _ _ _ _ _
                  Huniq Hmono Hpos Hwf Hsize Hwt Hget).
    destruct r as [[c|]|e]; now intros [= <- <- <-].
  - destruct (_cleanup_circuits m w) as [m1 w1] eqn:Hclean.
    intros [= <- <- <-]. eapply cleanup_time; eauto.
  - intros [= <- <- <-]. now apply mark_dead_time.
  - destruct (rotate_all_circuits m w) as [m1 w1] eqn:Hrot.
    intros [= <- <- <-]. eapply rotate_time; eauto.
  - unfold get_http_session. destruct circuit as [c|].
    + destruct (bind_session (id c) m w) as [[s m1] w1] eqn:Hbind.
      intros [= <- <- <-].
      destruct (bind_session_ok _ _ _ _ _ _ Hbind) as (Hc & Ha & _ & Hw & _).
      eapply same_registry_time; eauto.
    + destruct (get_circuit false m w) as [[r m1] w1] eqn:Hget.
      pose proof (get_circuit_time _ _ _ _ _ _
                    Huniq Hmono Hpos Hwf Hsize Hwt Hget) as Hwt1.
      destruct r as [[c|]|e]; try (now intros [= <- <- <-]).
      destruct (bind_session (id c) m1 w1) as [[s m2] w2] eqn:Hbind.
      intros [= <- <- <-].
      destruct (bind_session_ok _ _ _ _ _ _ Hbind) as (Hc & Ha & _ & Hw & _).
      eapply same_registry_time; eauto.
Qed.

Lemma reachable_time (m : TorManager) (w : World) :
  unique_ids -> clock_monotone -> clock_positive ->
  reachable m w -> wf_time m w.
Proof.
  intros Huniq Hmono Hpos.
  induction 1 as [socks control maxc lifetime w m' w' Hstart
                 | o m w out m' w' Hreach IH Hstep].
  - unfold start, _initialize_circuits in Hstart.
    eapply create_many_time; eauto.
    + constructor; simpl; [constructor | tauto | discriminate].
    + constructor; simpl; [constructor | discriminate | discriminate].
  - destruct (reachable_inv _ _ Huniq Hreach) as (Hwf & Hsize).
    eapply step_time; eauto.
Qed.

(** ** Recycling picks the least recently used circuit *)

Lemma last_used_key_get (m : TorManager) (cid : string) (c : Circuit) :
  dict_get (circuits m) cid = Some c ->
  last_used_key m cid
  = Some (match last_used c with Some t => t | None => 0 end).
Proof. unfold last_used_key. now intros ->. Qed.

(** Under a wall clock that reads after the epoch and never runs
    backwards, the active list is in the order of [created_at] and every
    stamp is positive: the first circuit with the least key is then the
    one whose [last_used] is least recent, an absent [last_used] being the
    oldest, and no tied circuit was created before it. *)
Lemma recycle_order_under_monotone_clock (rf : bool) (m : TorManager)
  (w : World) (m1 : TorManager) (w1 w2 : World) :
  unique_ids -> clock_monotone -> clock_positive ->
  reachable m w ->
  _cleanup_circuits m w = (m1, w1) ->
  find_healthy rf (active_circuits m1) m1 w1 = (Return None, m1, w2) ->
  max_circuits m1 <= Z.of_nat (List.length (active_circuits m1)) ->
  active_circuits m1 <> [] ->
  exists c,
    In (id c) (active_circuits m1) /\
    dict_get (circuits m1) (id c) = Some c /\
    (forall cid2 c2,
       In cid2 (active_circuits m1) ->
       dict_get (circuits m1) cid2 = Some c2 ->
       older_eq (last_used c) (last_used c2) /\
       (last_used c = last_used c2 -> created_at c <= created_at c2)) /\
    get_circuit rf m w
    = (Return (Some (set_last_used
                       (set_request_count c (request_count c + 1))
                       (now w2))),
       touch m1 (id c)
         (set_last_used (set_request_count c (request_count c + 1))
                        (now w2)),
       tick w2).
Proof.
  intros Huniq Hmono Hpos Hreach Hclean Hfind Hfull Hne.
  destruct (reachable_inv _ _ Huniq Hreach) as (Hwf & Hsize).
  pose proof (reachable_time _ _ Huniq Hmono Hpos Hreach) as Hwt.
  destruct (cleanup_ok _ _ _ _ Hwf Hclean) as (Hstep1 & _).
  pose proof (cleanup_time _ _ _ _ Hmono Hwt Hclean) as Hwt1.
  destruct (find_healthy_ok _ _ _ _ _ _ (so_wf _ _ _ _ Hstep1) Hfind)
    as (Hstep2 & _).
  pose proof (find_healthy_time _ _ _ _ _ _ Hmono Hpos Hwt1 Hfind) as Hwt2.
  pose proof (so_wf _ _ _ _ Hstep2) as Hwf2.
  destruct (recycle_oldest m1 w2) as [[r m'] w'] eqn:Hrec.
  destruct (recycle_cases _ _ _ _ _ Hwf2 Hne Hrec)
    as (pre & oldest & post & c & kr & Hact & Hget & Hkr & Hpre & Hpost
        & -> & -> & ->).
  destruct (wf_reg _ _ Hwf2 _ _ Hget) as (Hid & _).
  rewrite (last_used_key_get _ _ _ Hget) in Hkr. injection Hkr as Hkr.
  destruct Hwt2 as [Hsorted _ Hused].
  exists c. rewrite Hid.
  split; [rewrite Hact; apply in_or_app; simpl; auto|].
  split; [exact Hget|]. split.
  - intros cid2 c2 Hin Hget2.
    pose proof (last_used_key_get _ _ _ Hget2) as Hk2.
    assert (Hpos1 : forall t, last_used c = Some t -> 0 < t) by eauto.
    assert (Hpos2 : forall t, last_used c2 = Some t -> 0 < t) by eauto.
    rewrite Hact in Hin. apply in_app_or in Hin. simpl in Hin.
    destruct Hin as [Hin | [<- | Hin]].
    + destruct (Hpre _ Hin) as (kx & Hkx & Hlt).
      rewrite Hk2 in Hkx. injection Hkx as Hkx.
      unfold older_eq.
      destruct (last_used c) as [t|], (last_used c2) as [t2|]; subst;
        try (specialize (Hpos1 _ eq_refl));
        try (specialize (Hpos2 _ eq_refl));
        simpl;
        (split; [first [lia | exact I]
                | intros Heq;
                  first [discriminate | injection Heq as ?; lia | lia]]).
    + rewrite Hget in Hget2. injection Hget2 as <-.
      split; [|lia]. unfold older_eq. destruct (last_used c); auto; lia.
    + destruct (Hpost _ Hin) as (kx & Hkx & Hle).
      rewrite Hk2 in Hkx. injection Hkx as Hkx.
      split.
      * unfold older_eq.
        destruct (last_used c) as [t|], (last_used c2) as [t2|]; subst;
          try (specialize (Hpos1 _ eq_refl));
          try (specialize (Hpos2 _ eq_refl)); simpl; first [lia | exact I].
      * intros _. rewrite Hact in Hsorted.
        pose proof (sorted_after _ _ _ _ Hsorted _ Hin) as Hcr.
        simpl in Hcr. unfold created_of in Hcr.
        now rewrite Hget, Hget2 in Hcr.
  - unfold get_circuit. rewrite Hclean, Hfind. unfold create_new.
    destruct (Z.ltb_spec (Z.of_nat (List.length (active_circuits m1)))
                         (max_circuits m1)); [lia|].
    exact Hrec.
Qed.

(** C9, as the code has it.  When [get_circuit] finds no healthy circuit
    and the active list, not empty, has reached [max_circuits], it picks
    the first circuit of the active list whose key [last_used or 0] is
    least: every circuit before it in the list has a strictly greater
    key, no circuit after it has a smaller one, and an absent [last_used]
    counts as [0].  The circuit returned is that one with [request_count]
    one more and [last_used] set to the reading of the clock, the other
    fields as they were; the registry holds it under the same id, and
    nothing else of the pool changes. *)
Theorem recycle_returns_first_least_recently_used (rf : bool)
  (m : TorManager) (w : World) (m1 : TorManager) (w1 w2 : World) :
  unique_ids ->
  reachable m w ->
  _cleanup_circuits m w = (m1, w1) ->
  find_healthy rf (active_circuits m1) m1 w1 = (Return None, m1, w2) ->
  max_circuits m1 <= Z.of_nat (List.length (active_circuits m1)) ->
  active_circuits m1 <> [] ->
  exists pre c post c' m',
    active_circuits m1 = pre ++ id c :: post /\
    dict_get (circuits m1) (id c) = Some c /\
    (forall x, In x pre ->
       exists cx, dict_get (circuits m1) x = Some cx /\
                  last_used_or_0 c < last_used_or_0 cx) /\
    (forall x, In x post ->
       exists cx, dict_get (circuits m1) x = Some cx /\
                  last_used_or_0 c <= last_used_or_0 cx) /\
    get_circuit rf m w = (Return (Some c'), m', tick w2) /\
    request_count c' = request_count c + 1 /\
    last_used c' = Some (time_time (ticks w2)) /\
    id c' = id c /\ state c' = state c /\ created_at c' = created_at c /\
    entry_node c' = entry_node c /\ exit_node c' = exit_node c /\
    dict_get (circuits m') (id c) = Some c' /\
    (forall k, k <> id c ->
       dict_get (circuits m') k = dict_get (circuits m1) k) /\
    active_circuits m' = active_circuits m1 /\
    session_cache m' = session_cache m1 /\
    same_config m1 m'.
Proof.
  intros Huniq Hreach Hclean Hfind Hfull Hne.
  destruct (reachable_inv _ _ Huniq Hreach) as (Hwf & Hsize).
  destruct (cleanup_ok _ _ _ _ Hwf Hclean) as (Hstep1 & _).
  destruct (find_healthy_ok _ _ _ _ _ _ (so_wf _ _ _ _ Hstep1) Hfind)
    as (Hstep2 & _).
  pose proof (so_wf _ _ _ _ Hstep2) as Hwf2.
  destruct (recycle_oldest m1 w2) as [[r m'] w'] eqn:Hrec.
  destruct (recycle_cases _ _ _ _ _ Hwf2 Hne Hrec)
    as (pre & oldest & post & c & kr & Hact & Hget & Hkr & Hpre & Hpost
        & -> & -> & ->).
  destruct (wf_reg _ _ Hwf2 _ _ Hget) as (Hid & _).
  rewrite (last_used_key_get _ _ _ Hget) in Hkr. injection Hkr as Hkr.
  assert (Hkey : forall x kx,
             last_used_key m1 x = Some kx ->
             exists cx, dict_get (circuits m1) x = Some cx /\
                        kx = last_used_or_0 cx).
  { intros x kx. unfold last_used_key, last_used_or_0.
    destruct (dict_get (circuits m1) x) as [cx|]; [|discriminate].
    intros [= <-]. now exists cx. }
  exists pre, c, post,
    (set_last_used (set_request_count c (request_count c + 1)) (now w2)),
    (touch m1 oldest
       (set_last_used (set_request_count c (request_count c + 1)) (now w2))).
  subst oldest.
  split; [exact Hact|]. split; [exact Hget|].
  split.
  { intros x Hin. destruct (Hpre _ Hin) as (kx & Hkx & Hlt).
    destruct (Hkey _ _ Hkx) as (cx & Hcx & ->).
    exists cx. split; [exact Hcx|]. unfold last_used_or_0 in *. lia. }
  split.
  { intros x Hin. destruct (Hpost _ Hin) as (kx & Hkx & Hle).
    destruct (Hkey _ _ Hkx) as (cx & Hcx & ->).
    exists cx. split; [exact Hcx|]. unfold last_used_or_0 in *. lia. }
  split.
  { unfold get_circuit. rewrite Hclean, Hfind. unfold create_new.
    destruct (Z.ltb_spec (Z.of_nat (List.length (active_circuits m1)))
                         (max_circuits m1)); [lia|].
    exact Hrec. }
  split; [reflexivity|]. split; [reflexivity|].
  split; [reflexivity|]. split; [reflexivity|]. split; [reflexivity|].
  split; [reflexivity|]. split; [reflexivity|].
  split; [unfold touch; simpl; apply dict_get_set_same|].
  split; [intros k Hk; unfold touch; simpl;
          apply dict_get_set_other; congruence|].
  split; [reflexivity|]. split; [reflexivity|].
  unfold same_config; simpl; auto.
Qed.

(** ** Reachability of the scenarios *)

Lemma reachable_run (ops : list Op) :
  forall m w outs m' w',
    reachable m w -> run ops m w = (outs, m', w') -> reachable m' w'.
Proof.
  induction ops as [|o ops IH]; intros m w outs m' w' Hreach; simpl.
  - now intros [= <- <- <-].
  - destruct (step o m w) as [[out1 m1] w1] eqn:Hstep.
    destruct (run ops m1 w1) as [[out2 m2] w2] eqn:Hrun.
    intros [= <- <- <-]. eapply IH; [|exact Hrun].
    eapply reach_step; eauto.
Qed.

End Properties.

Lemma after_reachable (E : Environment) (maxc lifetime : Z) (ops : list Op) :
  reachable (pool_of (after E maxc lifetime ops))
            (world_of (after E maxc lifetime ops)).
Proof.
  unfold after, pool_of, world_of.
  destruct (start (TorManager_init 9050 9051 maxc lifetime) w_init)
    as [m w] eqn:Hstart.
  destruct (run ops m w) as [[outs m'] w'] eqn:Hrun. simpl.
  eapply reachable_run; [|exact Hrun].
  eapply reach_start; exact Hstart.
Qed.

Lemma unary_length (n : nat) : String.length (unary n) = S n.
Proof. induction n as [|n IH]; simpl; congruence. Qed.

Lemma unary_inj (i j : nat) : unary i = unary j -> i = j.
Proof.
  intros H. apply (f_equal String.length) in H.
  rewrite !unary_length in H. congruence.
Qed.

Lemma calm_unique : @unique_ids calm.
Proof.
  intros i j cid p q. simpl. intros [= <- _] [= H _]. now apply unary_inj.
Qed.

Lemma calm_monotone : @clock_monotone calm.
Proof. intros i j _. simpl. lia. Qed.

Lemma calm_positive : @clock_positive calm.
Proof. intros i. simpl. lia. Qed.

Lemma stormy_unique : @unique_ids stormy.
Proof. intros i j cid p q. simpl. discriminate. Qed.

Lemma ticking_unique : @unique_ids ticking.
Proof.
  intros i j cid p q. simpl. intros [= <- _] [= H _]. now apply unary_inj.
Qed.

Lemma ticking_monotone : @clock_monotone ticking.
Proof. intros i j Hij. unfold time_time, ticking. lia. Qed.

Lemma ticking_positive : @clock_positive ticking.
Proof. intros i. unfold time_time, ticking. lia. Qed.

Lemma rewinding_unique : @unique_ids rewinding.
Proof.
  intros i j cid p q. simpl. intros [= <- _] [= H _]. now apply unary_inj.
Qed.

(** ** The properties on concrete pools *)

Lemma get_circuit_never_dead_witness :
  exists c m' w',
    get_circuit (E:=calm) false (pool_of (after calm 1 600 []))
                (world_of (after calm 1 600 []))
    = (Return (Some c), m', w') /\
    state c <> DEAD /\ dict_get (circuits m') (id c) = Some c.
Proof.
  eexists; eexists; eexists.
  split; [vm_compute; reflexivity|].
  eapply (get_circuit_never_dead (E:=calm) false
            (pool_of (after calm 1 600 [])) (world_of (after calm 1 600 []))).
  - exact calm_unique.
  - apply after_reachable.
  - vm_compute; reflexivity.
Defined.

Lemma state_forward_dead_terminal_witness :
  exists c outs m' w',
    dict_get (circuits (pool_of (after calm 10 600 [OpMarkDead "1"]))) "1"
    = Some c /\
    state c = DEAD /\
    run (E:=calm)
        [OpGetCircuit false; OpGetCircuit true; OpRotateAll;
         OpGetCircuit false]
        (pool_of (after calm 10 600 [OpMarkDead "1"]))
        (world_of (after calm 10 600 [OpMarkDead "1"]))
    = (outs, m', w') /\
    exists c',
      dict_get (circuits m') "1" = Some c' /\
      (rank (state c) <= rank (state c'))%nat /\
      (state c = DEAD ->
       state c' = DEAD /\ forall r, In r outs -> id r <> "1"%string).
Proof.
  eexists; eexists; eexists; eexists.
  split; [vm_compute; reflexivity|].
  split; [reflexivity|].
  split; [vm_compute; reflexivity|].
  eapply (state_forward_dead_terminal (E:=calm)
            [OpGetCircuit false; OpGetCircuit true; OpRotateAll;
             OpGetCircuit false]
            (pool_of (after calm 10 600 [OpMarkDead "1"]))
            (world_of (after calm 10 600 [OpMarkDead "1"]))).
  - exact calm_unique.
  - apply after_reachable.
  - vm_compute; reflexivity.
  - vm_compute; reflexivity.
Defined.

(** C4, as stated, fails for a negative [max_circuits]: the pool started
    with [max_circuits = -1] has an empty active list, and [0 > -1]. *)
Lemma active_list_bound_counterexample :
  reachable (E:=calm) (pool_of (after calm (-1) 600 []))
            (world_of (after calm (-1) 600 [])) /\
  ~ (Z.of_nat (List.length (active_circuits (pool_of (after calm (-1) 600 []))))
     <= max_circuits (pool_of (after calm (-1) 600 []))).
Proof.
  split; [apply after_reachable|]. vm_compute. intros H. now apply H.
Qed.

Lemma active_list_bounded_witness :
  Z.of_nat (List.length (active_circuits
     (pool_of (after calm 4 600
        [OpGetCircuit true; OpGetCircuit true; OpGetCircuit true;
         OpGetCircuit true; OpGetCircuit true]))))
  <= Z.max 0 4 /\
  (0 <= 4 ->
   Z.of_nat (List.length (active_circuits
     (pool_of (after calm 4 600
        [OpGetCircuit true; OpGetCircuit true; OpGetCircuit true;
         OpGetCircuit true; OpGetCircuit true])))) <= 4).
Proof.
  exact (active_list_bounded (E:=calm)
           (pool_of (after calm 4 600
              [OpGetCircuit true; OpGetCircuit true; OpGetCircuit true;
               OpGetCircuit true; OpGetCircuit true]))
           (world_of (after calm 4 600
              [OpGetCircuit true; OpGetCircuit true; OpGetCircuit true;
               OpGetCircuit true; OpGetCircuit true]))
           calm_unique
           (after_reachable calm 4 600
              [OpGetCircuit true; OpGetCircuit true; OpGetCircuit true;
               OpGetCircuit true; OpGetCircuit true])).
Defined.



(** C6, as stated, fails for a negative [max_circuits]: after rotating
    the pool started with [max_circuits = -1] the statistics report [0]
    active circuits, and [min(3, -1) = -1]. *)
Lemma rotate_all_count_counterexample :
  reachable (E:=calm) (pool_of (after calm (-1) 600 []))
            (world_of (after calm (-1) 600 [])) /\
  (forall n, exists cid path,
     new_circuit (Environment:=calm) n = CtlOk cid path) /\
  stats_active_circuits
    (fst (get_stats (E:=calm)
            (fst (rotate_all_circuits (E:=calm)
                    (pool_of (after calm (-1) 600 []))
                    (world_of (after calm (-1) 600 []))))
            (snd (rotate_all_circuits (E:=calm)
                    (pool_of (after calm (-1) 600 []))
                    (world_of (after calm (-1) 600 []))))))
  <> Z.min 3 (max_circuits (pool_of (after calm (-1) 600 []))).
Proof.
  split; [apply after_reachable|]. split.
  - intros n. simpl. eauto.
  - vm_compute. discriminate.
Qed.

Lemma rotate_all_resets_pool_witness :
  exists m' w',
    rotate_all_circuits (E:=calm)
      (pool_of (after calm 10 600 [OpGetSession None; OpGetCircuit false]))
      (world_of (after calm 10 600 [OpGetSession None; OpGetCircuit false]))
    = (m', w') /\
    (forall cid, dict_get (session_cache m') cid = None) /\
    (forall cid c,
       dict_get (circuits
         (pool_of (after calm 10 600 [OpGetSession None; OpGetCircuit false])))
         cid = Some c ->
       exists c', dict_get (circuits m') cid = Some c' /\ state c' = DEAD) /\
    stats_active_circuits (fst (get_stats (E:=calm) m' w'))
    = Z.max 0 (Z.min 3 10).
Proof.
  eexists; eexists.
  split; [vm_compute; reflexivity|].
  apply (rotate_all_resets_pool (E:=calm)
           (pool_of (after calm 10 600 [OpGetSession None; OpGetCircuit false]))
           (world_of (after calm 10 600 [OpGetSession None; OpGetCircuit false]))).
  - exact calm_unique.
  - apply after_reachable.
  - vm_compute; reflexivity.
  - intros i _. simpl. eauto.
Defined.

(** C7, as stated, fails: in the pool with one circuit ["1"] to which a
    session was bound, after [mark_circuit_dead "1"] the next
    [get_http_session] for that circuit returns the cached session, and
    the session stays in the cache. *)
Lemma dead_circuit_session_counterexample :
  let m := pool_of (after calm 1 600 [OpGetSession None]) in
  let w := world_of (after calm 1 600 [OpGetSession None]) in
  let c := mkCircuit "1" ACTIVE 1000 1 (Some 1000) None None in
  let s := mkSession 9050 (nth 0 user_agents EmptyString) in
  reachable (E:=calm) m w /\
  dict_get (circuits m) "1" = Some c /\
  dict_get (session_cache m) "1" = Some s /\
  exists m' w',
    get_http_session (E:=calm) (Some c) (mark_circuit_dead "1" m) w
    = (Return s, None, m', w') /\
    dict_get (circuits m') "1" = Some (set_state c DEAD) /\
    dict_get (session_cache m') "1" = Some s.
Proof.
  split; [apply after_reachable|].
  split; [vm_compute; reflexivity|].
  split; [vm_compute; reflexivity|].
  eexists; eexists.
  split; [vm_compute; reflexivity|].
  split; vm_compute; reflexivity.
Qed.

Lemma dead_circuit_keeps_session_witness :
  let m := pool_of (after calm 1 600 [OpGetSession None]) in
  let w := world_of (after calm 1 600 [OpGetSession None]) in
  let c := mkCircuit "1" ACTIVE 1000 1 (Some 1000) None None in
  let s := mkSession 9050 (nth 0 user_agents EmptyString) in
  session_cache (mark_circuit_dead (id c) m) = session_cache m /\
  get_http_session (E:=calm) (Some c) (mark_circuit_dead (id c) m) w
  = (Return s, None, mark_circuit_dead (id c) m, w) /\
  (forall m' w', rotate_all_circuits (E:=calm) m w = (m', w') ->
                 session_cache m' = []).
Proof.
  intros m w c s.
  apply (dead_circuit_keeps_session (E:=calm) c s m w).
  vm_compute; reflexivity.
Defined.

Lemma recycle_order_under_monotone_clock_witness :
  exists m1 w1 w2,
    _cleanup_circuits (E:=ticking)
      (pool_of (after ticking 2 600 [OpGetCircuit false; OpGetCircuit true]))
      (world_of (after ticking 2 600 [OpGetCircuit false; OpGetCircuit true]))
    = (m1, w1) /\
    find_healthy (E:=ticking) true (active_circuits m1) m1 w1
    = (Return None, m1, w2) /\
    exists c,
      In (id c) (active_circuits m1) /\
      dict_get (circuits m1) (id c) = Some c /\
      (forall cid2 c2,
         In cid2 (active_circuits m1) ->
         dict_get (circuits m1) cid2 = Some c2 ->
         older_eq (last_used c) (last_used c2) /\
         (last_used c = last_used c2 -> created_at c <= created_at c2)) /\
      get_circuit (E:=ticking) true
        (pool_of (after ticking 2 600 [OpGetCircuit false; OpGetCircuit true]))
        (world_of (after ticking 2 600 [OpGetCircuit false; OpGetCircuit true]))
      = (Return (Some (set_last_used
                         (set_request_count c (request_count c + 1))
                         (now (E:=ticking) w2))),
         touch m1 (id c)
           (set_last_used (set_request_count c (request_count c + 1))
                          (now (E:=ticking) w2)),
         tick w2).
Proof.
  eexists; eexists; eexists.
  split; [vm_compute; reflexivity|].
  split; [vm_compute; reflexivity|].
  eapply (recycle_order_under_monotone_clock (E:=ticking) true
            (pool_of (after ticking 2 600 [OpGetCircuit false; OpGetCircuit true]))
            (world_of (after ticking 2 600 [OpGetCircuit false; OpGetCircuit true]))).
  - exact ticking_unique.
  - exact ticking_monotone.
  - exact ticking_positive.
  - apply after_reachable.
  - vm_compute; reflexivity.
  - vm_compute; reflexivity.
  - vm_compute. discriminate.
  - vm_compute. discriminate.
Defined.

(** The pool of two circuits, on a clock that advances at every reading,
    after three acquisitions that each require an unused circuit: ["1"]
    was stamped last, so ["11"], the second of the active list, holds the
    least key. *)
Lemma recycle_returns_first_least_recently_used_witness :
  exists m1 w1 w2,
    _cleanup_circuits (E:=ticking)
      (pool_of (after ticking 2 600
         [OpGetCircuit true; OpGetCircuit true; OpGetCircuit true]))
      (world_of (after ticking 2 600
         [OpGetCircuit true; OpGetCircuit true; OpGetCircuit true]))
    = (m1, w1) /\
    find_healthy (E:=ticking) true (active_circuits m1) m1 w1
    = (Return None, m1, w2) /\
    exists pre c post c' m',
      active_circuits m1 = pre ++ id c :: post /\
      dict_get (circuits m1) (id c) = Some c /\
      (forall x, In x pre ->
         exists cx, dict_get (circuits m1) x = Some cx /\
                    last_used_or_0 c < last_used_or_0 cx) /\
      (forall x, In x post ->
         exists cx, dict_get (circuits m1) x = Some cx /\
                    last_used_or_0 c <= last_used_or_0 cx) /\
      get_circuit (E:=ticking) true
        (pool_of (after ticking 2 600
           [OpGetCircuit true; OpGetCircuit true; OpGetCircuit true]))
        (world_of (after ticking 2 600
           [OpGetCircuit true; OpGetCircuit true; OpGetCircuit true]))
      = (Return (Some c'), m', tick w2) /\
      request_count c' = request_count c + 1 /\
      last_used c' = Some (@time_time ticking (ticks w2)) /\
      id c' = id c /\ state c' = state c /\ created_at c' = created_at c /\
      entry_node c' = entry_node c /\ exit_node c' = exit_node c /\
      dict_get (circuits m') (id c) = Some c' /\
      (forall k, k <> id c ->
         dict_get (circuits m') k = dict_get (circuits m1) k) /\
      active_circuits m' = active_circuits m1 /\
      session_cache m' = session_cache m1 /\
      same_config m1 m'.
Proof.
  eexists; eexists; eexists.
  split; [vm_compute; reflexivity|].
  split; [vm_compute; reflexivity|].
  eapply (recycle_returns_first_least_recently_used (E:=ticking) true
            (pool_of (after ticking 2 600
               [OpGetCircuit true; OpGetCircuit true; OpGetCircuit true]))
            (world_of (after ticking 2 600
               [OpGetCircuit true; OpGetCircuit true; OpGetCircuit true]))).
  - exact ticking_unique.
  - apply after_reachable.
  - vm_compute; reflexivity.
  - vm_compute; reflexivity.
  - vm_compute. discriminate.
  - vm_compute. discriminate.
Defined.

(** C9 as stated fails on the tie: the wall clock is set back between the
    two creations of the bootstrap, so ["1"] is created at [2000] and
    ["11"] at [1000]; both are then used at [1000].  The pool is full, no
    unused circuit is left, the two [last_used] are equal, and the call
    recycles ["1"], not the circuit created earliest. *)
Lemma recycle_tie_counterexample :
  let ops := [OpGetCircuit true; OpGetCircuit true] in
  let m := pool_of (after rewinding 2 600 ops) in
  let w := world_of (after rewinding 2 600 ops) in
  @unique_ids rewinding /\
  reachable (E:=rewinding) m w /\
  exists m1 w1 w2 c1 c2 r m' w',
    _cleanup_circuits (E:=rewinding) m w = (m1, w1) /\
    find_healthy (E:=rewinding) true (active_circuits m1) m1 w1
    = (Return None, m1, w2) /\
    max_circuits m1 <= Z.of_nat (List.length (active_circuits m1)) /\
    active_circuits m1 = ["1"; "11"]%string /\
    dict_get (circuits m1) "1" = Some c1 /\
    dict_get (circuits m1) "11" = Some c2 /\
    last_used c2 = last_used c1 /\
    created_at c2 < created_at c1 /\
    get_circuit (E:=rewinding) true m w = (Return (Some r), m', w') /\
    id r = "1"%string.
Proof.
  intros ops m w.
  split; [exact rewinding_unique|].
  split; [apply after_reachable|].
  do 8 eexists.
  split; [vm_compute; reflexivity|].
  split; [vm_compute; reflexivity|].
  split; [vm_compute; discriminate|].
  split; [vm_compute; reflexivity|].
  split; [vm_compute; reflexivity|].
  split; [vm_compute; reflexivity|].
  split; [vm_compute; reflexivity|].
  split; [vm_compute; reflexivity|].
  split; vm_compute; reflexivity.
Qed.

(** The same pool on the advancing clock: four acquisitions requiring an
    unused circuit hand out ["1"], ["11"], then recycle ["1"] and
    ["11"] in turn. *)
Lemma scenario_recycling :
  map id (handed (after ticking 2 600
            [OpGetCircuit true; OpGetCircuit true; OpGetCircuit true;
             OpGetCircuit true]))
  = ["1"; "11"; "1"; "11"]%string.
Proof. vm_compute; reflexivity. Qed.

(** ** Where the code departs from its own configuration and states *)

(** C2.  [Circuit.is_healthy] compares the age with the constant [600],
    not with the configured [circuit_lifetime]: with
    [circuit_lifetime_minutes = 5] a circuit aged 400 s, over the
    configured 300 s, is still healthy, and [get_stats] counts the three
    circuits of such a pool as healthy. *)
Theorem is_healthy_ignores_configured_lifetime :
  let m := create_tor_manager 9050 9051 10 5 in
  let c := mkCircuit "1" FRESH 1000 0 None None None in
  circuit_lifetime m = 300 /\
  1400 - created_at c > circuit_lifetime m /\
  is_healthy 1400 c = true /\
  reachable (E:=aging) (pool_of (after aging 10 300 []))
            (world_of (after aging 10 300 [])) /\
  dict_get (circuits (pool_of (after aging 10 300 []))) "1" = Some c /\
  healthy_circuits
    (fst (get_stats (E:=aging) (pool_of (after aging 10 300 []))
                    (world_of (after aging 10 300 [])))) = 3.
Proof.
  split; [reflexivity|]. split; [reflexivity|]. split; [reflexivity|].
  split; [apply after_reachable|].
  split; vm_compute; reflexivity.
Qed.

(** C8.  The creation path of [get_circuit] hands out the new circuit
    with [request_count = 1] and leaves its state [FRESH]: in a pool of
    capacity five, the fourth [get_circuit(require_fresh=True)] returns
    such a circuit, and the registry of the reached state holds it. *)
Theorem created_circuit_stays_fresh :
  let X := after calm 5 600 [OpGetCircuit true; OpGetCircuit true;
                             OpGetCircuit true; OpGetCircuit true] in
  let c := mkCircuit "1111" FRESH 1000 1 (Some 1000) None None in
  reachable (E:=calm) (pool_of X) (world_of X) /\
  nth_error (handed X) 3 = Some c /\
  dict_get (circuits (pool_of X)) (id c) = Some c /\
  state c = FRESH /\ request_count c <> 0.
Proof.
  split; [apply after_reachable|].
  split; [vm_compute; reflexivity|].
  split; [vm_compute; reflexivity|].
  split; [reflexivity | discriminate].
Qed.

(** ** [require_fresh] is a filter, not a guarantee *)

(** C10.  There is a reachable pool, saturated and with no unused
    circuit, in which [get_circuit(require_fresh=True)] succeeds and
    returns a circuit whose [request_count] is then at least 2. *)
Theorem require_fresh_may_return_used_circuit :
  exists m w c m' w',
    reachable (E:=calm) m w /\
    Z.of_nat (List.length (active_circuits m)) = max_circuits m /\
    (forall cid c0, In cid (active_circuits m) ->
                    dict_get (circuits m) cid = Some c0 ->
                    0 < request_count c0) /\
    get_circuit (E:=calm) true m w = (Return (Some c), m', w') /\
    2 <= request_count c.
Proof.
  exists (pool_of (after calm 1 600 [OpGetCircuit true])),
         (world_of (after calm 1 600 [OpGetCircuit true])).
  eexists; eexists; eexists.
  split; [apply after_reachable|].
  split; [vm_compute; reflexivity|].
  split.
  - intros cid c0 Hin. vm_compute in Hin. destruct Hin as [<-|[]].
    vm_compute. intros [= <-]. reflexivity.
  - split; [vm_compute; reflexivity|]. vm_compute. discriminate.
Qed.

(** ** The scenarios of the specification, run on the embedding *)

(** After [start] with [max_circuits = 10]: three circuits, all [FRESH]
    and unused. *)
Example scenario_bootstrap :
  map (fun e => (fst e, state (snd e), request_count (snd e)))
      (circuits (pool_of (after calm 10 600 [])))
  = [("1", FRESH, 0); ("11", FRESH, 0); ("111", FRESH, 0)]%string /\
  active_circuits (pool_of (after calm 10 600 [])) = ["1"; "11"; "111"]%string.
Proof. split; vm_compute; reflexivity. Qed.

(** One [get_circuit(False)]: the first circuit, [ACTIVE] with one
    request; the others stay [FRESH]. *)
Example scenario_first_acquisition :
  map (fun c => (id c, state c, request_count c))
      (handed (after calm 10 600 [OpGetCircuit false]))
  = [("1", ACTIVE, 1)]%string /\
  map (fun e => (fst e, state (snd e), request_count (snd e)))
      (circuits (pool_of (after calm 10 600 [OpGetCircuit false])))
  = [("1", ACTIVE, 1); ("11", FRESH, 0); ("111", FRESH, 0)]%string.
Proof. split; vm_compute; reflexivity. Qed.

(** Cleanup 601 s after the bootstrap: the three circuits are [DEAD] and
    off the active list. *)
Example scenario_expiry :
  map (fun e => (fst e, state (snd e)))
      (circuits (pool_of (after leaping 10 600 [OpCleanup])))
  = [("1", DEAD); ("11", DEAD); ("111", DEAD)]%string /\
  active_circuits (pool_of (after leaping 10 600 [OpCleanup])) = [].
Proof. split; vm_compute; reflexivity. Qed.

(** With [max_circuits = 1], the 102nd [get_circuit(False)] finds the
    circuit [DEGRADED] by cleanup and still returns it, by recycling. *)
Example scenario_degraded :
  map (fun e => (state (snd e), request_count (snd e)))
      (circuits (pool_of (after calm 1 600 (repeat (OpGetCircuit false) 101))))
  = [(ACTIVE, 101)] /\
  option_map (fun c => (id c, state c, request_count c))
    (nth_error (handed (after calm 1 600 (repeat (OpGetCircuit false) 102)))
               101)
  = Some ("1"%string, DEGRADED, 102).
Proof. split; vm_compute; reflexivity. Qed.

(** [mark_circuit_dead] on an unknown id changes nothing. *)
Example scenario_unknown_id (m : TorManager) (cid : string) :
  dict_get (circuits m) cid = None -> mark_circuit_dead cid m = m.
Proof. unfold mark_circuit_dead. now intros ->. Qed.

(** * Further properties of the pool *)

Section Extension.

Context {E : Environment}.

(** ** More on the containers *)

Lemma dict_keys_set {V : Type} (d : dict V) (k : string) (v : V) :
  dict_keys (dict_set d k v)
  = match dict_get d k with
    | Some _ => dict_keys d
    | None => dict_keys d ++ [k]
    end.
Proof.
  induction d as [|[k' v'] r IH]; simpl; [reflexivity|].
  destruct (String.eqb k' k); simpl; [reflexivity|].
  rewrite IH. destruct (dict_get r k); reflexivity.
Qed.

Lemma dict_set_same_value {V : Type} (d : dict V) (k : string) (v : V) :
  dict_get d k = Some v -> dict_set d k v = d.
Proof.
  induction d as [|[k' v'] r IH]; simpl; [discriminate|].
  destruct (String.eqb k' k).
  - now intros [= ->].
  - intros H. now rewrite IH.
Qed.

Lemma dict_set_twice {V : Type} (d : dict V) (k : string) (v v' : V) :
  dict_set (dict_set d k v) k v' = dict_set d k v'.
Proof.
  induction d as [|[k0 v0] r IH]; simpl.
  - now rewrite String.eqb_refl.
  - destruct (String.eqb k0 k) eqn:Hk; simpl; rewrite Hk; [reflexivity|].
    now rewrite IH.
Qed.

Lemma dict_get_In {V : Type} (d : dict V) (k : string) (v : V) :
  dict_get d k = Some v -> In (k, v) d.
Proof.
  induction d as [|[k' v'] r IH]; simpl; [discriminate|].
  destruct (String.eqb_spec k' k) as [->|Hne].
  - intros [= ->]. auto.
  - auto.
Qed.

Lemma dict_In_get {V : Type} (d : dict V) (k : string) (v : V) :
  NoDup (dict_keys d) -> In (k, v) d -> dict_get d k = Some v.
Proof.
  induction d as [|[k' v'] r IH]; simpl; [tauto|].
  intros Hnd. apply NoDup_cons_iff in Hnd. destruct Hnd as (Hk' & Hnd).
  intros [[= -> ->]|Hin].
  - now rewrite String.eqb_refl.
  - destruct (String.eqb_spec k' k) as [->|Hne]; [|auto].
    exfalso. apply Hk'. apply (in_map fst) in Hin. exact Hin.
Qed.

Lemma dict_set_keys_NoDup {V : Type} (d : dict V) (k : string) (v : V) :
  NoDup (dict_keys d) -> NoDup (dict_keys (dict_set d k v)).
Proof.
  intros Hnd. rewrite dict_keys_set.
  destruct (dict_get d k) eqn:Hget; [exact Hnd|].
  apply NoDup_app; [exact Hnd | repeat constructor; simpl; tauto |].
  intros x Hx [<-|[]]. apply dict_get_keys in Hx. congruence.
Qed.

Lemma remove_dead_keeps (dead : list string) :
  forall act x, In x act -> ~ In x dead -> In x (remove_dead dead act).
Proof.
  unfold remove_dead.
  induction dead as [|d ds IH]; intros act x Hin Hnot; simpl; [exact Hin|].
  apply IH; [|simpl in Hnot; tauto].
  destruct (list_in d act); [|exact Hin].
  apply list_remove_keeps; [|exact Hin]. simpl in Hnot. intros ->. tauto.
Qed.

Lemma set_state_same (c : Circuit) : set_state c (state c) = c.
Proof. now destruct c. Qed.

(** ** How one circuit evolves *)

Lemma evolve_refl (c : Circuit) : evolve c c.
Proof. unfold evolve. repeat split; auto. lia. Qed.

Lemma evolve_trans (c1 c2 c3 : Circuit) :
  evolve c1 c2 -> evolve c2 c3 -> evolve c1 c3.
Proof.
  unfold evolve. intros (A1 & A2 & A3 & A4 & A5 & A6) (B1 & B2 & B3 & B4 & B5 & B6).
  repeat split; try congruence; [lia | auto].
Qed.

Lemma evolve_set_state (c : Circuit) (s : CircuitState) :
  evolve c (set_state c s).
Proof. unfold evolve. simpl. repeat split; auto. lia. Qed.

Lemma evolve_stamp (c : Circuit) (t : Z) :
  evolve c (set_last_used (set_request_count c (request_count c + 1)) t).
Proof. unfold evolve. simpl. repeat split; auto; [lia | discriminate]. Qed.

Lemma evolve_stamp_active (c : Circuit) (t : Z) :
  evolve c (set_state
              (set_last_used (set_request_count c (request_count c + 1)) t)
              ACTIVE).
Proof. unfold evolve. simpl. repeat split; auto; [lia | discriminate]. Qed.

Lemma used_ok_set_state (c : Circuit) (s : CircuitState) :
  used_ok c -> used_ok (set_state c s).
Proof. unfold used_ok. simpl. auto. Qed.

Lemma used_ok_stamp (c : Circuit) (t : Z) :
  used_ok c ->
  used_ok (set_last_used (set_request_count c (request_count c + 1)) t).
Proof.
  unfold used_ok. simpl. intros (Hc & _).
  split; [lia|]. split; [discriminate | lia].
Qed.

Lemma grow_refl (m : TorManager) : grow m m.
Proof. intros k c H. exists c. auto using evolve_refl. Qed.

Lemma grow_trans (m1 m2 m3 : TorManager) :
  grow m1 m2 -> grow m2 m3 -> grow m1 m3.
Proof.
  intros H12 H23 k c Hc.
  destruct (H12 _ _ Hc) as (c2 & Hc2 & He2).
  destruct (H23 _ _ Hc2) as (c3 & Hc3 & He3).
  exists c3. eauto using evolve_trans.
Qed.

Lemma keys_prefix_refl (m : TorManager) : keys_prefix m m.
Proof. exists []. now rewrite app_nil_r. Qed.

Lemma keys_prefix_trans (m1 m2 m3 : TorManager) :
  keys_prefix m1 m2 -> keys_prefix m2 m3 -> keys_prefix m1 m3.
Proof.
  intros (l1 & H1) (l2 & H2). exists (l1 ++ l2).
  now rewrite H2, H1, app_assoc.
Qed.

(** ** The shape of a cleanup *)

Lemma cleanup_loop_keys (lt : Z) (d : dict Circuit) :
  forall w d' dead w',
    cleanup_loop lt d w = (d', dead, w') -> dict_keys d' = dict_keys d.
Proof.
  induction d as [|[k0 c0] rest IH]; intros w d' dead w' Hloop;
    simpl in Hloop.
  - now injection Hloop as <- <- <-.
  - destruct (CircuitState_eqb (state c0) DEAD);
      [| destruct (now w - created_at c0 >? lt);
         [| destruct (request_count c0 >? 100)]];
      match type of Hloop with
      | context [cleanup_loop lt rest ?w1] =>
          destruct (cleanup_loop lt rest w1) as [[rest' dead'] w''] eqn:Hrec
      end;
      injection Hloop as <- <- <-; simpl; f_equal; eauto.
Qed.

(** Each entry keeps everything but its state, which does not move back;
    the ids collected are those of the entries left [DEAD]. *)
Lemma cleanup_loop_shape (lt : Z) (d : dict Circuit) :
  forall w d' dead w',
    cleanup_loop lt d w = (d', dead, w') ->
    Forall2 (fun e e' =>
               fst e' = fst e /\
               exists s, snd e' = set_state (snd e) s /\
                         (rank (state (snd e)) <= rank s)%nat /\
                         (s = DEAD -> In (fst e) dead)) d d' /\
    (forall k, In k dead ->
       exists c', In (k, c') d' /\ state c' = DEAD).
Proof.
  induction d as [|[k0 c0] rest IH]; intros w d' dead w' Hloop;
    simpl in Hloop.
  - injection Hloop as <- <- <-. split; [constructor | intros k []].
  - assert (Hweak : forall rest' dead' dead'',
              incl dead' dead'' ->
              Forall2 (fun e e' =>
                 fst e' = fst e /\
                 exists s, snd e' = set_state (snd e) s /\
                           (rank (state (snd e)) <= rank s)%nat /\
                           (s = DEAD -> In (fst e) dead')) rest rest' ->
              Forall2 (fun e e' =>
                 fst e' = fst e /\
                 exists s, snd e' = set_state (snd e) s /\
                           (rank (state (snd e)) <= rank s)%nat /\
                           (s = DEAD -> In (fst e) dead'')) rest rest').
    { intros rest' dead' dead'' Hincl HF.
      eapply Forall2_impl; [|exact HF].
      intros e e' (He & s & Hs & Hr & Hd). split; [exact He|].
      exists s. repeat split; auto. }
    destruct (CircuitState_eqb (state c0) DEAD) eqn:Hdead;
      [| destruct (now w - created_at c0 >? lt) eqn:Hage;
         [| destruct (request_count c0 >? 100) eqn:Hcnt]];
      match type of Hloop with
      | context [cleanup_loop lt rest ?w1] =>
          destruct (cleanup_loop lt rest w1) as [[rest' dead'] w''] eqn:Hrec
      end;
      injection Hloop as <- <- <-;
      destruct (IH _ _ _ _ Hrec) as (HF & Hsound).
    + apply CircuitState_eqb_eq in Hdead. split.
      * constructor.
        -- simpl. split; [reflexivity|]. exists DEAD.
           rewrite <- Hdead at 1. rewrite set_state_same.
           rewrite Hdead. repeat split; simpl; auto.
        -- eapply Hweak; [|exact HF]. apply incl_tl, incl_refl.
      * intros k [<-|Hin].
        -- exists c0. simpl; auto.
        -- destruct (Hsound _ Hin) as (c' & Hc' & Hs). exists c'.
           simpl; auto.
    + split.
      * constructor.
        -- simpl. split; [reflexivity|]. exists DEAD.
           repeat split; simpl; auto using rank_le_dead.
        -- eapply Hweak; [|exact HF]. apply incl_tl, incl_refl.
      * intros k [<-|Hin].
        -- exists (set_state c0 DEAD). simpl; auto.
        -- destruct (Hsound _ Hin) as (c' & Hc' & Hs). exists c'.
           simpl; auto.
    + apply not_dead_iff in Hdead. split.
      * constructor; [|exact HF].
        simpl. split; [reflexivity|]. exists DEGRADED.
        repeat split; [|discriminate].
        destruct (state c0); simpl; try lia. contradiction.
      * intros k Hin. destruct (Hsound _ Hin) as (c' & Hc' & Hs).
        exists c'. simpl; auto.
    + apply not_dead_iff in Hdead. split.
      * constructor; [|exact HF].
        simpl. split; [reflexivity|]. exists (state c0).
        rewrite set_state_same. repeat split; auto. contradiction.
      * intros k Hin. destruct (Hsound _ Hin) as (c' & Hc' & Hs).
        exists c'. simpl; auto.
Qed.

Lemma Forall2_dict_get (R : Circuit -> Circuit -> Prop) (d d' : dict Circuit) :
  Forall2 (fun e e' => fst e' = fst e /\ R (snd e) (snd e')) d d' ->
  forall k,
    match dict_get d k with
    | None => dict_get d' k = None
    | Some c => exists c', dict_get d' k = Some c' /\ R c c'
    end.
Proof.
  induction 1 as [|[k0 c0] [k1 c1] r r' (Hk & HR) HF IH]; intros k; simpl.
  - reflexivity.
  - simpl in Hk, HR. subst k1.
    destruct (String.eqb k0 k); [exists c1; auto | apply IH].
Qed.

(** ** Every operation keeps the further invariants *)

Lemma more_ok_refl (m : TorManager) : more_ok m m.
Proof.
  split; [apply grow_refl|]. split; [apply keys_prefix_refl | auto].
Qed.

Lemma more_ok_trans (m1 m2 m3 : TorManager) :
  more_ok m1 m2 -> more_ok m2 m3 -> more_ok m1 m3.
Proof.
  intros (G1 & K1 & I1) (G2 & K2 & I2).
  split; [eapply grow_trans; eauto|].
  split; [eapply keys_prefix_trans; eauto | auto].
Qed.

Lemma more_ok_same_registry (m m' : TorManager) :
  circuits m' = circuits m -> active_circuits m' = active_circuits m ->
  more_ok m m'.
Proof.
  intros Hc Ha. split; [|split].
  - intros k c Hk. exists c. rewrite Hc. auto using evolve_refl.
  - exists []. now rewrite Hc, app_nil_r.
  - intros [Hk Hu Hl]. constructor; unfold live_listed in *;
      rewrite ?Hc, ?Ha; auto.
Qed.

Lemma touch_more (m : TorManager) (cid : string) (c c' : Circuit) :
  dict_get (circuits m) cid = Some c ->
  evolve c c' ->
  (used_ok c -> used_ok c') ->
  (live_listed m -> (In cid (active_circuits m) <-> state c' <> DEAD)) ->
  more_ok m (touch m cid c').
Proof.
  intros Hget Hev Hused Hlive. split; [|split].
  - intros k c0 Hk. simpl. rewrite dict_get_set.
    destruct (String.eqb_spec cid k) as [->|Hne].
    + exists c'. rewrite Hget in Hk. injection Hk as <-. auto.
    + exists c0. auto using evolve_refl.
  - exists []. simpl. rewrite dict_keys_set, Hget. now rewrite app_nil_r.
  - intros [Hk Hu Hl]. constructor; simpl.
    + now apply dict_set_keys_NoDup.
    + intros k c0. rewrite dict_get_set.
      destruct (String.eqb_spec cid k) as [->|Hne]; [|apply Hu].
      intros [= <-]. eauto.
    + intros k. simpl. rewrite dict_get_set.
      destruct (String.eqb_spec cid k) as [->|Hne]; [|apply Hl].
      rewrite (Hlive Hl). split.
      * intros Hs. exists c'. auto.
      * intros (c0 & [= <-] & Hs). exact Hs.
Qed.

Lemma cleanup_more (m : TorManager) (w : World) (m' : TorManager)
  (w' : World) :
  wf m w -> _cleanup_circuits m w = (m', w') -> more_ok m m'.
Proof.
  intros Hwf Hclean.
  destruct (cleanup_ok _ _ _ _ Hwf Hclean) as (_ & Halive & _).
  revert Hclean Halive. unfold _cleanup_circuits.
  destruct (cleanup_loop (circuit_lifetime m) (circuits m) (tick w))
    as [[regs dead] w1] eqn:Hloop.
  intros [= <- <-] Halive.
  pose proof (cleanup_loop_keys _ _ _ _ _ _ Hloop) as Hkeys.
  destruct (cleanup_loop_shape _ _ _ _ _ _ Hloop) as (HF & Hsound).
  pose proof (Forall2_dict_get
                (fun c c' => exists s, c' = set_state c s /\
                                       (rank (state c) <= rank s)%nat)
                (circuits m) regs) as Hget.
  assert (HF' : Forall2 (fun e e' => fst e' = fst e /\
                   exists s, snd e' = set_state (snd e) s /\
                             (rank (state (snd e)) <= rank s)%nat)
                  (circuits m) regs).
  { eapply Forall2_impl; [|exact HF].
    intros e e' (He & s & Hs & Hr & _). eauto. }
  specialize (Hget HF'). clear HF'.
  split; [|split].
  - intros k c Hk. simpl. specialize (Hget k). rewrite Hk in Hget.
    destruct Hget as (c' & Hc' & s & -> & _).
    exists (set_state c s). auto using evolve_set_state.
  - exists []. simpl. now rewrite Hkeys, app_nil_r.
  - intros [Hk Hu Hl]. constructor; simpl.
    + now rewrite Hkeys.
    + intros k c' Hc'. specialize (Hget k).
      destruct (dict_get (circuits m) k) as [c|] eqn:Hc; [|congruence].
      destruct Hget as (c2 & Hc2 & s & -> & _).
      rewrite Hc' in Hc2. injection Hc2 as ->.
      apply used_ok_set_state. eauto.
    + intros cid. split; [apply Halive|].
      simpl. intros (c' & Hc' & Hs).
      pose proof (Hget cid) as Hg.
      destruct (dict_get (circuits m) cid) as [c|] eqn:Hc; [|congruence].
      destruct Hg as (c2 & Hc2 & s & -> & Hrk).
      rewrite Hc' in Hc2. injection Hc2 as ->. simpl in Hs.
      apply remove_dead_keeps.
      * apply Hl. exists c. split; [exact Hc|].
        intros Hd. rewrite Hd in Hrk. apply rank_dead in Hrk. contradiction.
      * intros Hin. destruct (Hsound _ Hin) as (c'' & Hin'' & Hd).
        apply dict_In_get in Hin''; [|now rewrite Hkeys].
        rewrite Hc' in Hin''. injection Hin'' as <-. simpl in Hd.
        contradiction.
Qed.

Lemma create_circuit_more (m : TorManager) (w : World) (r : option string)
  (m' : TorManager) (w' : World) :
  unique_ids -> wf m w ->
  _create_circuit m w = (r, m', w') -> more_ok m m'.
Proof.
  intros Huniq Hwf Hcreate.
  destruct (create_circuit_cases _ _ _ _ _ Hcreate)
    as [(_ & -> & _) | (cid & path & _ & Hnew & -> & _)];
    [apply more_ok_refl|].
  pose proof (fresh_reply _ _ _ _ Huniq Hwf Hnew) as Hfresh.
  split; [|split].
  - intros k c Hk. simpl. rewrite dict_get_set.
    destruct (String.eqb_spec cid k) as [->|Hne]; [congruence|].
    exists c. auto using evolve_refl.
  - exists [cid]. simpl. now rewrite dict_keys_set, Hfresh.
  - intros [Hk Hu Hl]. constructor; simpl.
    + now apply dict_set_keys_NoDup.
    + intros k c. rewrite dict_get_set.
      destruct (String.eqb_spec cid k) as [->|Hne]; [|apply Hu].
      intros [= <-]. unfold used_ok. simpl. split; [lia | tauto].
    + intros k. simpl. rewrite dict_get_set, in_app_iff.
      destruct (String.eqb_spec cid k) as [->|Hne].
      * split; [|simpl; auto]. intros _. eexists. split; [reflexivity|].
        simpl. discriminate.
      * rewrite (Hl k). simpl. intuition congruence.
Qed.

Lemma find_healthy_more (rf : bool) (m : TorManager) (w : World)
  (r : outcome (option Circuit)) (m' : TorManager) (w' : World) :
  find_healthy rf (active_circuits m) m w = (r, m', w') -> more_ok m m'.
Proof.
  intros Hfind.
  destruct (find_healthy_cases _ _ _ _ _ _ _ Hfind) as (_ & Hcases).
  destruct Hcases as [(_ & ->) | [(k & _ & -> & _)
    | (cid & c & w1 & Hin & Hget & _ & _ & _ & _ & _ & _ & ->)]];
    try apply more_ok_refl.
  eapply touch_more; eauto using evolve_stamp_active.
  - intros Hu. apply used_ok_set_state, used_ok_stamp, Hu.
  - intros _. simpl. split; [discriminate | auto].
Qed.

Lemma create_new_more (m : TorManager) (w : World)
  (r : outcome (option Circuit)) (m' : TorManager) (w' : World) :
  unique_ids -> wf m w ->
  create_new m w = (r, m', w') -> more_ok m m'.
Proof.
  intros Huniq Hwf. unfold create_new.
  destruct (Z.of_nat (List.length (active_circuits m)) <? max_circuits m).
  2:{ intros [= <- <- <-]. apply more_ok_refl. }
  destruct (_create_circuit m w) as [[r1 m1] w1] eqn:Hcreate.
  pose proof (create_circuit_more _ _ _ _ _ Huniq Hwf Hcreate) as Hmore.
  destruct (create_circuit_ok _ _ _ _ _ Huniq Hwf Hcreate)
    as (_ & _ & _ & Hres).
  destruct r1 as [cid|]; [|now intros [= <- <- <-]].
  destruct Hres as (Hact & _ & c & Hget & Hst & Hcnt & _ & _ & Hlu).
  destruct (truthy cid); [|now intros [= <- <- <-]].
  rewrite Hget. intros [= <- <- <-].
  eapply more_ok_trans; [exact Hmore|].
  fold (touch m1 cid (set_last_used (set_request_count c 1) (now w1))).
  eapply touch_more; eauto.
  - unfold evolve. simpl. repeat split; auto; try lia; congruence.
  - intros _. unfold used_ok. simpl. split; [lia|].
    split; [discriminate | lia].
  - intros _. simpl. rewrite Hst, Hact, in_app_iff. simpl.
    split; [discriminate | auto].
Qed.

Lemma recycle_more (m : TorManager) (w : World)
  (r : outcome (option Circuit)) (m' : TorManager) (w' : World) :
  wf m w -> recycle_oldest m w = (r, m', w') -> more_ok m m'.
Proof.
  intros Hwf Hrec.
  destruct (active_circuits m) as [|x l] eqn:Hact.
  - unfold recycle_oldest in Hrec. rewrite Hact in Hrec.
    injection Hrec as <- <- <-. apply more_ok_refl.
  - destruct (recycle_cases _ _ _ _ _ Hwf ltac:(congruence) Hrec)
      as (pre & oldest & post & c & kr & Hsplit & Hget & _ & _ & _ & _
          & -> & _).
    eapply touch_more; eauto using evolve_stamp, used_ok_stamp.
    intros Hl. simpl.
    assert (Hin : In oldest (active_circuits m)).
    { rewrite Hsplit. apply in_or_app. simpl; auto. }
    split; [|auto]. intros _.
    apply Hl in Hin. destruct Hin as (c0 & Hc0 & Hs). congruence.
Qed.

Lemma get_circuit_more (rf : bool) (m : TorManager) (w : World)
  (r : outcome (option Circuit)) (m' : TorManager) (w' : World) :
  unique_ids -> wf m w -> size_ok m ->
  get_circuit rf m w = (r, m', w') -> more_ok m m'.
Proof.
  intros Huniq Hwf Hsize. unfold get_circuit.
  destruct (_cleanup_circuits m w) as [m1 w1] eqn:Hclean.
  destruct (cleanup_ok _ _ _ _ Hwf Hclean) as (Hstep1 & _).
  pose proof (cleanup_more _ _ _ _ Hwf Hclean) as Hm1.
  destruct (find_healthy rf (active_circuits m1) m1 w1)
    as [[r2 m2] w2] eqn:Hfind.
  destruct (find_healthy_ok _ _ _ _ _ _ (so_wf _ _ _ _ Hstep1) Hfind)
    as (Hstep2 & _).
  pose proof (more_ok_trans _ _ _ Hm1 (find_healthy_more _ _ _ _ _ _ Hfind))
    as Hm2.
  destruct r2 as [[c|]|e]; try (now intros [= <- <- <-]).
  destruct (create_new m2 w2) as [[r3 m3] w3] eqn:Hnew.
  pose proof (so_wf _ _ _ _ Hstep2) as Hwf2.
  assert (Hm3 : more_ok m m3).
  { eapply more_ok_trans; [exact Hm2|]. eapply create_new_more; eauto. }
  assert (Hwf3 : wf m3 w3).
  { unfold create_new in Hnew.
    destruct (Z.of_nat (List.length (active_circuits m2)) <? max_circuits m2).
    2:{ now injection Hnew as <- <- <-. }
    destruct (_create_circuit m2 w2) as [[r1 m21] w21] eqn:Hcreate.
    destruct (create_circuit_ok _ _ _ _ _ Huniq Hwf2 Hcreate)
      as (Hs & _ & _ & Hres).
    destruct r1 as [cid|]; [|injection Hnew as <- <- <-; apply Hs].
    destruct Hres as (_ & _ & c & Hget & Hst & _ & Hid & _).
    destruct (truthy cid); [|injection Hnew as <- <- <-; apply Hs].
    rewrite Hget in Hnew. injection Hnew as <- <- <-.
    eapply wf_world; [apply world_le_tick|].
    eapply so_wf. eapply touch_step_ok; eauto using so_wf; simpl; auto.
    rewrite Hst. discriminate. }
  destruct r3 as [[c|]|e]; try (now intros [= <- <- <-]).
  intros Hrec. eapply more_ok_trans; [exact Hm3|].
  eapply recycle_more; eauto.
Qed.

Lemma mark_dead_more (cid : string) (m : TorManager) (w : World) :
  wf m w -> more_ok m (mark_circuit_dead cid m).
Proof.
  intros Hwf. unfold mark_circuit_dead.
  destruct (dict_get (circuits m) cid) as [c|] eqn:Hget;
    [|apply more_ok_refl].
  fold (touch m cid (set_state c DEAD)).
  assert (Hnd : NoDup (active_circuits m)) by apply (wf_nodup _ _ Hwf).
  split; [|split].
  - assert (G : grow m (touch m cid (set_state c DEAD))).
    { intros k c0 Hk. simpl. rewrite dict_get_set.
      destruct (String.eqb_spec cid k) as [->|Hne].
      - exists (set_state c DEAD). rewrite Hget in Hk. injection Hk as <-.
        auto using evolve_set_state.
      - exists c0. auto using evolve_refl. }
    destruct (list_in cid _); exact G.
  - exists []. rewrite app_nil_r.
    destruct (list_in cid _); simpl; now rewrite dict_keys_set, Hget.
  - intros [Hk Hu Hl].
    assert (Hlive : forall act,
              (forall x, In x act <-> In x (active_circuits m) /\ x <> cid) ->
              live_listed (with_active (touch m cid (set_state c DEAD)) act)).
    { intros act Hact k. simpl. rewrite dict_get_set, Hact.
      destruct (String.eqb_spec cid k) as [->|Hne].
      - split; [tauto|]. intros (c0 & [= <-] & Hs). simpl in Hs. tauto.
      - rewrite (Hl k). intuition congruence. }
    assert (Hused : forall k c0,
              dict_get (dict_set (circuits m) cid (set_state c DEAD)) k
              = Some c0 -> used_ok c0).
    { intros k c0. rewrite dict_get_set.
      destruct (String.eqb_spec cid k) as [->|Hne]; [|apply Hu].
      intros [= <-]. apply used_ok_set_state. eauto. }
    destruct (list_in cid (active_circuits (touch m cid (set_state c DEAD))))
      eqn:Hmem; simpl in Hmem.
    + constructor; simpl; auto using dict_set_keys_NoDup.
      apply Hlive. intros x. split.
      * intros Hx. split; [eapply list_remove_incl; eauto|].
        intros ->. revert Hx. now apply list_remove_gone.
      * intros (Hx & Hne). now apply list_remove_keeps.
    + constructor; simpl; auto using dict_set_keys_NoDup.
      assert (Hnot : ~ In cid (active_circuits m)).
      { intros Hin. apply list_in_In in Hin. congruence. }
      specialize (Hlive (active_circuits m)).
      intros k. simpl in Hlive. apply Hlive.
      intros x. split; [|tauto]. intros Hx. split; [exact Hx|].
      intros ->. contradiction.
Qed.

Lemma mark_all_more (ks : list string) :
  forall m w,
    wf m w ->
    more_ok m (fold_left (fun acc cid => mark_circuit_dead cid acc) ks m).
Proof.
  induction ks as [|k ks IH]; intros m w Hwf; simpl;
    [apply more_ok_refl|].
  eapply more_ok_trans; [apply (mark_dead_more k m w Hwf)|].
  apply (IH _ w). destruct (mark_dead_ok k m w Hwf) as (Hs & _). apply Hs.
Qed.

Lemma create_many_more (n : nat) :
  forall m w m' w',
    unique_ids -> wf m w ->
    create_many n m w = (m', w') -> more_ok m m'.
Proof.
  induction n as [|n IH]; intros m w m' w' Huniq Hwf; simpl.
  - intros [= <- <-]. apply more_ok_refl.
  - destruct (_create_circuit m w) as [[r m1] w1] eqn:Hcreate.
    intros Hmany.
    destruct (create_circuit_ok _ _ _ _ _ Huniq Hwf Hcreate) as (Hs & _).
    eapply more_ok_trans; [eapply create_circuit_more; eauto|].
    eapply IH; eauto. apply Hs.
Qed.

Lemma rotate_more (m : TorManager) (w : World) (m' : TorManager)
  (w' : World) :
  unique_ids -> wf m w ->
  rotate_all_circuits m w = (m', w') -> more_ok m m'.
Proof.
  intros Huniq Hwf. unfold rotate_all_circuits, _initialize_circuits.
  destruct (mark_all_ok (dict_keys (circuits m)) m w Hwf) as (Hstep1 & _).
  pose proof (mark_all_more (dict_keys (circuits m)) m w Hwf) as Hm1.
  set (m1 := fold_left (fun acc cid => mark_circuit_dead cid acc)
                       (dict_keys (circuits m)) m) in *.
  intros Hmany.
  eapply more_ok_trans; [exact Hm1|].
  eapply more_ok_trans;
    [apply (more_ok_same_registry m1 (with_sessions m1 [])); reflexivity|].
  eapply create_many_more; [exact Huniq | | exact Hmany].
  destruct Hstep1 as [[Hnd Ha Hr] _ _ _]. constructor; auto.
Qed.

Lemma step_more (o : Op) (m : TorManager) (w : World) (out : list Circuit)
  (m' : TorManager) (w' : World) :
  unique_ids -> wf m w -> size_ok m ->
  step o m w = (out, m', w') -> more_ok m m'.
Proof.
  intros Huniq Hwf Hsize. destruct o as [rf| |cid| |circuit]; simpl.
  - destruct (get_circuit rf m w) as [[r m1] w1] eqn:Hget.
    pose proof (get_circuit_more _ _ _ _ _ _ Huniq Hwf Hsize Hget).
    destruct r as [[c|]|e]; now intros [= <- <- <-].
  - destruct (_cleanup_circuits m w) as [m1 w1] eqn:Hclean.
    intros [= <- <- <-]. eapply cleanup_more; eauto.
  - intros [= <- <- <-]. eapply mark_dead_more; eauto.
  - destruct (rotate_all_circuits m w) as [m1 w1] eqn:Hrot.
    intros [= <- <- <-]. eapply rotate_more; eauto.
  - unfold get_http_session. destruct circuit as [c|].
    + destruct (bind_session (id c) m w) as [[s m1] w1] eqn:Hbind.
      intros [= <- <- <-].
      destruct (bind_session_ok _ _ _ _ _ _ Hbind) as (Hc & Ha & _).
      now apply more_ok_same_registry.
    + destruct (get_circuit false m w) as [[r m1] w1] eqn:Hget.
      pose proof (get_circuit_more _ _ _ _ _ _ Huniq Hwf Hsize Hget) as Hm.
      destruct r as [[c|]|e]; try (now intros [= <- <- <-]).
      destruct (bind_session (id c) m1 w1) as [[s m2] w2] eqn:Hbind.
      intros [= <- <- <-].
      destruct (bind_session_ok _ _ _ _ _ _ Hbind) as (Hc & Ha & _).
      eapply more_ok_trans; [exact Hm|]. now apply more_ok_same_registry.
Qed.

Lemma run_more (ops : list Op) :
  forall m w outs m' w',
    unique_ids -> wf m w -> size_ok m ->
    run ops m w = (outs, m', w') -> more_ok m m'.
Proof.
  induction ops as [|o ops IH]; intros m w outs m' w' Huniq Hwf Hsize; simpl.
  - intros [= <- <- <-]. apply more_ok_refl.
  - destruct (step o m w) as [[out1 m1] w1] eqn:Hstep.
    destruct (run ops m1 w1) as [[out2 m2] w2] eqn:Hrun.
    intros [= <- <- <-].
    destruct (step_inv _ _ _ _ _ _ Huniq Hwf Hsize Hstep) as (Hs & Hsz & _).
    eapply more_ok_trans; [eapply step_more; eauto|].
    eapply IH; eauto. apply Hs.
Qed.

Lemma reachable_reg_inv (m : TorManager) (w : World) :
  unique_ids -> reachable m w -> reg_inv m.
Proof.
  intros Huniq.
  induction 1 as [socks control maxc lifetime w m' w' Hstart
                 | o m w out m' w' Hreach IH Hstep].
  - unfold start, _initialize_circuits in Hstart.
    assert (Hwf0 : wf (TorManager_init socks control maxc lifetime) w).
    { constructor; simpl; [constructor | tauto | discriminate]. }
    destruct (create_many_more _ _ _ _ _ Huniq Hwf0 Hstart) as (_ & _ & Hinv).
    apply Hinv. constructor; simpl; [constructor | discriminate |].
    intros cid. simpl. split; [tauto|]. intros (c & [=] & _).
  - destruct (reachable_inv _ _ Huniq Hreach) as (Hwf & Hsize).
    destruct (step_more _ _ _ _ _ _ Huniq Hwf Hsize Hstep) as (_ & _ & Hinv).
    auto.
Qed.

(** ** What a circuit keeps for life *)

(** X1.  Along every sequence of operations from a reachable pool, a
    registered circuit stays registered under its id with the same [id],
    [created_at], [entry_node] and [exit_node]; its [request_count] never
    decreases, and a [last_used] that is set stays set. *)
Theorem circuit_identity_is_stable (ops : list Op) (m : TorManager)
  (w : World) (outs : list Circuit) (m' : TorManager) (w' : World)
  (cid : string) (c : Circuit) :
  unique_ids -> reachable m w ->
  run ops m w = (outs, m', w') ->
  dict_get (circuits m) cid = Some c ->
  exists c',
    dict_get (circuits m') cid = Some c' /\
    id c' = id c /\ created_at c' = created_at c /\
    entry_node c' = entry_node c /\ exit_node c' = exit_node c /\
    request_count c <= request_count c' /\
    (last_used c <> None -> last_used c' <> None).
Proof.
  intros Huniq Hreach Hrun Hget.
  destruct (reachable_inv _ _ Huniq Hreach) as (Hwf & Hsize).
  destruct (run_more _ _ _ _ _ _ Huniq Hwf Hsize Hrun) as (Hgrow & _).
  exact (Hgrow _ _ Hget).
Qed.

(** X2.  No operation ever deletes or reorders a registry record: after
    any sequence of operations the ids of the registry are the former ids,
    in the same order, followed by the ids created since; so
    [total_circuits] never decreases. *)
Theorem registry_only_grows (ops : list Op) (m : TorManager) (w : World)
  (outs : list Circuit) (m' : TorManager) (w' : World) :
  unique_ids -> reachable m w ->
  run ops m w = (outs, m', w') ->
  (exists created,
     dict_keys (circuits m') = dict_keys (circuits m) ++ created) /\
  total_circuits (fst (get_stats m w))
  <= total_circuits (fst (get_stats m' w')).
Proof.
  intros Huniq Hreach Hrun.
  destruct (reachable_inv _ _ Huniq Hreach) as (Hwf & Hsize).
  destruct (run_more _ _ _ _ _ _ Huniq Hwf Hsize Hrun)
    as (_ & (l & Hkeys) & _).
  split; [exists l; exact Hkeys|].
  unfold get_stats.
  destruct (count_healthy (circuits m) w), (count_healthy (circuits m') w').
  simpl. apply (f_equal (@List.length string)) in Hkeys.
  unfold dict_keys in Hkeys. rewrite length_app, !length_map in Hkeys. lia.
Qed.

(** X3.  In every reachable pool, [request_count] is never negative, and
    a circuit has no [last_used] exactly when its [request_count] is 0. *)
Theorem usage_is_consistent (m : TorManager) (w : World) (cid : string)
  (c : Circuit) :
  unique_ids -> reachable m w ->
  dict_get (circuits m) cid = Some c ->
  0 <= request_count c /\ (last_used c = None <-> request_count c = 0).
Proof.
  intros Huniq Hreach Hget.
  exact (ri_used _ (reachable_reg_inv _ _ Huniq Hreach) _ _ Hget).
Qed.

(** X4.  In every reachable pool the active list holds exactly the ids of
    the registered circuits that are not [DEAD], each once. *)
Theorem active_list_is_live_set (m : TorManager) (w : World) :
  unique_ids -> reachable m w ->
  NoDup (active_circuits m) /\
  forall cid,
    In cid (active_circuits m) <->
    exists c, dict_get (circuits m) cid = Some c /\ state c <> DEAD.
Proof.
  intros Huniq Hreach. split.
  - apply (wf_nodup m w). now apply reachable_inv.
  - exact (ri_live _ (reachable_reg_inv _ _ Huniq Hreach)).
Qed.

(** ** Statistics *)

Lemma count_healthy_bound (d : dict Circuit) :
  forall w n w',
    count_healthy d w = (n, w') ->
    0 <= n <= Z.of_nat (List.length (filter live_entry d)).
Proof.
  induction d as [|[k c] rest IH]; intros w n w'; simpl.
  - intros [= <- <-]. simpl. lia.
  - unfold is_healthy_io, live_entry at 1. simpl.
    destruct (CircuitState_eqb (state c) DEAD) eqn:Hd; simpl.
    + destruct (count_healthy rest w) as [n1 w1] eqn:Hrec.
      intros [= <- <-]. specialize (IH _ _ _ Hrec). lia.
    + destruct (count_healthy rest (tick w)) as [n1 w1] eqn:Hrec.
      intros [= <- <-]. specialize (IH _ _ _ Hrec).
      destruct (is_healthy (now w) c); simpl List.length; lia.
Qed.

Lemma filter_keys_NoDup (f : string * Circuit -> bool) (d : dict Circuit) :
  NoDup (dict_keys d) -> NoDup (dict_keys (filter f d)).
Proof.
  unfold dict_keys. induction d as [|e rest IH]; simpl; [auto|].
  intros Hnd. apply NoDup_cons_iff in Hnd. destruct Hnd as (Hk & Hnd).
  destruct (f e); simpl; auto.
  constructor; auto. intros Hin. apply Hk.
  apply in_map_iff in Hin. destruct Hin as (x & Hx & Hin).
  apply filter_In in Hin. apply in_map_iff. exists x. tauto.
Qed.

(** X5.  On every reachable pool the figures of [get_stats] are ordered:
    [0 <= healthy_circuits <= active_circuits <= total_circuits], and
    [sessions_cached] is not negative. *)
Theorem get_stats_ordered (m : TorManager) (w : World) (st : Stats)
  (w' : World) :
  unique_ids -> reachable m w ->
  get_stats m w = (st, w') ->
  0 <= healthy_circuits st /\
  healthy_circuits st <= stats_active_circuits st /\
  stats_active_circuits st <= total_circuits st /\
  0 <= sessions_cached st.
Proof.
  intros Huniq Hreach. unfold get_stats.
  destruct (count_healthy (circuits m) w) as [n w1] eqn:Hcount.
  intros [= <- <-]. simpl.
  destruct (reachable_inv _ _ Huniq Hreach) as (Hwf & _).
  destruct (reachable_reg_inv _ _ Huniq Hreach) as [Hkeys _ Hlive].
  pose proof (count_healthy_bound _ _ _ _ Hcount) as Hn.
  assert (Hlive_le : (List.length (filter live_entry (circuits m))
                      <= List.length (active_circuits m))%nat).
  { rewrite <- (length_map fst).
    apply NoDup_incl_length; [now apply filter_keys_NoDup|].
    intros k Hk. apply in_map_iff in Hk. destruct Hk as ([k' c] & <- & Hin).
    apply filter_In in Hin. destruct Hin as (Hin & Hl). simpl.
    apply Hlive. exists c. split; [now apply dict_In_get|].
    unfold live_entry in Hl. simpl in Hl.
    apply not_dead_iff. now destruct (CircuitState_eqb (state c) DEAD). }
  assert (Hact_le : (List.length (active_circuits m)
                     <= List.length (circuits m))%nat).
  { rewrite <- (length_map fst (circuits m)).
    apply NoDup_incl_length; [apply (wf_nodup _ _ Hwf)|].
    intros k Hk. apply dict_get_keys. now apply (wf_active _ _ Hwf). }
  lia.
Qed.

(** ** Sessions *)

Lemma random_user_agent_in (w : World) :
  In (fst (_get_random_user_agent w)) user_agents.
Proof.
  unfold _get_random_user_agent.
  change (In (nth (Nat.modulo (random_choice (rnd_calls w)) 3) user_agents
                  EmptyString) user_agents).
  apply nth_In. change (List.length user_agents) with 3%nat.
  apply Nat.mod_upper_bound. discriminate.
Qed.

Lemma bind_session_keeps (cid k : string) (s0 : Session) (m : TorManager)
  (w : World) (s : Session) (m' : TorManager) (w' : World) :
  bind_session cid m w = (s, m', w') ->
  dict_get (session_cache m) k = Some s0 ->
  dict_get (session_cache m') k = Some s0.
Proof.
  unfold bind_session.
  destruct (dict_get (session_cache m) cid) as [s1|] eqn:Hcid.
  - now intros [= <- <- <-].
  - unfold _get_random_user_agent. intros [= <- <- <-] Hk. simpl.
    rewrite dict_get_set.
    destruct (String.eqb_spec cid k) as [->|_]; [congruence | exact Hk].
Qed.

(** No operation but [rotate_all_circuits] removes or replaces a cached
    session. *)
Lemma step_keeps_binding (o : Op) (m : TorManager) (w : World)
  (out : list Circuit) (m' : TorManager) (w' : World) (k : string)
  (s0 : Session) :
  unique_ids -> wf m w -> size_ok m ->
  o <> OpRotateAll ->
  step o m w = (out, m', w') ->
  dict_get (session_cache m) k = Some s0 ->
  dict_get (session_cache m') k = Some s0.
Proof.
  intros Huniq Hwf Hsize Hrot.
  destruct o as [rf| |cid| |circuit]; simpl.
  - destruct (get_circuit rf m w) as [[r m1] w1] eqn:Hget.
    destruct (get_circuit_ok _ _ _ _ _ _ Huniq Hwf Hsize Hget)
      as (_ & _ & Hs & _).
    destruct r as [[c|]|e]; intros [= <- <- <-]; now rewrite Hs.
  - destruct (_cleanup_circuits m w) as [m1 w1] eqn:Hclean.
    destruct (cleanup_ok _ _ _ _ Hwf Hclean) as (_ & _ & _ & _ & Hs).
    intros [= <- <- <-]. now rewrite Hs.
  - intros [= <- <- <-]. now rewrite mark_dead_sessions.
  - contradiction.
  - unfold get_http_session. destruct circuit as [c|].
    + destruct (bind_session (id c) m w) as [[s m1] w1] eqn:Hbind.
      intros [= <- <- <-]. eapply bind_session_keeps; eauto.
    + destruct (get_circuit false m w) as [[r m1] w1] eqn:Hget.
      destruct (get_circuit_ok _ _ _ _ _ _ Huniq Hwf Hsize Hget)
        as (_ & _ & Hs & _).
      destruct r as [[c|]|e]; try (intros [= <- <- <-]; now rewrite Hs).
      destruct (bind_session (id c) m1 w1) as [[s m2] w2] eqn:Hbind.
      intros [= <- <- <-] Hk. eapply bind_session_keeps; eauto.
      now rewrite Hs.
Qed.

Lemma run_keeps_binding (ops : list Op) :
  forall m w outs m' w' k s0,
    unique_ids -> wf m w -> size_ok m ->
    ~ In OpRotateAll ops ->
    run ops m w = (outs, m', w') ->
    dict_get (session_cache m) k = Some s0 ->
    dict_get (session_cache m') k = Some s0.
Proof.
  induction ops as [|o ops IH];
    intros m w outs m' w' k s0 Huniq Hwf Hsize Hrot; simpl.
  - now intros [= <- <- <-].
  - destruct (step o m w) as [[out1 m1] w1] eqn:Hstep.
    destruct (run ops m1 w1) as [[out2 m2] w2] eqn:Hrun.
    intros [= <- <- <-] Hk.
    destruct (step_inv _ _ _ _ _ _ Huniq Hwf Hsize Hstep)
      as (Hok & Hsize1 & _).
    eapply (IH m1 w1); eauto using so_wf.
    + intros Hin. apply Hrot. now right.
    + eapply step_keeps_binding; eauto.
      intros ->. apply Hrot. now left.
Qed.

(** X6.  On a reachable pool [get_http_session] on a given circuit always
    succeeds and caches what it returns under the circuit's id, leaving
    the bindings of the other ids, the registry and the active list
    alone.  The binding then stays: after any further operations on the
    pool other than [rotate_all_circuits] (acquisitions, cleanups,
    circuits marked dead, sessions for this or other circuits), a call
    for a circuit of that id returns the same session, changes nothing
    and draws no user agent. *)
Theorem session_is_reused (c : Circuit) (m : TorManager) (w : World)
  (r : outcome Session) (acq : option Circuit) (m1 : TorManager)
  (w1 : World) :
  unique_ids -> reachable m w ->
  get_http_session (Some c) m w = (r, acq, m1, w1) ->
  exists s,
    r = Return s /\ acq = None /\
    dict_get (session_cache m1) (id c) = Some s /\
    (forall ops outs m2 w2,
       ~ In OpRotateAll ops ->
       run ops m1 w1 = (outs, m2, w2) ->
       dict_get (session_cache m2) (id c) = Some s /\
       forall c2 w3, id c2 = id c ->
         get_http_session (Some c2) m2 w3 = (Return s, None, m2, w3)) /\
    (forall k, k <> id c ->
       dict_get (session_cache m1) k = dict_get (session_cache m) k) /\
    circuits m1 = circuits m /\ active_circuits m1 = active_circuits m.
Proof.
  intros Huniq Hreach Hcall.
  assert (Hreach1 : reachable m1 w1).
  { assert (Hacq : acq = None).
    { unfold get_http_session in Hcall.
      destruct (bind_session (id c) m w) as [[s0 m0] w0].
      now injection Hcall as _ <- _ _. }
    eapply (reach_step (OpGetSession (Some c)) m w []); [exact Hreach|].
    unfold step. rewrite Hcall, Hacq. reflexivity. }
  destruct (reachable_inv _ _ Huniq Hreach1) as (Hwf1 & Hsize1).
  unfold get_http_session in Hcall.
  destruct (bind_session (id c) m w) as [[s m2] w2] eqn:Hbind.
  injection Hcall as <- <- <- <-.
  destruct (bind_session_ok _ _ _ _ _ _ Hbind) as (Hc & Ha & _ & _ & Hs).
  exists s.
  split; [reflexivity|]. split; [reflexivity|]. split; [exact Hs|].
  split; [|split; [|split; [exact Hc | exact Ha]]].
  - intros ops outs m3 w3 Hrot Hrun.
    pose proof (run_keeps_binding ops _ _ _ _ _ _ _
                  Huniq Hwf1 Hsize1 Hrot Hrun Hs) as Hs3.
    split; [exact Hs3|].
    intros c2 w4 Hid. unfold get_http_session, bind_session.
    rewrite Hid, Hs3. reflexivity.
  - intros k Hk. unfold bind_session in Hbind.
    destruct (dict_get (session_cache m) (id c)).
    + now injection Hbind as <- <- <-.
    + unfold _get_random_user_agent in Hbind. injection Hbind as <- <- <-.
      simpl. now apply dict_get_set_other.
Qed.

Lemma bind_session_sessions (cid : string) (m : TorManager) (w : World)
  (s : Session) (m' : TorManager) (w' : World) :
  sessions_ok m -> bind_session cid m w = (s, m', w') -> sessions_ok m'.
Proof.
  intros Hok. unfold bind_session.
  destruct (dict_get (session_cache m) cid) as [s0|].
  - now intros [= <- <- <-].
  - pose proof (random_user_agent_in w) as Hua.
    destruct (_get_random_user_agent w) as [ua w1]. simpl in Hua.
    intros [= <- <- <-] k s1. simpl. rewrite dict_get_set.
    destruct (String.eqb cid k); [|apply Hok].
    intros [= <-]. simpl. auto.
Qed.

Lemma sessions_ok_same (m m' : TorManager) :
  sessions_ok m -> session_cache m' = session_cache m ->
  same_config m m' -> sessions_ok m'.
Proof.
  intros Hok Hs (Hp & _) k s. rewrite Hs, Hp. apply Hok.
Qed.

Lemma step_sessions (o : Op) (m : TorManager) (w : World)
  (out : list Circuit) (m' : TorManager) (w' : World) :
  unique_ids -> wf m w -> size_ok m -> sessions_ok m ->
  step o m w = (out, m', w') -> sessions_ok m'.
Proof.
  intros Huniq Hwf Hsize Hok. destruct o as [rf| |cid| |circuit]; simpl.
  - destruct (get_circuit rf m w) as [[r m1] w1] eqn:Hget.
    destruct (get_circuit_ok _ _ _ _ _ _ Huniq Hwf Hsize Hget)
      as (Hstep & _ & Hs & _).
    assert (sessions_ok m1) by (eapply sessions_ok_same; eauto using so_cfg).
    destruct r as [[c|]|e]; now intros [= <- <- <-].
  - destruct (_cleanup_circuits m w) as [m1 w1] eqn:Hclean.
    intros [= <- <- <-].
    destruct (cleanup_ok _ _ _ _ Hwf Hclean) as (Hstep & _ & _ & _ & Hs).
    eapply sessions_ok_same; eauto using so_cfg.
  - intros [= <- <- <-].
    destruct (mark_dead_ok cid m w Hwf) as (Hstep & Hs & _).
    eapply sessions_ok_same; eauto using so_cfg.
  - destruct (rotate_all_circuits m w) as [m1 w1] eqn:Hrot.
    intros [= <- <- <-].
    destruct (rotate_ok _ _ _ _ Huniq Hwf Hrot) as (_ & _ & Hs & _).
    intros k s. rewrite Hs. discriminate.
  - unfold get_http_session. destruct circuit as [c|].
    + destruct (bind_session (id c) m w) as [[s m1] w1] eqn:Hbind.
      intros [= <- <- <-]. eapply bind_session_sessions; eauto.
    + destruct (get_circuit false m w) as [[r m1] w1] eqn:Hget.
      destruct (get_circuit_ok _ _ _ _ _ _ Huniq Hwf Hsize Hget)
        as (Hstep & _ & Hs & _).
      assert (sessions_ok m1) by (eapply sessions_ok_same; eauto using so_cfg).
      destruct r as [[c|]|e]; try (now intros [= <- <- <-]).
      destruct (bind_session (id c) m1 w1) as [[s m2] w2] eqn:Hbind.
      intros [= <- <- <-]. eapply bind_session_sessions; eauto.
Qed.

(** X7.  In every reachable pool each cached session goes through the
    manager's [socks_port] and carries one of the three user agents of
    [_get_random_user_agent]. *)
Theorem cached_sessions_are_configured (m : TorManager) (w : World)
  (cid : string) (s : Session) :
  unique_ids -> reachable m w ->
  dict_get (session_cache m) cid = Some s ->
  proxy_port s = socks_port m /\ In (user_agent s) user_agents.
Proof.
  intros Huniq Hreach. revert cid s. change (sessions_ok m).
  induction Hreach as [socks control maxc lifetime w m' w' Hstart
                      | o m w out m' w' Hreach IH Hstep].
  - unfold start, _initialize_circuits in Hstart.
    apply create_many_sessions in Hstart. intros k s. rewrite Hstart.
    discriminate.
  - destruct (reachable_inv _ _ Huniq Hreach) as (Hwf & Hsize).
    eapply step_sessions; eauto.
Qed.

(** ** Marking a circuit dead *)

(** X8.  On a reachable pool [mark_circuit_dead] is idempotent: marking
    the same id again changes nothing. *)
Theorem mark_circuit_dead_idempotent (cid : string) (m : TorManager)
  (w : World) :
  unique_ids -> reachable m w ->
  mark_circuit_dead cid (mark_circuit_dead cid m) = mark_circuit_dead cid m.
Proof.
  intros Huniq Hreach.
  destruct (reachable_inv _ _ Huniq Hreach) as (Hwf & _).
  pose proof (wf_nodup _ _ Hwf) as Hnd.
  unfold mark_circuit_dead at 2 3.
  destruct (dict_get (circuits m) cid) as [c|] eqn:Hget.
  2:{ unfold mark_circuit_dead. now rewrite Hget. }
  assert (Hgone : forall act, ~ In cid act ->
            mark_circuit_dead cid
              (with_active
                 (with_circuits m
                    (dict_set (circuits m) cid (set_state c DEAD))) act)
            = with_active
                (with_circuits m
                   (dict_set (circuits m) cid (set_state c DEAD))) act).
  { intros act Hnot. unfold mark_circuit_dead. simpl.
    rewrite dict_get_set_same. simpl.
    destruct (list_in cid act) eqn:Hmem.
    - apply list_in_In in Hmem. contradiction.
    - unfold with_circuits, with_active, set_state. simpl.
      now rewrite dict_set_twice. }
  simpl. destruct (list_in cid (active_circuits m)) eqn:Hmem.
  - apply Hgone. now apply list_remove_gone.
  - apply (Hgone (active_circuits m)). intros Hin.
    apply list_in_In in Hin. congruence.
Qed.

(** X9.  On a reachable pool [mark_circuit_dead] of a registered id
    retires that circuit and nothing else: its record stays, [DEAD]; the
    id leaves the active list; every other record, the membership of
    every other id in the active list, the order of the registry and the
    session cache are unchanged. *)
Theorem mark_circuit_dead_retires_one (cid : string) (c : Circuit)
  (m : TorManager) (w : World) :
  unique_ids -> reachable m w ->
  dict_get (circuits m) cid = Some c ->
  dict_get (circuits (mark_circuit_dead cid m)) cid
  = Some (set_state c DEAD) /\
  ~ In cid (active_circuits (mark_circuit_dead cid m)) /\
  (forall k, k <> cid ->
     dict_get (circuits (mark_circuit_dead cid m)) k
     = dict_get (circuits m) k) /\
  (forall x, x <> cid ->
     (In x (active_circuits (mark_circuit_dead cid m))
      <-> In x (active_circuits m))) /\
  dict_keys (circuits (mark_circuit_dead cid m)) = dict_keys (circuits m) /\
  session_cache (mark_circuit_dead cid m) = session_cache m.
Proof.
  intros Huniq Hreach Hget.
  destruct (reachable_inv _ _ Huniq Hreach) as (Hwf & _).
  destruct (mark_dead_ok cid m w Hwf)
    as (_ & Hsess & Hsub & Hkeep & _ & Hdead & _).
  split; [auto|]. split.
  { intros Hin. destruct (Hsub _ Hin) as (_ & Hne). now apply Hne. }
  split.
  { intros k Hk. unfold mark_circuit_dead. rewrite Hget.
    destruct (list_in cid _); simpl; now apply dict_get_set_other. }
  split.
  { intros x Hx. split; [intros Hin; now apply Hsub | auto]. }
  split; [|exact Hsess].
  unfold mark_circuit_dead. rewrite Hget.
  destruct (list_in cid _); simpl; now rewrite dict_keys_set, Hget.
Qed.

(** ** What cleanup retires and what it spares *)

Lemma now_tick (w : World) : clock_monotone -> now w <= now (tick w).
Proof. intros Hmono. apply now_mono; auto using world_le_tick. Qed.

Lemma cleanup_loop_expiry (lt : Z) (d : dict Circuit) :
  forall w d' dead w',
    clock_monotone ->
    cleanup_loop lt d w = (d', dead, w') ->
    forall k c t0,
      dict_get d k = Some c -> t0 <= now w -> t0 - created_at c > lt ->
      exists c', dict_get d' k = Some c' /\ state c' = DEAD /\ In k dead.
Proof.
  induction d as [|[k0 c0] rest IH];
    intros w d' dead w' Hmono Hloop k c t0 Hget Ht0 Hold;
    simpl in Hloop, Hget; [discriminate|].
  pose proof (now_tick w Hmono) as Htick.
  destruct (CircuitState_eqb (state c0) DEAD) eqn:Hdead;
    [| destruct (Z.gtb_spec (now w - created_at c0) lt) as [Hage|Hage];
       [| destruct (request_count c0 >? 100) eqn:Hcnt]];
    match type of Hloop with
    | context [cleanup_loop lt rest ?w1] =>
        destruct (cleanup_loop lt rest w1) as [[rest' dead'] w''] eqn:Hrec
    end;
    injection Hloop as <- <- <-; simpl;
    (destruct (String.eqb_spec k0 k) as [->|Hne];
     [ injection Hget as <-
     | edestruct (IH _ _ _ _ Hmono Hrec k c t0) as (c' & H1 & H2 & H3);
       eauto; try lia; exists c'; simpl; auto ]).
  - apply CircuitState_eqb_eq in Hdead. exists c0. simpl; auto.
  - exists (set_state c0 DEAD). simpl; auto.
  - lia.
  - lia.
Qed.

Lemma cleanup_loop_spare (lt : Z) (d : dict Circuit) :
  forall w d' dead w',
    clock_monotone ->
    cleanup_loop lt d w = (d', dead, w') ->
    forall k c,
      dict_get d k = Some c -> state c <> DEAD ->
      now w' - created_at c <= lt ->
      dict_get d' k
      = Some (if request_count c >? 100 then set_state c DEGRADED else c).
Proof.
  induction d as [|[k0 c0] rest IH];
    intros w d' dead w' Hmono Hloop k c Hget Hlive Hyoung;
    simpl in Hloop, Hget; [discriminate|].
  destruct (CircuitState_eqb (state c0) DEAD) eqn:Hdead;
    [| destruct (Z.gtb_spec (now w - created_at c0) lt) as [Hage|Hage];
       [| destruct (request_count c0 >? 100) eqn:Hcnt]];
    match type of Hloop with
    | context [cleanup_loop lt rest ?w1] =>
        destruct (cleanup_loop lt rest w1) as [[rest' dead'] w''] eqn:Hrec
    end;
    injection Hloop as <- <- <-; simpl;
    destruct (cleanup_loop_world _ _ _ _ _ _ Hrec) as (Hw & _);
    (destruct (String.eqb_spec k0 k) as [->|Hne];
     [ injection Hget as <- | eapply IH; eauto ]).
  - apply CircuitState_eqb_eq in Hdead. contradiction.
  - assert (now w <= now w'').
    { apply now_mono; [exact Hmono|].
      eapply world_le_trans; [apply world_le_tick | exact Hw]. }
    lia.
  - now rewrite Hcnt.
  - now rewrite Hcnt.
Qed.

Lemma cleanup_registry_shape (m : TorManager) (w : World) (m' : TorManager)
  (w' : World) :
  _cleanup_circuits m w = (m', w') ->
  forall k,
    match dict_get (circuits m) k with
    | None => dict_get (circuits m') k = None
    | Some c => exists s, dict_get (circuits m') k = Some (set_state c s)
    end.
Proof.
  unfold _cleanup_circuits.
  destruct (cleanup_loop (circuit_lifetime m) (circuits m) (tick w))
    as [[regs dead] w1] eqn:Hloop.
  intros [= <- <-] k. simpl.
  destruct (cleanup_loop_shape _ _ _ _ _ _ Hloop) as (HF & _).
  pose proof (Forall2_dict_get
                (fun c c' => exists s, c' = set_state c s)
                (circuits m) regs) as Hget.
  assert (HF' : Forall2 (fun e e' => fst e' = fst e /\
                   exists s, snd e' = set_state (snd e) s)
                  (circuits m) regs).
  { eapply Forall2_impl; [|exact HF].
    intros e e' (He & s & Hs & _). eauto. }
  specialize (Hget HF' k).
  destruct (dict_get (circuits m) k); [|exact Hget].
  destruct Hget as (c' & Hc' & s & ->). eauto.
Qed.

(** X10.  With a clock that does not run backwards, [_cleanup_circuits]
    on a reachable pool retires every circuit that is older than
    [circuit_lifetime] when the cleanup starts: afterwards its record is
    [DEAD] and its id is off the active list. *)
Theorem cleanup_expires_old_circuits (m : TorManager) (w : World)
  (m' : TorManager) (w' : World) (cid : string) (c : Circuit) :
  unique_ids -> clock_monotone -> reachable m w ->
  _cleanup_circuits m w = (m', w') ->
  dict_get (circuits m) cid = Some c ->
  now w - created_at c > circuit_lifetime m ->
  exists c',
    dict_get (circuits m') cid = Some c' /\ state c' = DEAD /\
    ~ In cid (active_circuits m').
Proof.
  intros Huniq Hmono Hreach Hclean Hget Hold.
  destruct (reachable_inv _ _ Huniq Hreach) as (Hwf & _).
  destruct (cleanup_ok _ _ _ _ Hwf Hclean) as (_ & Halive & _).
  revert Hclean Halive. unfold _cleanup_circuits.
  destruct (cleanup_loop (circuit_lifetime m) (circuits m) (tick w))
    as [[regs dead] w1] eqn:Hloop.
  intros [= <- <-] Halive.
  destruct (cleanup_loop_expiry _ _ _ _ _ _ Hmono Hloop cid c (now w) Hget)
    as (c' & Hc' & Hs & _); [now apply now_tick | exact Hold |].
  exists c'. split; [exact Hc'|]. split; [exact Hs|].
  intros Hin. destruct (Halive _ Hin) as (c2 & Hc2 & Hlive).
  simpl in Hc2. congruence.
Qed.

(** X11.  With a clock that does not run backwards, [_cleanup_circuits]
    on a reachable pool spares every live circuit that is still within
    [circuit_lifetime] when the cleanup ends: it stays on the active
    list, and its record is unchanged but for the state [DEGRADED] that
    a [request_count] above 100 earns it. *)
Theorem cleanup_spares_young_circuits (m : TorManager) (w : World)
  (m' : TorManager) (w' : World) (cid : string) (c : Circuit) :
  unique_ids -> clock_monotone -> reachable m w ->
  _cleanup_circuits m w = (m', w') ->
  dict_get (circuits m) cid = Some c ->
  state c <> DEAD ->
  now w' - created_at c <= circuit_lifetime m ->
  dict_get (circuits m') cid
  = Some (if request_count c >? 100 then set_state c DEGRADED else c) /\
  In cid (active_circuits m').
Proof.
  intros Huniq Hmono Hreach Hclean Hget Hlive Hyoung.
  destruct (reachable_inv _ _ Huniq Hreach) as (Hwf & _).
  pose proof (reachable_reg_inv _ _ Huniq Hreach) as Hinv.
  destruct (cleanup_more _ _ _ _ Hwf Hclean) as (_ & _ & Hinv').
  specialize (Hinv' Hinv).
  assert (Hc' : dict_get (circuits m') cid
                = Some (if request_count c >? 100
                        then set_state c DEGRADED else c)).
  { revert Hclean. unfold _cleanup_circuits.
    destruct (cleanup_loop (circuit_lifetime m) (circuits m) (tick w))
      as [[regs dead] w1] eqn:Hloop.
    intros [= <- <-]. simpl.
    eapply cleanup_loop_spare; eauto. }
  split; [exact Hc'|].
  apply (ri_live _ Hinv'). eexists. split; [exact Hc'|].
  destruct (request_count c >? 100); simpl; [discriminate | exact Hlive].
Qed.

(** ** What one acquisition does *)

Lemma create_new_cases (m : TorManager) (w : World)
  (r : outcome (option Circuit)) (m' : TorManager) (w' : World) :
  unique_ids -> wf m w ->
  create_new m w = (r, m', w') ->
  (r = Return None /\ m' = m) \/
  (exists cid cnew,
     dict_get (circuits m) cid = None /\
     (forall k, k <> cid ->
        dict_get (circuits m') k = dict_get (circuits m) k) /\
     dict_get (circuits m') cid = Some cnew /\ id cnew = cid /\
     ((r = Return None /\ request_count cnew = 0) \/
      (r = Return (Some cnew) /\ request_count cnew = 1))).
Proof.
  intros Huniq Hwf. unfold create_new.
  destruct (Z.of_nat (List.length (active_circuits m)) <? max_circuits m).
  2:{ intros [= <- <- <-]. auto. }
  destruct (_create_circuit m w) as [[r1 m1] w1] eqn:Hcreate.
  destruct (create_circuit_ok _ _ _ _ _ Huniq Hwf Hcreate)
    as (_ & _ & _ & Hres).
  destruct (create_circuit_cases _ _ _ _ _ Hcreate)
    as [(-> & -> & _) | (cid & path & -> & _ & Hm1 & _)].
  { intros [= <- <- <-]. auto. }
  destruct Hres as (_ & Hfresh & c & Hget & _ & Hcnt & Hid & _).
  assert (Hother : forall k, k <> cid ->
            dict_get (circuits m1) k = dict_get (circuits m) k).
  { intros k Hk. rewrite Hm1. simpl. now apply dict_get_set_other. }
  destruct (truthy cid).
  - rewrite Hget. intros [= <- <- <-]. right.
    exists cid, (set_last_used (set_request_count c 1) (now w1)).
    split; [exact Hfresh|]. split.
    { intros k Hk. simpl. rewrite dict_get_set_other; auto. }
    split; [simpl; apply dict_get_set_same|]. split; [exact Hid|].
    right. auto.
  - intros [= <- <- <-]. right. exists cid, c.
    split; [exact Hfresh|]. split; [exact Hother|].
    split; [exact Hget|]. split; [exact Hid|]. left. auto.
Qed.

Lemma get_circuit_charge (rf : bool) (m : TorManager)
  (w : World) (c : Circuit) (m' : TorManager) (w' : World) :
  unique_ids -> reachable m w ->
  get_circuit rf m w = (Return (Some c), m', w') ->
  request_count c
  = match dict_get (circuits m) (id c) with
    | Some c0 => request_count c0 + 1
    | None => 1
    end /\
  forall k c1,
    k <> id c -> dict_get (circuits m) k = Some c1 ->
    exists s, dict_get (circuits m') k = Some (set_state c1 s).
Proof.
  intros Huniq Hreach.
  destruct (reachable_inv _ _ Huniq Hreach) as (Hwf & Hsize).
  unfold get_circuit.
  destruct (_cleanup_circuits m w) as [m1 w1] eqn:Hclean.
  destruct (cleanup_ok _ _ _ _ Hwf Hclean) as (Hstep1 & _ & Hlen1 & _).
  pose proof (cleanup_registry_shape _ _ _ _ Hclean) as Hshape.
  pose proof (so_wf _ _ _ _ Hstep1) as Hwf1.
  assert (Hsize1 : size_ok m1)
    by (eapply size_ok_shrink; eauto using so_cfg).
  (* a stamp on a circuit of the cleaned pool, or of that pool extended
     by one new record *)
  assert (Hstamp : forall m3 cid c0 t,
            (forall k, dict_get (circuits m1) k <> None ->
                       dict_get (circuits m3) k = dict_get (circuits m1) k) ->
            (dict_get (circuits m1) cid = None -> request_count c0 = 0) ->
            dict_get (circuits m3) cid = Some c0 ->
            id c0 = cid ->
            let c' := set_last_used
                        (set_request_count c0 (request_count c0 + 1)) t in
            (request_count c'
             = match dict_get (circuits m) (id c') with
               | Some cm => request_count cm + 1
               | None => 1
               end) /\
            forall k c1,
              k <> id c' -> dict_get (circuits m) k = Some c1 ->
              exists s, dict_get (circuits (touch m3 cid c')) k
                        = Some (set_state c1 s)).
  { intros m3 cid c0 t Hkeep Hnew Hget3 Hid. simpl. rewrite Hid. split.
    - pose proof (Hshape cid) as Hs.
      destruct (dict_get (circuits m) cid) as [cm|] eqn:Hcm.
      + destruct Hs as (s & Hs). rewrite Hkeep in Hget3 by congruence.
        rewrite Hs in Hget3. injection Hget3 as <-. reflexivity.
      + rewrite (Hnew Hs). reflexivity.
    - intros k c1 Hk Hc1. rewrite dict_get_set_other by auto.
      pose proof (Hshape k) as Hs. rewrite Hc1 in Hs.
      destruct Hs as (s & Hs). exists s.
      rewrite Hkeep by congruence. exact Hs. }
  destruct (find_healthy rf (active_circuits m1) m1 w1)
    as [[r2 m2] w2] eqn:Hfind.
  destruct (find_healthy_ok _ _ _ _ _ _ Hwf1 Hfind)
    as (Hstep2 & Hact2 & _ & _ & Hres2).
  destruct (find_healthy_cases _ _ _ _ _ _ _ Hfind) as (_ & Hcases).
  destruct Hcases as [(-> & ->) | [(k & -> & _) | Hsel]].
  - (* nothing healthy: create, or recycle *)
    destruct (create_new m1 w2) as [[r3 m3] w3] eqn:Hnew.
    pose proof (so_wf _ _ _ _ Hstep2) as Hwf2.
    destruct (create_new_ok _ _ _ _ _ Huniq Hwf2 Hsize1 Hnew)
      as (Hstep3 & _).
    pose proof (so_wf _ _ _ _ Hstep3) as Hwf3.
    destruct (create_new_cases _ _ _ _ _ Huniq Hwf2 Hnew)
      as [(-> & ->) | (cid & cnew & Hfresh & Hother & Hgetn & Hidn & Hr3)].
    + intros Hrec.
      assert (Hne : active_circuits m1 <> []).
      { intros Hnil. unfold recycle_oldest in Hrec. rewrite Hnil in Hrec.
        discriminate. }
      destruct (recycle_cases _ _ _ _ _ Hwf3 Hne Hrec)
        as (pre & oldest & post & c0 & kr & _ & Hget0 & _ & _ & _
            & Hr & -> & _).
      injection Hr as ->.
      destruct (wf_reg _ _ Hwf3 _ _ Hget0) as (Hid0 & _).
      apply (Hstamp m1 oldest c0 (now w3)); auto. congruence.
    + destruct Hr3 as [(-> & Hcnt0) | (-> & Hcnt1)].
      * intros Hrec.
        assert (Hne : active_circuits m3 <> []).
        { intros Hnil. unfold recycle_oldest in Hrec. rewrite Hnil in Hrec.
          discriminate. }
        destruct (recycle_cases _ _ _ _ _ Hwf3 Hne Hrec)
          as (pre & oldest & post & c0 & kr & _ & Hget0 & _ & _ & _
              & Hr & -> & _).
        injection Hr as ->.
        destruct (wf_reg _ _ Hwf3 _ _ Hget0) as (Hid0 & _).
        apply (Hstamp m3 oldest c0 (now w3)); auto.
        -- intros k Hk. apply Hother. intros ->. contradiction.
        -- intros Hnone.
           destruct (String.eqb_spec oldest cid) as [->|Hdiff];
             [congruence|].
           rewrite Hother in Hget0 by auto. congruence.
      * intros [= <- <- <-]. split.
        -- rewrite Hidn, Hcnt1. pose proof (Hshape cid) as Hs.
           destruct (dict_get (circuits m) cid); [|reflexivity].
           destruct Hs as (s & Hs). congruence.
        -- intros k c1 Hk Hc1. rewrite Hidn in Hk.
           rewrite Hother by auto. pose proof (Hshape k) as Hs.
           rewrite Hc1 in Hs. exact Hs.
  - discriminate.
  - destruct Hsel as (cid & c0 & w0 & _ & Hget0 & _ & _ & _ & _ & _
                      & -> & ->).
    intros [= <- <- <-].
    destruct (wf_reg _ _ Hwf1 _ _ Hget0) as (Hid0 & _).
    destruct (Hstamp m1 cid c0 (now w0)) as (Hcount & Hrest); auto;
      [congruence|].
    simpl in Hcount, Hrest. simpl. split; [exact Hcount|].
    intros k c1 Hk Hc1. destruct (Hrest k c1 Hk Hc1) as (s & Hs).
    rewrite dict_get_set_other in Hs by (rewrite <- Hid0; auto).
    exists s. rewrite dict_get_set_other by (rewrite <- Hid0; auto).
    exact Hs.
Qed.

(** X12.  An acquisition charges exactly one circuit.  When [get_circuit]
    returns a circuit on a reachable pool, that circuit's
    [request_count] is one more than before the call (it is 1 for a
    circuit created by the call), and every other record of the pool is
    what it was, but for the state that cleanup may have moved on. *)
Theorem acquisition_charges_one_circuit (rf : bool) (m : TorManager)
  (w : World) (c : Circuit) (m' : TorManager) (w' : World) :
  unique_ids -> reachable m w ->
  get_circuit rf m w = (Return (Some c), m', w') ->
  request_count c
  = match dict_get (circuits m) (id c) with
    | Some c0 => request_count c0 + 1
    | None => 1
    end /\
  forall k c1,
    k <> id c -> dict_get (circuits m) k = Some c1 ->
    exists s, dict_get (circuits m') k = Some (set_state c1 s).
Proof. apply get_circuit_charge. Qed.

(** X13.  On a reachable pool [get_circuit] raises nothing.  A circuit it
    returns is registered under its id, on the active list, with
    [last_used] set and [request_count] at least 1; it returns [None]
    only when the active list is left empty. *)
Theorem get_circuit_outcomes (rf : bool) (m : TorManager) (w : World)
  (r : outcome (option Circuit)) (m' : TorManager) (w' : World) :
  unique_ids -> reachable m w ->
  get_circuit rf m w = (r, m', w') ->
  match r with
  | Return (Some c) =>
      dict_get (circuits m') (id c) = Some c /\
      In (id c) (active_circuits m') /\
      1 <= request_count c /\ last_used c <> None
  | Return None => active_circuits m' = []
  | Raise _ => False
  end.
Proof.
  intros Huniq Hreach Hget.
  destruct (reachable_inv _ _ Huniq Hreach) as (Hwf & Hsize).
  pose proof (reachable_reg_inv _ _ Huniq Hreach) as Hinv.
  destruct (get_circuit_ok _ _ _ _ _ _ Huniq Hwf Hsize Hget)
    as (_ & _ & _ & _ & Hres).
  destruct r as [[c|]|e]; auto.
  destruct Hres as (_ & Hreg & Hin).
  destruct (get_circuit_more _ _ _ _ _ _ Huniq Hwf Hsize Hget)
    as (_ & _ & Hinv').
  destruct (ri_used _ (Hinv' Hinv) _ _ Hreg) as (Hpos & Hiff).
  destruct (get_circuit_charge _ _ _ _ _ _ Huniq Hreach Hget) as (Hcnt & _).
  assert (1 <= request_count c).
  { destruct (dict_get (circuits m) (id c)) as [c0|] eqn:Hc0; [|lia].
    destruct (ri_used _ Hinv _ _ Hc0). lia. }
  repeat split; auto. intros Hnone. apply Hiff in Hnone. lia.
Qed.

(** X14.  On a reachable pool [get_http_session] fails in one way only:
    without a circuit given, when the pool is exhausted, with
    [RuntimeError("No available circuits")]; the active list is then
    empty and the session cache untouched. *)
Theorem get_http_session_fails_only_when_exhausted
  (circuit : option Circuit) (m : TorManager) (w : World) (e : exn)
  (acq : option Circuit) (m' : TorManager) (w' : World) :
  unique_ids -> reachable m w ->
  get_http_session circuit m w = (Raise e, acq, m', w') ->
  circuit = None /\ e = RuntimeError "No available circuits" /\
  acq = None /\ active_circuits m' = [] /\
  session_cache m' = session_cache m.
Proof.
  intros Huniq Hreach. unfold get_http_session.
  destruct (reachable_inv _ _ Huniq Hreach) as (Hwf & Hsize).
  destruct circuit as [c|].
  - destruct (bind_session (id c) m w) as [[s m1] w1]. discriminate.
  - destruct (get_circuit false m w) as [[r m1] w1] eqn:Hget.
    destruct (get_circuit_ok _ _ _ _ _ _ Huniq Hwf Hsize Hget)
      as (_ & _ & Hsess & _ & Hres).
    destruct r as [[c|]|e0]; [| |contradiction].
    + destruct (bind_session (id c) m1 w1) as [[s m2] w2]. discriminate.
    + intros [= <- <- <- <-]. auto.
Qed.

(** X15.  [get_browser] never touches the session cache, and with a
    circuit given it leaves the whole manager as it is.  On a reachable
    pool a call ends in one of three ways.  The driver starts: it is
    headless, uses the SOCKS proxy at [127.0.0.1] on the manager's
    [socks_port] with remote DNS, one of the three user agents, and logs
    to [/dev/null].  The launch of the driver raises: the exception
    reaches the caller as it is.  Or [RuntimeError("No available
    circuits")] is raised, which happens only when no circuit was given
    and the pool is exhausted, and before any launch.  A call without a
    circuit that gets as far as the launch has acquired a live circuit
    of the registry, whether the launch succeeds or not. *)
Theorem get_browser_outcomes (launch : launch_reply)
  (circuit : option Circuit) (m : TorManager) (w : World)
  (r : browser_outcome) (acq : option Circuit)
  (m' : TorManager) (w' : World) :
  unique_ids -> reachable m w ->
  get_browser launch circuit m w = (r, acq, m', w') ->
  session_cache m' = session_cache m /\
  (circuit <> None -> m' = m /\ acq = None) /\
  match r with
  | BrowserReturn b =>
      launch = DriverStarted /\
      browser_proxy_type b = 1 /\
      browser_socks_host b = "127.0.0.1"%string /\
      browser_socks_port b = socks_port m /\
      browser_remote_dns b = true /\
      browser_javascript b = true /\
      browser_log_driver b = "off"%string /\
      In (browser_user_agent b) user_agents /\
      browser_headless b = true /\
      browser_log_path b = "/dev/null"%string
  | BrowserLaunchRaise msg => launch = DriverError msg
  | BrowserRaise e =>
      circuit = None /\ acq = None /\
      e = RuntimeError "No available circuits" /\
      active_circuits m' = []
  end /\
  (circuit = None ->
   (forall e, r <> BrowserRaise e) ->
   exists c, acq = Some c /\ state c <> DEAD /\
             dict_get (circuits m') (id c) = Some c /\
             In (id c) (active_circuits m')).
Proof.
  intros Huniq Hreach. unfold get_browser.
  destruct (reachable_inv _ _ Huniq Hreach) as (Hwf & Hsize).
  destruct circuit as [c|].
  - pose proof (random_user_agent_in w) as Hua.
    destruct (_get_random_user_agent w) as [ua w1]. simpl in Hua.
    intros [= <- <- <- <-].
    split; [reflexivity|]. split; [auto|].
    split; [|discriminate].
    destruct launch as [|msg]; simpl; [|reflexivity].
    repeat split; auto.
  - destruct (get_circuit false m w) as [[r1 m1] w1] eqn:Hget.
    destruct (get_circuit_ok _ _ _ _ _ _ Huniq Hwf Hsize Hget)
      as (Hstep & _ & Hsess & _ & Hres).
    destruct r1 as [[c|]|e0]; [| |contradiction].
    + pose proof (random_user_agent_in w1) as Hua.
      destruct (_get_random_user_agent w1) as [ua w2]. simpl in Hua.
      intros [= <- <- <- <-].
      destruct (so_cfg _ _ _ _ Hstep) as (Hport & _).
      split; [exact Hsess|]. split; [congruence|].
      split.
      * destruct launch as [|msg]; simpl; [|reflexivity].
        repeat split; auto.
      * intros _ _. exists c. destruct Hres as (Hst & Hreg & Hin).
        repeat split; auto.
    + intros [= <- <- <- <-]. split; [exact Hsess|].
      split; [congruence|]. split; [repeat split; auto|].
      intros _ Hr. exfalso. eapply Hr. reflexivity.
Qed.

(** ** Bootstrap and rotation *)

Lemma create_many_new (n : nat) :
  forall m w m' w',
    unique_ids -> wf m w ->
    create_many n m w = (m', w') ->
    exists created,
      active_circuits m' = active_circuits m ++ created /\
      dict_keys (circuits m') = dict_keys (circuits m) ++ created /\
      (List.length created <= n)%nat /\
      ctl_calls w' = (ctl_calls w + n)%nat /\
      (forall k c, dict_get (circuits m) k = Some c ->
                   dict_get (circuits m') k = Some c) /\
      (forall cid, In cid created ->
         dict_get (circuits m) cid = None /\
         exists c, dict_get (circuits m') cid = Some c /\ unused c /\
                   id c = cid).
Proof.
  induction n as [|n IH]; intros m w m' w' Huniq Hwf; simpl.
  - intros [= <- <-]. exists []. rewrite !app_nil_r.
    split; [reflexivity|]. split; [reflexivity|].
    split; [simpl; lia|]. split; [lia|]. split; [auto|]. intros ? [].
  - destruct (_create_circuit m w) as [[r m1] w1] eqn:Hcreate.
    intros Hmany.
    destruct (create_circuit_ok _ _ _ _ _ Huniq Hwf Hcreate)
      as (Hstep & _ & _ & Hres).
    pose proof (create_circuit_ctl _ _ _ _ _ Hcreate) as Hctl.
    destruct (IH _ _ _ _ Huniq (so_wf _ _ _ _ Hstep) Hmany)
      as (cr & Hact & Hkeys & Hlen & Hcalls & Hold & Hnew).
    destruct (create_circuit_cases _ _ _ _ _ Hcreate)
      as [(-> & -> & _) | (cid & path & -> & _ & Hm1 & _)].
    + exists cr. simpl in Hcalls, Hctl.
      split; [exact Hact|]. split; [exact Hkeys|].
      split; [lia|]. split; [lia|]. split; [exact Hold | exact Hnew].
    + destruct Hres as (Hact1 & Hfresh & c & Hget & Hst & Hcnt & Hid & _
                        & Hlu).
      assert (Hother : forall k, k <> cid ->
                dict_get (circuits m1) k = dict_get (circuits m) k).
      { intros k Hk. rewrite Hm1. simpl. now apply dict_get_set_other. }
      exists (cid :: cr).
      split; [rewrite Hact, Hact1, <- app_assoc; reflexivity|].
      split.
      { rewrite Hkeys, Hm1. simpl. rewrite dict_keys_set, Hfresh.
        now rewrite <- app_assoc. }
      split; [simpl; lia|]. split; [lia|]. split.
      * intros k c0 Hk. apply Hold. rewrite Hother; auto. congruence.
      * intros x [<-|Hx].
        -- split; [exact Hfresh|]. exists c.
           split; [auto|]. unfold unused. auto.
        -- destruct (Hnew _ Hx) as (Hnone & Hc). split; [|exact Hc].
           destruct (String.eqb_spec x cid) as [->|Hne]; [congruence|].
           rewrite <- Hother; auto.
Qed.


Lemma mark_all_keys (ks : list string) :
  forall m,
    dict_keys (circuits (fold_left
                 (fun acc cid => mark_circuit_dead cid acc) ks m))
    = dict_keys (circuits m).
Proof.
  induction ks as [|k ks IH]; intros m; simpl; [reflexivity|].
  rewrite IH. unfold mark_circuit_dead.
  destruct (dict_get (circuits m) k) as [c|] eqn:Hget; [|reflexivity].
  destruct (list_in k _); simpl; now rewrite dict_keys_set, Hget.
Qed.

(** X17.  After [rotate_all_circuits] on a reachable pool the active list
    holds only circuits created by the rotation, unknown before, [FRESH]
    and unused; the old records stay in the registry, ahead of the new
    ones; and the control channel was asked for exactly
    [max(0, min(3, max_circuits))] circuits. *)
Theorem rotation_installs_new_circuits (m : TorManager) (w : World)
  (m' : TorManager) (w' : World) :
  unique_ids -> reachable m w ->
  rotate_all_circuits m w = (m', w') ->
  dict_keys (circuits m') = dict_keys (circuits m) ++ active_circuits m' /\
  (forall cid, In cid (active_circuits m') ->
     dict_get (circuits m) cid = None /\
     exists c, dict_get (circuits m') cid = Some c /\ state c = FRESH /\
               request_count c = 0 /\ last_used c = None) /\
  ctl_calls w' = (ctl_calls w + Z.to_nat (Z.min 3 (max_circuits m)))%nat.
Proof.
  intros Huniq Hreach.
  destruct (reachable_inv _ _ Huniq Hreach) as (Hwf & _).
  unfold rotate_all_circuits, _initialize_circuits.
  destruct (mark_all_ok (dict_keys (circuits m)) m w Hwf)
    as (Hstep1 & _ & Hsub1 & _).
  pose proof (mark_all_keys (dict_keys (circuits m)) m) as Hkeys1.
  set (m1 := fold_left (fun acc cid => mark_circuit_dead cid acc)
                       (dict_keys (circuits m)) m) in *.
  assert (Hnil : active_circuits m1 = []).
  { destruct (active_circuits m1) as [|x l] eqn:Hact; [reflexivity|].
    destruct (Hsub1 x) as (Hx & Hnk); [simpl; auto|].
    exfalso. apply Hnk. apply dict_get_keys. now apply (wf_active _ _ Hwf). }
  assert (Hwf1 : wf (with_sessions m1 []) w).
  { destruct Hstep1 as [[Hnd Ha Hr] _ _ _]. constructor; auto. }
  assert (Hmax : max_circuits (with_sessions m1 []) = max_circuits m).
  { apply (so_cfg _ _ _ _ Hstep1). }
  simpl. intros Hmany.
  change (max_circuits m1) with (max_circuits (with_sessions m1 [])) in Hmany.
  rewrite Hmax in Hmany.
  destruct (create_many_new _ _ _ _ _ Huniq Hwf1 Hmany)
    as (cr & Hact & Hkeys & _ & Hcalls & _ & Hnew).
  simpl in Hact, Hkeys. rewrite Hnil in Hact. simpl in Hact.
  rewrite Hact. split; [congruence|]. split; [|exact Hcalls].
  intros cid Hin. destruct (Hnew _ Hin) as (Hnone & c & Hc & Hun & _).
  split.
  - simpl in Hnone.
    destruct (dict_get (circuits m) cid) eqn:Hget; [|reflexivity].
    exfalso. assert (Hk : In cid (dict_keys (circuits m1))).
    { rewrite Hkeys1. apply dict_get_keys. congruence. }
    apply dict_get_keys in Hk. contradiction.
  - exists c. split; [exact Hc | exact Hun].
Qed.

(** ** [require_fresh] below capacity *)

Lemma find_healthy_counters (rf : bool) (ids : list string) (m : TorManager) :
  forall w r m' w',
    find_healthy rf ids m w = (r, m', w') ->
    ctl_calls w' = ctl_calls w /\ rnd_calls w' = rnd_calls w.
Proof.
  induction ids as [|cid rest IH]; intros w r m' w'; simpl.
  - now intros [= <- <- <-].
  - destruct (dict_get (circuits m) cid) as [c|]; [|now intros [= <- <- <-]].
    unfold is_healthy_io.
    destruct (CircuitState_eqb (state c) DEAD); [apply IH|].
    destruct (is_healthy (now w) c).
    + destruct (rf && (request_count c >? 0)).
      * intros H. apply IH in H. simpl in H. exact H.
      * now intros [= <- <- <-].
    + intros H. apply IH in H. simpl in H. exact H.
Qed.

Lemma cleanup_loop_rnd (lt : Z) (d : dict Circuit) :
  forall w d' dead w',
    cleanup_loop lt d w = (d', dead, w') -> rnd_calls w' = rnd_calls w.
Proof.
  induction d as [|[k0 c0] rest IH]; intros w d' dead w' Hloop;
    simpl in Hloop.
  - now injection Hloop as <- <- <-.
  - destruct (CircuitState_eqb (state c0) DEAD);
      [| destruct (now w - created_at c0 >? lt);
         [| destruct (request_count c0 >? 100)]];
      match type of Hloop with
      | context [cleanup_loop lt rest ?w1] =>
          destruct (cleanup_loop lt rest w1) as [[rest' dead'] w''] eqn:Hrec
      end;
      injection Hloop as <- <- <-; apply IH in Hrec; exact Hrec.
Qed.

Lemma cleanup_counters (m : TorManager) (w : World) (m' : TorManager)
  (w' : World) :
  _cleanup_circuits m w = (m', w') ->
  ctl_calls w' = ctl_calls w /\ rnd_calls w' = rnd_calls w /\
  List.length (circuits m') = List.length (circuits m).
Proof.
  unfold _cleanup_circuits.
  destruct (cleanup_loop (circuit_lifetime m) (circuits m) (tick w))
    as [[regs dead] w1] eqn:Hloop.
  intros [= <- <-].
  destruct (cleanup_loop_world _ _ _ _ _ _ Hloop) as (_ & Hctl).
  pose proof (cleanup_loop_rnd _ _ _ _ _ _ Hloop) as Hrnd.
  pose proof (cleanup_loop_keys _ _ _ _ _ _ Hloop) as Hkeys.
  apply (f_equal (@List.length string)) in Hkeys.
  unfold dict_keys in Hkeys. rewrite !length_map in Hkeys.
  simpl in *. auto.
Qed.

(** X18.  Below capacity [require_fresh] is honoured.  On a reachable pool
    whose active list is shorter than [max_circuits], when the control
    channel is ready to grant a circuit with a non-empty id,
    [get_circuit(require_fresh=True)] returns a circuit whose
    [request_count] is exactly 1: one never handed out before. *)
Theorem require_fresh_honoured_below_capacity (m : TorManager) (w : World)
  (r : outcome (option Circuit)) (m' : TorManager) (w' : World)
  (cid : string) (path : list string) :
  unique_ids -> reachable m w ->
  Z.of_nat (List.length (active_circuits m)) < max_circuits m ->
  new_circuit (ctl_calls w) = CtlOk cid path ->
  cid <> EmptyString ->
  get_circuit true m w = (r, m', w') ->
  exists c, r = Return (Some c) /\ request_count c = 1.
Proof.
  intros Huniq Hreach Hroom Hgrant Hcid.
  destruct (reachable_inv _ _ Huniq Hreach) as (Hwf & Hsize).
  pose proof (reachable_reg_inv _ _ Huniq Hreach) as Hinv.
  unfold get_circuit.
  destruct (_cleanup_circuits m w) as [m1 w1] eqn:Hclean.
  destruct (cleanup_ok _ _ _ _ Hwf Hclean) as (Hstep1 & _ & Hlen1 & _).
  destruct (cleanup_more _ _ _ _ Hwf Hclean) as (_ & _ & Hinv1).
  specialize (Hinv1 Hinv).
  destruct (cleanup_counters _ _ _ _ Hclean) as (Hctl1 & _).
  destruct (find_healthy true (active_circuits m1) m1 w1)
    as [[r2 m2] w2] eqn:Hfind.
  destruct (find_healthy_counters _ _ _ _ _ _ _ Hfind) as (Hctl2 & _).
  destruct (find_healthy_ok _ _ _ _ _ _ (so_wf _ _ _ _ Hstep1) Hfind)
    as (_ & _ & _ & _ & Hres2).
  destruct (find_healthy_cases _ _ _ _ _ _ _ Hfind) as (_ & Hcases).
  destruct Hcases as [(-> & ->) | [(k & -> & _) | Hsel]];
    [| contradiction |].
  - unfold create_new.
    destruct (Z.ltb_spec (Z.of_nat (List.length (active_circuits m1)))
                         (max_circuits m1)) as [_|Hfull].
    2:{ destruct (so_cfg _ _ _ _ Hstep1) as (_ & _ & Hmax & _). lia. }
    unfold _create_circuit. rewrite Hctl2, Hctl1, Hgrant. simpl.
    unfold truthy. destruct (String.eqb_spec cid EmptyString);
      [contradiction|]. simpl.
    rewrite dict_get_set_same. intros [= <- <- <-].
    eexists. split; [reflexivity|]. reflexivity.
  - destruct Hsel as (k & c0 & w0 & _ & Hget0 & _ & _ & Hzero & _ & _
                      & -> & ->).
    intros [= <- <- <-]. eexists. split; [reflexivity|]. simpl.
    destruct (ri_used _ Hinv1 _ _ Hget0) as (Hpos & _).
    specialize (Hzero eq_refl). lia.
Qed.

(** ** One acquisition, at most one creation *)

Lemma dict_set_length {V : Type} (d : dict V) (k : string) (v : V) :
  List.length (dict_set d k v)
  = match dict_get d k with
    | Some _ => List.length d
    | None => S (List.length d)
    end.
Proof.
  pose proof (dict_keys_set d k v) as H.
  apply (f_equal (@List.length string)) in H. unfold dict_keys in H.
  rewrite length_map in H. rewrite H.
  destruct (dict_get d k); rewrite ?length_app, length_map; simpl; lia.
Qed.

(** X19.  One call of [get_circuit], whatever the pool, asks the control
    channel for at most one circuit, adds at most one record to the
    registry and removes none, and draws no user agent: there is no retry
    inside the manager. *)
Theorem acquisition_creates_at_most_one (rf : bool) (m : TorManager)
  (w : World) (r : outcome (option Circuit)) (m' : TorManager)
  (w' : World) :
  get_circuit rf m w = (r, m', w') ->
  (ctl_calls w <= ctl_calls w' <= ctl_calls w + 1)%nat /\
  (List.length (circuits m) <= List.length (circuits m')
   <= List.length (circuits m) + 1)%nat /\
  rnd_calls w' = rnd_calls w.
Proof.
  unfold get_circuit.
  destruct (_cleanup_circuits m w) as [m1 w1] eqn:Hclean.
  destruct (cleanup_counters _ _ _ _ Hclean) as (Hc1 & Hr1 & Hl1).
  destruct (find_healthy rf (active_circuits m1) m1 w1)
    as [[r2 m2] w2] eqn:Hfind.
  destruct (find_healthy_counters _ _ _ _ _ _ _ Hfind) as (Hc2 & Hr2).
  assert (Hl2 : List.length (circuits m2) = List.length (circuits m1)).
  { destruct (find_healthy_cases _ _ _ _ _ _ _ Hfind) as (_ & Hcases).
    destruct Hcases as [(_ & ->) | [(k & _ & -> & _)
      | (cid & c & w0 & _ & Hget & _ & _ & _ & _ & _ & _ & ->)]]; auto.
    simpl. now rewrite dict_set_length, Hget. }
  assert (Hrecycle : forall m3 w3 r4 m4 w4,
            recycle_oldest m3 w3 = (r4, m4, w4) ->
            ctl_calls w4 = ctl_calls w3 /\ rnd_calls w4 = rnd_calls w3 /\
            List.length (circuits m4) = List.length (circuits m3)).
  { intros m3 w3 r4 m4 w4. unfold recycle_oldest.
    destruct (active_circuits m3) as [|x l]; [now intros [= <- <- <-]|].
    destruct (last_used_key m3 x); [|now intros [= <- <- <-]].
    destruct (min_from _ _ _ _); [|now intros [= <- <- <-]].
    destruct (dict_get (circuits m3) a) eqn:Hget;
      intros [= <- <- <-]; auto.
    simpl. now rewrite dict_set_length, Hget. }
  destruct r2 as [[c|]|e]; try (intros [= <- <- <-]; lia).
  unfold create_new.
  destruct (Z.of_nat (List.length (active_circuits m2)) <? max_circuits m2).
  2:{ intros Hrec. apply Hrecycle in Hrec. lia. }
  unfold _create_circuit.
  destruct (new_circuit (ctl_calls w2)) as [cid path|].
  - destruct (truthy cid).
    + simpl. rewrite dict_get_set_same. intros [= <- <- <-]. simpl.
      rewrite dict_set_twice, dict_set_length.
      destruct (dict_get (circuits m2) cid); lia.
    + intros Hrec. apply Hrecycle in Hrec. simpl in Hrec.
      rewrite dict_set_length in Hrec.
      destruct (dict_get (circuits m2) cid); lia.
  - intros Hrec. apply Hrecycle in Hrec. simpl in Hrec. lia.
Qed.

(** ** Falling back on recycling *)


End Extension.

(** ** The further properties on concrete pools *)

Lemma leaping_unique : @unique_ids leaping.
Proof.
  intros i j cid p q. simpl. intros [= <- _] [= H _]. now apply unary_inj.
Qed.

Lemma leaping_monotone : @clock_monotone leaping.
Proof.
  intros i j Hij. simpl.
  destruct (Nat.ltb_spec i 3), (Nat.ltb_spec j 3); lia.
Qed.


Lemma circuit_identity_is_stable_witness :
  exists c outs m' w',
    dict_get (circuits (pool_of (after calm 10 600 []))) "1" = Some c /\
    run (E:=calm)
        [OpGetCircuit false; OpMarkDead "11"; OpRotateAll; OpGetCircuit true]
        (pool_of (after calm 10 600 [])) (world_of (after calm 10 600 []))
    = (outs, m', w') /\
    exists c',
      dict_get (circuits m') "1" = Some c' /\
      id c' = id c /\ created_at c' = created_at c /\
      entry_node c' = entry_node c /\ exit_node c' = exit_node c /\
      request_count c <= request_count c' /\
      (last_used c <> None -> last_used c' <> None).
Proof.
  eexists; eexists; eexists; eexists.
  split; [vm_compute; reflexivity|].
  split; [vm_compute; reflexivity|].
  eapply (circuit_identity_is_stable (E:=calm)
            [OpGetCircuit false; OpMarkDead "11"; OpRotateAll;
             OpGetCircuit true]
            (pool_of (after calm 10 600 []))
            (world_of (after calm 10 600 []))).
  - exact calm_unique.
  - apply after_reachable.
  - vm_compute; reflexivity.
  - vm_compute; reflexivity.
Defined.

Lemma registry_only_grows_witness :
  exists outs m' w',
    run (E:=calm) [OpRotateAll; OpGetCircuit false]
        (pool_of (after calm 10 600 [])) (world_of (after calm 10 600 []))
    = (outs, m', w') /\
    (exists created,
       dict_keys (circuits m')
       = dict_keys (circuits (pool_of (after calm 10 600 []))) ++ created) /\
    total_circuits (fst (get_stats (E:=calm)
                           (pool_of (after calm 10 600 []))
                           (world_of (after calm 10 600 []))))
    <= total_circuits (fst (get_stats (E:=calm) m' w')).
Proof.
  eexists; eexists; eexists.
  split; [vm_compute; reflexivity|].
  eapply (registry_only_grows (E:=calm) [OpRotateAll; OpGetCircuit false]
            (pool_of (after calm 10 600 []))
            (world_of (after calm 10 600 []))).
  - exact calm_unique.
  - apply after_reachable.
  - vm_compute; reflexivity.
Defined.

Lemma usage_is_consistent_witness :
  exists c,
    dict_get (circuits (pool_of (after calm 10 600 [OpGetCircuit false])))
             "1" = Some c /\
    0 <= request_count c /\ (last_used c = None <-> request_count c = 0).
Proof.
  eexists. split; [vm_compute; reflexivity|].
  eapply (usage_is_consistent (E:=calm)
            (pool_of (after calm 10 600 [OpGetCircuit false]))
            (world_of (after calm 10 600 [OpGetCircuit false])) "1").
  - exact calm_unique.
  - apply after_reachable.
  - vm_compute; reflexivity.
Defined.

Lemma active_list_is_live_set_witness :
  NoDup (active_circuits (pool_of (after calm 10 600 [OpMarkDead "11"]))) /\
  forall cid,
    In cid (active_circuits (pool_of (after calm 10 600 [OpMarkDead "11"])))
    <->
    exists c,
      dict_get (circuits (pool_of (after calm 10 600 [OpMarkDead "11"]))) cid
      = Some c /\ state c <> DEAD.
Proof.
  exact (active_list_is_live_set (E:=calm)
           (pool_of (after calm 10 600 [OpMarkDead "11"]))
           (world_of (after calm 10 600 [OpMarkDead "11"]))
           calm_unique (after_reachable calm 10 600 [OpMarkDead "11"])).
Defined.

Lemma get_stats_ordered_witness :
  exists st w',
    get_stats (E:=calm)
      (pool_of (after calm 10 600 [OpGetSession None; OpMarkDead "11"]))
      (world_of (after calm 10 600 [OpGetSession None; OpMarkDead "11"]))
    = (st, w') /\
    0 <= healthy_circuits st /\
    healthy_circuits st <= stats_active_circuits st /\
    stats_active_circuits st <= total_circuits st /\
    0 <= sessions_cached st.
Proof.
  eexists; eexists. split; [vm_compute; reflexivity|].
  eapply (get_stats_ordered (E:=calm)
            (pool_of (after calm 10 600 [OpGetSession None; OpMarkDead "11"]))
            (world_of (after calm 10 600 [OpGetSession None; OpMarkDead "11"]))).
  - exact calm_unique.
  - apply after_reachable.
  - vm_compute; reflexivity.
Defined.

Lemma session_is_reused_witness :
  let m := pool_of (after calm 10 600 []) in
  let w := world_of (after calm 10 600 []) in
  let c := mkCircuit "11" FRESH 1000 0 None None None in
  exists r acq m1 w1,
    get_http_session (E:=calm) (Some c) m w = (r, acq, m1, w1) /\
    exists s,
      r = Return s /\ acq = None /\
      dict_get (session_cache m1) (id c) = Some s /\
      (forall ops outs m2 w2,
         ~ In OpRotateAll ops ->
         run (E:=calm) ops m1 w1 = (outs, m2, w2) ->
         dict_get (session_cache m2) (id c) = Some s /\
         forall c2 w3, id c2 = id c ->
           get_http_session (E:=calm) (Some c2) m2 w3
           = (Return s, None, m2, w3)) /\
      (forall k, k <> id c ->
         dict_get (session_cache m1) k = dict_get (session_cache m) k) /\
      circuits m1 = circuits m /\ active_circuits m1 = active_circuits m.
Proof.
  intros m w c. eexists; eexists; eexists; eexists.
  split; [vm_compute; reflexivity|].
  eapply (session_is_reused (E:=calm) c m w).
  - exact calm_unique.
  - apply after_reachable.
  - vm_compute; reflexivity.
Defined.

(** The session bound to ["11"] is still served after the circuit was
    marked dead, other circuits were acquired and another session was
    bound; a rotation drops it, and the next call builds a new one. *)
Lemma scenario_session_reuse :
  let c := mkCircuit "11" FRESH 1000 0 None None None in
  let X := after calm 10 600
             [OpGetSession (Some c); OpMarkDead "11"; OpGetCircuit true;
              OpCleanup; OpGetSession None] in
  dict_get (session_cache (pool_of X)) "11"
  = dict_get (session_cache
                (pool_of (after calm 10 600 [OpGetSession (Some c)]))) "11" /\
  dict_get (session_cache (pool_of X)) "11" <> None /\
  session_cache (pool_of (after calm 10 600
                   [OpGetSession (Some c); OpRotateAll])) = [].
Proof.
  intros c X. split; [vm_compute; reflexivity|].
  split; [vm_compute; discriminate | vm_compute; reflexivity].
Qed.

Lemma cached_sessions_are_configured_witness :
  exists s,
    dict_get (session_cache (pool_of (after calm 10 600 [OpGetSession None])))
             "1" = Some s /\
    proxy_port s = socks_port (pool_of (after calm 10 600 [OpGetSession None]))
    /\ In (user_agent s) user_agents.
Proof.
  eexists. split; [vm_compute; reflexivity|].
  eapply (cached_sessions_are_configured (E:=calm)
            (pool_of (after calm 10 600 [OpGetSession None]))
            (world_of (after calm 10 600 [OpGetSession None])) "1").
  - exact calm_unique.
  - apply after_reachable.
  - vm_compute; reflexivity.
Defined.

Lemma mark_circuit_dead_idempotent_witness :
  mark_circuit_dead "11"
    (mark_circuit_dead "11" (pool_of (after calm 10 600 [])))
  = mark_circuit_dead "11" (pool_of (after calm 10 600 [])).
Proof.
  exact (mark_circuit_dead_idempotent (E:=calm) "11"
           (pool_of (after calm 10 600 []))
           (world_of (after calm 10 600 []))
           calm_unique (after_reachable calm 10 600 [])).
Defined.

Lemma mark_circuit_dead_retires_one_witness :
  let m := pool_of (after calm 10 600 [OpGetSession None]) in
  let c := mkCircuit "11" FRESH 1000 0 None None None in
  dict_get (circuits (mark_circuit_dead "11" m)) "11"
  = Some (set_state c DEAD) /\
  ~ In "11"%string (active_circuits (mark_circuit_dead "11" m)) /\
  (forall k, k <> "11"%string ->
     dict_get (circuits (mark_circuit_dead "11" m)) k
     = dict_get (circuits m) k) /\
  (forall x, x <> "11"%string ->
     (In x (active_circuits (mark_circuit_dead "11" m))
      <-> In x (active_circuits m))) /\
  dict_keys (circuits (mark_circuit_dead "11" m)) = dict_keys (circuits m) /\
  session_cache (mark_circuit_dead "11" m) = session_cache m.
Proof.
  intros m c.
  eapply (mark_circuit_dead_retires_one (E:=calm) "11" c m
            (world_of (after calm 10 600 [OpGetSession None]))).
  - exact calm_unique.
  - apply after_reachable.
  - vm_compute; reflexivity.
Defined.

Lemma cleanup_expires_old_circuits_witness :
  exists m' w',
    _cleanup_circuits (E:=leaping) (pool_of (after leaping 10 600 []))
                      (world_of (after leaping 10 600 [])) = (m', w') /\
    exists c',
      dict_get (circuits m') "1" = Some c' /\ state c' = DEAD /\
      ~ In "1"%string (active_circuits m').
Proof.
  eexists; eexists. split; [vm_compute; reflexivity|].
  eapply (cleanup_expires_old_circuits (E:=leaping)
            (pool_of (after leaping 10 600 []))
            (world_of (after leaping 10 600 []))
            _ _ "1" (mkCircuit "1" FRESH 1000 0 None None None)).
  - exact leaping_unique.
  - exact leaping_monotone.
  - apply after_reachable.
  - vm_compute; reflexivity.
  - vm_compute; reflexivity.
  - vm_compute; reflexivity.
Defined.

Lemma cleanup_spares_young_circuits_witness :
  exists m' w',
    _cleanup_circuits (E:=calm) (pool_of (after calm 10 600 []))
                      (world_of (after calm 10 600 [])) = (m', w') /\
    dict_get (circuits m') "1"
    = Some (mkCircuit "1" FRESH 1000 0 None None None) /\
    In "1"%string (active_circuits m').
Proof.
  eexists; eexists. split; [vm_compute; reflexivity|].
  eapply (cleanup_spares_young_circuits (E:=calm)
            (pool_of (after calm 10 600 []))
            (world_of (after calm 10 600 []))
            _ _ "1" (mkCircuit "1" FRESH 1000 0 None None None)).
  - exact calm_unique.
  - exact calm_monotone.
  - apply after_reachable.
  - vm_compute; reflexivity.
  - vm_compute; reflexivity.
  - discriminate.
  - vm_compute. discriminate.
Defined.

Lemma acquisition_charges_one_circuit_witness :
  exists c m' w',
    get_circuit (E:=calm) false
      (pool_of (after calm 10 600 [OpGetCircuit false]))
      (world_of (after calm 10 600 [OpGetCircuit false]))
    = (Return (Some c), m', w') /\
    request_count c
    = match dict_get (circuits
                (pool_of (after calm 10 600 [OpGetCircuit false]))) (id c)
      with
      | Some c0 => request_count c0 + 1
      | None => 1
      end /\
    forall k c1,
      k <> id c ->
      dict_get (circuits (pool_of (after calm 10 600 [OpGetCircuit false]))) k
      = Some c1 ->
      exists s, dict_get (circuits m') k = Some (set_state c1 s).
Proof.
  eexists; eexists; eexists. split; [vm_compute; reflexivity|].
  eapply (acquisition_charges_one_circuit (E:=calm) false
            (pool_of (after calm 10 600 [OpGetCircuit false]))
            (world_of (after calm 10 600 [OpGetCircuit false]))).
  - exact calm_unique.
  - apply after_reachable.
  - vm_compute; reflexivity.
Defined.

Lemma get_circuit_outcomes_witness :
  exists c m' w',
    get_circuit (E:=calm) true
      (pool_of (after calm 1 600 [OpGetCircuit false]))
      (world_of (after calm 1 600 [OpGetCircuit false]))
    = (Return (Some c), m', w') /\
    dict_get (circuits m') (id c) = Some c /\
    In (id c) (active_circuits m') /\
    1 <= request_count c /\ last_used c <> None.
Proof.
  eexists; eexists; eexists. split; [vm_compute; reflexivity|].
  exact (get_circuit_outcomes (E:=calm) true
           (pool_of (after calm 1 600 [OpGetCircuit false]))
           (world_of (after calm 1 600 [OpGetCircuit false]))
           _ _ _ calm_unique
           (after_reachable calm 1 600 [OpGetCircuit false]) eq_refl).
Defined.

Lemma get_http_session_fails_only_when_exhausted_witness :
  exists e acq m' w',
    get_http_session (E:=stormy) None (pool_of (after stormy 10 600 []))
                     (world_of (after stormy 10 600 []))
    = (Raise e, acq, m', w') /\
    @None Circuit = None /\ e = RuntimeError "No available circuits" /\
    acq = None /\ active_circuits m' = [] /\
    session_cache m' = session_cache (pool_of (after stormy 10 600 [])).
Proof.
  eexists; eexists; eexists; eexists. split; [vm_compute; reflexivity|].
  eapply (get_http_session_fails_only_when_exhausted (E:=stormy) None
            (pool_of (after stormy 10 600 []))
            (world_of (after stormy 10 600 []))).
  - exact stormy_unique.
  - apply after_reachable.
  - vm_compute; reflexivity.
Defined.

Lemma get_browser_outcomes_witness :
  let m := pool_of (after calm 10 600 []) in
  let w := world_of (after calm 10 600 []) in
  exists msg acq m' w',
    get_browser (E:=calm) (DriverError "Process unexpectedly closed") None m w
    = (BrowserLaunchRaise msg, acq, m', w') /\
    session_cache m' = session_cache m /\
    (@None Circuit <> None -> m' = m /\ acq = None) /\
    DriverError "Process unexpectedly closed" = DriverError msg /\
    (@None Circuit = None ->
     (forall e, BrowserLaunchRaise msg <> BrowserRaise e) ->
     exists c, acq = Some c /\ state c <> DEAD /\
               dict_get (circuits m') (id c) = Some c /\
               In (id c) (active_circuits m')).
Proof.
  intros m w. eexists; eexists; eexists; eexists.
  split; [vm_compute; reflexivity|].
  exact (get_browser_outcomes (E:=calm)
           (DriverError "Process unexpectedly closed") None m w
           _ _ _ _ calm_unique (after_reachable calm 10 600 []) eq_refl).
Defined.

(** The three ways a call of [get_browser] ends, on concrete pools. *)
Lemma scenario_browser :
  (exists b acq m' w',
     get_browser (E:=calm) DriverStarted None
       (pool_of (after calm 10 600 [])) (world_of (after calm 10 600 []))
     = (BrowserReturn b, Some acq, m', w') /\
     id acq = "1"%string /\ request_count acq = 1 /\
     browser_socks_port b = 9050 /\ browser_headless b = true) /\
  (exists acq m' w',
     get_browser (E:=calm) (DriverError "Process unexpectedly closed") None
       (pool_of (after calm 10 600 [])) (world_of (after calm 10 600 []))
     = (BrowserLaunchRaise "Process unexpectedly closed", Some acq, m', w') /\
     dict_get (circuits m') "1" = Some acq /\ request_count acq = 1) /\
  (exists m' w',
     get_browser (E:=stormy) DriverStarted None
       (pool_of (after stormy 10 600 [])) (world_of (after stormy 10 600 []))
     = (BrowserRaise (RuntimeError "No available circuits"), None, m', w')).
Proof.
  split; [|split].
  - do 4 eexists. split; [vm_compute; reflexivity|].
    repeat split; vm_compute; reflexivity.
  - do 3 eexists. split; [vm_compute; reflexivity|].
    split; vm_compute; reflexivity.
  - do 2 eexists. vm_compute; reflexivity.
Qed.


Lemma rotation_installs_new_circuits_witness :
  exists m' w',
    rotate_all_circuits (E:=calm)
      (pool_of (after calm 10 600 [OpGetCircuit false]))
      (world_of (after calm 10 600 [OpGetCircuit false])) = (m', w') /\
    dict_keys (circuits m')
    = dict_keys (circuits (pool_of (after calm 10 600 [OpGetCircuit false])))
      ++ active_circuits m' /\
    (forall cid, In cid (active_circuits m') ->
       dict_get (circuits (pool_of (after calm 10 600 [OpGetCircuit false])))
                cid = None /\
       exists c, dict_get (circuits m') cid = Some c /\ state c = FRESH /\
                 request_count c = 0 /\ last_used c = None) /\
    ctl_calls w'
    = (ctl_calls (world_of (after calm 10 600 [OpGetCircuit false]))
       + Z.to_nat (Z.min 3 10))%nat.
Proof.
  eexists; eexists. split; [vm_compute; reflexivity|].
  eapply (rotation_installs_new_circuits (E:=calm)
            (pool_of (after calm 10 600 [OpGetCircuit false]))
            (world_of (after calm 10 600 [OpGetCircuit false]))).
  - exact calm_unique.
  - apply after_reachable.
  - vm_compute; reflexivity.
Defined.

Lemma require_fresh_honoured_below_capacity_witness :
  exists r m' w',
    get_circuit (E:=calm) true
      (pool_of (after calm 10 600
                  [OpGetCircuit true; OpGetCircuit true; OpGetCircuit true]))
      (world_of (after calm 10 600
                  [OpGetCircuit true; OpGetCircuit true; OpGetCircuit true]))
    = (r, m', w') /\
    exists c, r = Return (Some c) /\ request_count c = 1.
Proof.
  eexists; eexists; eexists. split; [vm_compute; reflexivity|].
  eapply (require_fresh_honoured_below_capacity (E:=calm)
            (pool_of (after calm 10 600
                  [OpGetCircuit true; OpGetCircuit true; OpGetCircuit true]))
            (world_of (after calm 10 600
                  [OpGetCircuit true; OpGetCircuit true; OpGetCircuit true]))
            _ _ _ (unary 3) []).
  - exact calm_unique.
  - apply after_reachable.
  - vm_compute; reflexivity.
  - vm_compute; reflexivity.
  - discriminate.
  - vm_compute; reflexivity.
Defined.

Lemma acquisition_creates_at_most_one_witness :
  exists r m' w',
    get_circuit (E:=fading) true
      (pool_of (after fading 10 600 [OpGetCircuit true]))
      (world_of (after fading 10 600 [OpGetCircuit true])) = (r, m', w') /\
    (ctl_calls (world_of (after fading 10 600 [OpGetCircuit true]))
     <= ctl_calls w'
     <= ctl_calls (world_of (after fading 10 600 [OpGetCircuit true])) + 1)%nat
    /\
    (List.length (circuits (pool_of (after fading 10 600 [OpGetCircuit true])))
     <= List.length (circuits m')
     <= List.length
          (circuits (pool_of (after fading 10 600 [OpGetCircuit true]))) + 1)%nat
    /\
    rnd_calls w'
    = rnd_calls (world_of (after fading 10 600 [OpGetCircuit true])).
Proof.
  eexists; eexists; eexists. split; [vm_compute; reflexivity|].
  eapply (acquisition_creates_at_most_one (E:=fading) true
            (pool_of (after fading 10 600 [OpGetCircuit true]))
            (world_of (after fading 10 600 [OpGetCircuit true]))).
  vm_compute; reflexivity.
Defined.

